(** * SignalWatchUK: the director network scanner and the rate limiter

    A shallow embedding of [src/network_scanner.py] (class [NetworkScanner])
    and [src/core/rate_limiter.py] (class [RateLimiter]), with the properties
    of the crawl, of the cluster analysis and of the rate gate stated over it.
    The second part of the file adds the paged calls and the profile cache
    of [src/api_client.py] and the network stage of
    [src/core/batch_processor.py].

    Conventions of the embedding.
    - Python [int] is [Z]; [len(...)] is a [nat].
    - Python [str] is [string], read as its UTF-8 bytes. [str.upper] is a
      parameter of the model ([str_upper]): what is proved of the scanner
      holds whatever the case mapping is, Python's included. The sample
      data, in ASCII, is run with [PyStr.upper].
    - The JSON objects of the registry API are records; a field of type
      [option _] is [None] when the key is absent from the object.
    - An insertion-ordered [dict] is an association list with unique keys
      ([dict_get], [dict_set]); a Python [set] of strings is a [gset string].
    - A call of the API client returns a value or raises; the client may
      answer differently from one call to the next, so it is a function of a
      world [W] that it also updates.
    - The scanner is embedded twice. The first embedding is for a client
      whose calls return or raise an exception derived from [Exception],
      on a console that accepts every line. The second ([AnyException]) has
      the exceptions that [except Exception] does not catch and a console
      that can fail; the first is the second on such a client
      ([scan_network_plain]). *)

From Stdlib Require Import ZArith Lia String Ascii List Sorted.
From stdpp Require Import gmap strings list.
From Equations Require Import Equations.

#[local] Set Warnings "-clear-no-such-hyp".
Local Open Scope Z_scope.

(** ** Python strings *)

Module PyStr.

Definition ascii_upper (c : ascii) : ascii :=
  let n := nat_of_ascii c in
  if ((97 <=? n) && (n <=? 122))%nat then ascii_of_nat (n - 32) else c.

(** [s.upper()] for a string in ASCII. Python's [str.upper] also maps the
    letters outside ASCII, which [upper] leaves as they are. *)
Fixpoint upper (s : string) : string :=
  match s with
  | EmptyString => EmptyString
  | String c s' => String (ascii_upper c) (upper s')
  end.

(** [kw in s] *)
Fixpoint contains (kw s : string) : bool :=
  String.prefix kw s ||
  match s with
  | EmptyString => false
  | String _ s' => contains kw s'
  end.

(** [s.split(sep)] for a one-character separator *)
Fixpoint split (sep : ascii) (s : string) : list string :=
  match s with
  | EmptyString => [EmptyString]
  | String c s' =>
      if Ascii.eqb c sep then EmptyString :: split sep s'
      else match split sep s' with
           | [] => [String c EmptyString]
           | w :: ws => String c w :: ws
           end
  end.

(** truth value of an optional string: [None] and [''] are false *)
Definition truthy (o : option string) : bool :=
  match o with
  | Some s => negb (String.eqb s "")
  | None => false
  end.

End PyStr.

(** [s.upper()]. Python's [str.upper] maps the letters of every alphabet.
    The model leaves the mapping open: the scanner is embedded over any
    [str_upper], so that what is proved of it holds for Python's mapping.
    [PyStr.upper] is that mapping on strings in ASCII; the sample data,
    whose names are in ASCII, is run with it ([ascii_case]). *)
Class StrUpper := { str_upper : string -> string }.

#[global] Instance ascii_case : StrUpper := {| str_upper := PyStr.upper |}.

(** ** Insertion-ordered dictionaries *)

Section Dict.
Context {V : Type}.

Fixpoint dict_get (k : string) (d : list (string * V)) : option V :=
  match d with
  | [] => None
  | (k', v) :: d' => if String.eqb k k' then Some v else dict_get k d'
  end.

(** [d[k] = v]: an existing key keeps its position *)
Fixpoint dict_set (k : string) (v : V) (d : list (string * V)) : list (string * V) :=
  match d with
  | [] => [(k, v)]
  | (k', v') :: d' =>
      if String.eqb k k' then (k, v) :: d' else (k', v') :: dict_set k v d'
  end.

Definition dict_keys (d : list (string * V)) : list string := map fst d.

Lemma dict_get_set_eq k v d : dict_get k (dict_set k v d) = Some v.
Proof.
  induction d as [|[k' v'] d IH]; simpl.
  - by rewrite String.eqb_refl.
  - destruct (String.eqb k k') eqn:E; simpl; by rewrite ?String.eqb_refl, ?E.
Qed.

Lemma dict_get_set_ne k k' v d : k <> k' -> dict_get k' (dict_set k v d) = dict_get k' d.
Proof.
  intros Hne. induction d as [|[k0 v0] d IH]; simpl.
  - by apply String.eqb_neq in Hne; rewrite String.eqb_sym, Hne.
  - destruct (String.eqb k k0) eqn:E; simpl.
    + apply String.eqb_eq in E as <-.
      by apply String.eqb_neq in Hne; rewrite String.eqb_sym, Hne.
    + by rewrite IH.
Qed.

Lemma dict_get_None k d : dict_get k d = None <-> k ∉ dict_keys d.
Proof.
  induction d as [|[k' v'] d IH]; simpl.
  - split; [intros _; apply not_elem_of_nil | done].
  - rewrite not_elem_of_cons. destruct (String.eqb k k') eqn:E.
    + apply String.eqb_eq in E. split; [done | intros [? _]; done].
    + apply String.eqb_neq in E. rewrite IH. tauto.
Qed.

Lemma dict_keys_set_fresh k v d :
  k ∉ dict_keys d -> dict_keys (dict_set k v d) = dict_keys d ++ [k].
Proof.
  induction d as [|[k' v'] d IH]; simpl; [done|].
  rewrite not_elem_of_cons. intros [Hne Hnin].
  apply String.eqb_neq in Hne. rewrite Hne. simpl. by rewrite IH.
Qed.

End Dict.

(** ** The registry API as the scanner sees it *)

(** The exceptions derived from [Exception], which [except Exception]
    catches: those of the client, with the text [str(e)] gives, and the one
    the scanner's own [split('/')[-2]] can raise. The exceptions outside
    [Exception] are in [base_exception], with the second embedding. *)
Inductive exn :=
| Exception (msg : string)
| IndexError.

Inductive result (A : Type) :=
| Ok (a : A)
| Raise (e : exn).
Arguments Ok {A} a.
Arguments Raise {A} e.

Record Profile := {
  p_company_name : option string;
  p_company_status : option string;
  p_type : option string;
  p_date_of_creation : option string }.

Record Officer := {
  o_name : option string;
  o_officer_role : option string;
  o_appointed_on : option string;
  o_resigned_on : option string;
  o_date_of_birth : option string }.

Record Links := { l_self : option string }.

(** One item of an officer search. [m_other_keys] tells whether the object
    has keys besides [title] and [links]: an object with no key at all is
    false in a Python condition. *)
Record OfficerMatch := {
  m_title : option string;
  m_links : option Links;
  m_other_keys : bool }.

Record AppointedTo := {
  a_company_number : option string;
  a_company_status : option string }.

Record OfficerAppointment := {
  oa_appointed_to : option AppointedTo;
  oa_resigned_on : option string }.

(** The client, when its calls return or raise an exception derived from
    [Exception]; [AnyException.Client] is the client without that
    condition. *)
Record Facade (W : Type) := {
  get_company_profile : string -> W -> result Profile * W;
  get_officers : string -> W -> result (list Officer) * W;
  search_officers : string -> W -> result (list OfficerMatch) * W;
  get_officer_appointments : string -> W -> result (list OfficerAppointment) * W }.
Arguments get_company_profile {W} _ _ _.
Arguments get_officers {W} _ _ _.
Arguments search_officers {W} _ _ _.
Arguments get_officer_appointments {W} _ _ _.

(** ** The network snapshot *)

Record CompanyNode := {
  cn_company_number : string;
  cn_company_name : option string;
  cn_company_status : option string;
  cn_company_type : option string;
  cn_incorporation_date : option string;
  cn_depth : Z;
  cn_officer_count : nat }.

Record AppointmentRec := {
  ar_company_number : string;
  ar_company_name : option string;
  ar_role : string;
  ar_appointed_on : option string;
  ar_resigned_on : option string;
  ar_date_of_birth : option string }.

Record Director := {
  d_name : string;
  d_appointments : list AppointmentRec;
  d_company_count : nat }.

Record Connection := {
  c_company_number : string;
  c_company_name : option string;
  c_director_id : string;
  c_director_name : string;
  c_role : string;
  c_depth : Z }.

Record Statistics := {
  total_companies : nat;
  total_directors : nat;
  total_connections : nat;
  depth_reached : Z }.

Record Network := {
  net_seed_companies : list string;
  net_max_depth : Z;
  net_companies : list (string * CompanyNode);
  net_directors : list (string * Director);
  net_connections : list Connection;
  net_statistics : Statistics }.

(** The calls a scan issues and the nodes it records, in order. No code
    reads this log: it is kept to state what a scan did. *)
Inductive event :=
| EvProfile (company_number : string) (ok : bool)
| EvOfficers (company_number : string) (ok : bool)
| EvSearch (officer_id officer_name : string) (ok : bool)
| EvAppointments (officer_api_id : string) (ok : bool)
| EvRecord (company_number : string) (depth : Z).

(** ** The rate limiter

    [src/core/rate_limiter.py]. Time is counted in ticks of the clock
    ([Z]); the instants of the statements below are whole numbers of
    seconds, on which Python's floats compute exactly. The lock serialises
    the callers, so a run is a sequence of calls. In [acquire] the sleep
    ends exactly on time; [RateLimiterClock.acquire_rereading] reads the
    clock again after the sleep, as line 46 does. *)

Module RateLimiter.

Record t := {
  max_requests : Z;
  period : Z;
  requests : list Z }.

(** [while self.requests and self.requests[0] < now - self.period:
       self.requests.popleft()] *)
Fixpoint prune (now period : Z) (requests : list Z) : list Z :=
  match requests with
  | [] => []
  | oldest :: rest =>
      if oldest <? now - period then prune now period rest else requests
  end.

Definition set_requests (requests : list Z) (self : t) : t :=
  {| max_requests := max_requests self; period := period self; requests := requests |}.

(** [acquire], called when the clock reads [clock]: the limiter and the
    clock when the call returns. *)
Definition acquire (self : t) (clock : Z) : result (t * Z) :=
  let now := clock in
  let requests1 := prune now (period self) (requests self) in
  if Z.of_nat (length requests1) >=? max_requests self then
    match requests1 with
    | [] => Raise IndexError
    | oldest :: _ =>
        let sleep_time := oldest + period self - now in
        if sleep_time >? 0 then
          let now := clock + sleep_time in
          let requests2 := prune now (period self) requests1 in
          Ok (set_requests (requests2 ++ [now]) self, now)
        else Ok (set_requests (requests1 ++ [now]) self, now)
    end
  else Ok (set_requests (requests1 ++ [now]) self, now).

(** A run: the limiter, the clock, and the instants at which requests were
    granted so far. *)
Record Run := {
  limiter : t;
  clock : Z;
  granted : list Z }.

(** One more caller, arriving when the clock reads [arrival] (or as soon as
    the previous call has returned). *)
Definition call (run : result Run) (arrival : Z) : result Run :=
  match run with
  | Raise e => Raise e
  | Ok r =>
      match acquire (limiter r) (Z.max (clock r) arrival) with
      | Raise e => Raise e
      | Ok (self', now) =>
          Ok {| limiter := self'; clock := now; granted := granted r ++ [now] |}
      end
  end.

Definition calls (self : t) (start : Z) (arrivals : list Z) : result Run :=
  fold_left call arrivals (Ok {| limiter := self; clock := start; granted := [] |}).

(** The number of grants in the window of length [period] that starts at
    [from]. *)
Definition granted_in_window (from period : Z) (granted : list Z) : nat :=
  length (List.filter (fun g => (from <=? g) && (g <? from + period)) granted).

End RateLimiter.

(** ** Clusters of companies

    [find_company_clusters]. Python does not specify the order in which a
    [set] of strings is iterated; [set_iter] is that order. The recursion of
    [dfs] is bounded by the number of companies the network names, which it
    never exceeds (see [dfs_returns]); Python's own recursion limit is not
    modelled. *)

Section Clusters.
Variable set_iter : gset string -> list string.

(** Lines 276-280: [[c['company_number'] for c in connections
    if c['director_id'] == director]] *)
Definition related_companies (connections : list Connection) (director : string)
    : list string :=
  map c_company_number
    (List.filter (fun c => String.eqb (c_director_id c) director) connections).

(** Lines 282-284, on a [defaultdict(set)]. *)
Definition add_related (company : string) (graph : gmap string (gset string))
    (related : string) : gmap string (gset string) :=
  if negb (String.eqb related company)
  then <[company := {[related]} ∪ graph !!! company]> graph
  else graph.

(** Lines 269-284. *)
Definition build_graph (connections : list Connection) : gmap string (gset string) :=
  fold_left
    (fun graph connection =>
       fold_left (add_related (c_company_number connection))
         (related_companies connections (c_director_id connection)) graph)
    connections ∅.

(** Lines 290-295: [dfs(node, cluster)] on the shared [visited]; [None] when
    the recursion is deeper than [fuel]. *)
Fixpoint dfs (graph : gmap string (gset string)) (fuel : nat) (node : string)
    (state : gset string * list string) : option (gset string * list string) :=
  match fuel with
  | O => None
  | S fuel' =>
      fold_left
        (fun acc neighbor =>
           match acc with
           | None => None
           | Some (visited, cluster) =>
               if bool_decide (neighbor ∈ visited) then Some (visited, cluster)
               else dfs graph fuel' neighbor (visited, cluster)
           end)
        (set_iter (graph !!! node))
        (Some ({[node]} ∪ state.1, state.2 ++ [node]))
  end.

(** The companies a network names. *)
Definition named_companies (net : Network) : list string :=
  dict_keys (net_companies net) ++ map c_company_number (net_connections net).

(** Lines 297-302: the clusters in the order they are found. *)
Definition discover_clusters (net : Network) : option (list (list string)) :=
  let graph := build_graph (net_connections net) in
  snd <$>
  fold_left
    (fun acc company =>
       match acc with
       | None => None
       | Some (visited, clusters) =>
           if bool_decide (company ∈ visited) then Some (visited, clusters)
           else
             match dfs graph (S (length (named_companies net))) company (visited, []) with
             | None => None
             | Some (visited', cluster) =>
                 Some (visited',
                       if (1 <? length cluster)%nat then clusters ++ [cluster]
                       else clusters)
             end
       end)
    (dict_keys (net_companies net))
    (Some (∅, [])).

(** [clusters.sort(key=len, reverse=True)]: Python's sort is stable, also
    with [reverse=True], which determines its result; here by insertion. *)
Fixpoint insert_by_len (cluster : list string) (sorted : list (list string))
    : list (list string) :=
  match sorted with
  | [] => [cluster]
  | c :: rest =>
      if (length cluster <? length c)%nat then c :: insert_by_len cluster rest
      else cluster :: sorted
  end.

Definition sort_by_len_desc (clusters : list (list string)) : list (list string) :=
  foldr insert_by_len [] clusters.

Definition find_company_clusters (net : Network) : option (list (list string)) :=
  sort_by_len_desc <$> discover_clusters net.

End Clusters.

(** Two companies are adjacent when some director identity has a connection
    to both. *)
Definition adjacent (connections : list Connection) (a b : string) : Prop :=
  exists c1 c2,
    c1 ∈ connections /\ c2 ∈ connections /\
    c_company_number c1 = a /\ c_company_number c2 = b /\
    c_director_id c1 = c_director_id c2.

(** ** The scanner *)

Section Scan.
Context {W : Type} {U : StrUpper}.
Variable api_client : Facade W.

(** What a running [scan_network] call reads and writes: the client's world,
    the two sets of the instance, the local work list and network, and the
    log. *)
Record ScanState := {
  world : W;
  scanned_companies : gset string;
  scanned_officers : gset string;
  companies_to_scan : list (string * Z);
  network : Network;
  trace : list event }.

Definition set_world (w : W) (st : ScanState) : ScanState :=
  {| world := w; scanned_companies := scanned_companies st;
     scanned_officers := scanned_officers st;
     companies_to_scan := companies_to_scan st;
     network := network st; trace := trace st |}.

Definition set_scanned_companies (s : gset string) (st : ScanState) : ScanState :=
  {| world := world st; scanned_companies := s;
     scanned_officers := scanned_officers st;
     companies_to_scan := companies_to_scan st;
     network := network st; trace := trace st |}.

Definition set_scanned_officers (s : gset string) (st : ScanState) : ScanState :=
  {| world := world st; scanned_companies := scanned_companies st;
     scanned_officers := s;
     companies_to_scan := companies_to_scan st;
     network := network st; trace := trace st |}.

Definition set_companies_to_scan (q : list (string * Z)) (st : ScanState) : ScanState :=
  {| world := world st; scanned_companies := scanned_companies st;
     scanned_officers := scanned_officers st;
     companies_to_scan := q;
     network := network st; trace := trace st |}.

Definition set_network (n : Network) (st : ScanState) : ScanState :=
  {| world := world st; scanned_companies := scanned_companies st;
     scanned_officers := scanned_officers st;
     companies_to_scan := companies_to_scan st;
     network := n; trace := trace st |}.

Definition log (e : event) (st : ScanState) : ScanState :=
  {| world := world st; scanned_companies := scanned_companies st;
     scanned_officers := scanned_officers st;
     companies_to_scan := companies_to_scan st;
     network := network st; trace := trace st ++ [e] |}.

(** *** Statements that may raise

    A statement runs on the state and returns a value or raises; what it wrote
    before raising stays written. *)
Definition M (A : Type) : Type := ScanState -> result A * ScanState.

Definition ret {A} (a : A) : M A := fun st => (Ok a, st).

Definition bind {A B} (m : M A) (k : A -> M B) : M B :=
  fun st =>
    match m st with
    | (Ok a, st') => k a st'
    | (Raise e, st') => (Raise e, st')
    end.

Definition raise {A} (e : exn) : M A := fun st => (Raise e, st).

(** [try: m except Exception as e: h e] *)
Definition try_except {A} (m : M A) (h : exn -> M A) : M A :=
  fun st =>
    match m st with
    | (Ok a, st') => (Ok a, st')
    | (Raise e, st') => h e st'
    end.

Definition get : M ScanState := fun st => (Ok st, st).

Definition modify (f : ScanState -> ScanState) : M unit := fun st => (Ok tt, f st).

Notation "x <~ m ; k" := (bind m (fun x => k))
  (at level 20, m at level 100, k at level 200, only parsing).
Notation "m ;> k" := (bind m (fun _ => k))
  (at level 100, k at level 200, right associativity, only parsing).

(** [for x in l: body x] *)
Fixpoint for_each {A} (l : list A) (body : A -> M unit) : M unit :=
  match l with
  | [] => ret tt
  | x :: l' => body x ;> for_each l' body
  end.

(** *** Calls of the client *)

Definition call_profile (company_number : string) : M Profile :=
  fun st =>
    match get_company_profile api_client company_number (world st) with
    | (Ok p, w) => (Ok p, log (EvProfile company_number true) (set_world w st))
    | (Raise e, w) => (Raise e, log (EvProfile company_number false) (set_world w st))
    end.

Definition call_officers (company_number : string) : M (list Officer) :=
  fun st =>
    match get_officers api_client company_number (world st) with
    | (Ok l, w) => (Ok l, log (EvOfficers company_number true) (set_world w st))
    | (Raise e, w) => (Raise e, log (EvOfficers company_number false) (set_world w st))
    end.

Definition call_search (officer_id officer_name : string) : M (list OfficerMatch) :=
  fun st =>
    match search_officers api_client officer_name (world st) with
    | (Ok l, w) => (Ok l, log (EvSearch officer_id officer_name true) (set_world w st))
    | (Raise e, w) => (Raise e, log (EvSearch officer_id officer_name false) (set_world w st))
    end.

Definition call_appointments (officer_api_id : string) : M (list OfficerAppointment) :=
  fun st =>
    match get_officer_appointments api_client officer_api_id (world st) with
    | (Ok l, w) => (Ok l, log (EvAppointments officer_api_id true) (set_world w st))
    | (Raise e, w) => (Raise e, log (EvAppointments officer_api_id false) (set_world w st))
    end.

(** *** [scan_network]: the arguments *)

Variables (max_depth max_companies : Z) (active_only : bool).

(** [f"{officer_name}_{officer.get('appointed_on', '')}"] *)
Definition officer_id_of (officer : Officer) : string :=
  default "" (o_name officer) +:+ "_" +:+ default "" (o_appointed_on officer).

(** Lines 110-145: the director entry, the appointment and the connection
    of one officer of [company_number]. *)
Definition record_appointment (company_number : string) (profile : Profile)
    (depth : Z) (officer : Officer) (net : Network) : Network :=
  let officer_name := default "" (o_name officer) in
  let officer_role := default "" (o_officer_role officer) in
  let officer_id := officer_id_of officer in
  let directors0 :=
    match dict_get officer_id (net_directors net) with
    | Some _ => net_directors net
    | None =>
        dict_set officer_id
          {| d_name := officer_name; d_appointments := []; d_company_count := 0 |}
          (net_directors net)
    end in
  let appointment :=
    {| ar_company_number := company_number;
       ar_company_name := p_company_name profile;
       ar_role := officer_role;
       ar_appointed_on := o_appointed_on officer;
       ar_resigned_on := o_resigned_on officer;
       ar_date_of_birth := o_date_of_birth officer |} in
  let directors1 :=
    match dict_get officer_id directors0 with
    | Some d =>
        dict_set officer_id
          {| d_name := d_name d;
             d_appointments := d_appointments d ++ [appointment];
             d_company_count := length (d_appointments d ++ [appointment]) |}
          directors0
    | None => directors0
    end in
  {| net_seed_companies := net_seed_companies net;
     net_max_depth := net_max_depth net;
     net_companies := net_companies net;
     net_directors := directors1;
     net_connections :=
       net_connections net ++
       [{| c_company_number := company_number;
           c_company_name := p_company_name profile;
           c_director_id := officer_id;
           c_director_name := officer_name;
           c_role := officer_role;
           c_depth := depth |}];
     net_statistics := net_statistics net |}.

Definition corporate_keywords : list string :=
  ["LIMITED"; "LTD"; "PLC"; "LLP"; "COMPANY"; "CORPORATE"]%string.

(** [any(keyword in officer_name.upper() for keyword in [...])] *)
Definition is_corporate_officer (officer_name : string) : bool :=
  existsb (fun keyword => PyStr.contains keyword (str_upper officer_name))
    corporate_keywords.

(** truth value of a search item: a dict is false when it has no key *)
Definition match_truthy (m : OfficerMatch) : bool :=
  match m_title m, m_links m with
  | None, None => m_other_keys m
  | _, _ => true
  end.

(** [match_name.upper() == officer_name.upper()] *)
Definition exact_match (officer_name : string) (officer_match : OfficerMatch) : bool :=
  String.eqb (str_upper (default "" (m_title officer_match)))
             (str_upper officer_name).

(** Lines 160-170, for a non-empty result list: the first of the top five
    with an exact name, and the first result when [not best_match]. *)
Definition select_best_match (officer_name : string)
    (officer_results : list OfficerMatch) : option OfficerMatch :=
  let best_match := List.find (exact_match officer_name) (take 5 officer_results) in
  match best_match with
  | Some m => if match_truthy m then Some m else head officer_results
  | None => head officer_results
  end.

(** [l[-k]] *)
Definition index_from_end {A} (l : list A) (k : nat) : result A :=
  match rev l !! (k - 1)%nat with
  | Some x => Ok x
  | None => Raise IndexError
  end.

Definition lift {A} (r : result A) : M A := fun st => (r, st).

(** Lines 185-202: one appointment of the matched officer. *)
Definition enqueue_appointment (depth : Z) (st : ScanState)
    (appt : OfficerAppointment) : ScanState :=
  let appt_company := oa_appointed_to appt ≫= a_company_number in
  let officer_status := oa_resigned_on appt in
  match appt_company with
  | None => st
  | Some c =>
      if String.eqb c "" || bool_decide (c ∈ scanned_companies st) then st
      else if active_only && PyStr.truthy officer_status then st
      else
        let company_status := oa_appointed_to appt ≫= a_company_status in
        if active_only && negb (bool_decide (company_status = Some "active"%string)) then st
        else set_companies_to_scan (companies_to_scan st ++ [(c, depth + 1)]) st
  end.

Definition add_scanned_officer (officer_id : string) (st : ScanState) : ScanState :=
  set_scanned_officers ({[officer_id]} ∪ scanned_officers st) st.

(** Lines 150-208: the body of the [try] around the officer search. *)
Definition fan_out (officer_name officer_id : string) (depth : Z) : M unit :=
  if is_corporate_officer officer_name then
    modify (add_scanned_officer officer_id)
  else
    officer_results <~ call_search officer_id officer_name;
    match officer_results with
    | [] => ret tt
    | _ :: _ =>
        match select_best_match officer_name officer_results with
        | Some best_match =>
            if match_truthy best_match then
              let match_id := default ""%string (m_links best_match ≫= l_self) in
              if negb (String.eqb match_id "") then
                officer_api_id <~ lift (index_from_end (PyStr.split "/" match_id) 2);
                try_except
                  (appointments <~ call_appointments officer_api_id;
                   modify (fun st => fold_left (enqueue_appointment depth) appointments st))
                  (fun appt_error => ret tt)
              else ret tt
            else ret tt
        | None => ret tt
        end
    end ;>
    modify (add_scanned_officer officer_id).

(** Lines 105-213: one turn of [for officer in officers]. *)
Definition process_officer (company_number : string) (profile : Profile)
    (depth : Z) (officer : Officer) : M unit :=
  let officer_name := default ""%string (o_name officer) in
  let officer_id := officer_id_of officer in
  modify (fun st =>
    set_network (record_appointment company_number profile depth officer (network st)) st) ;>
  st <~ get;
  if (depth <? max_depth) && negb (bool_decide (officer_id ∈ scanned_officers st)) then
    try_except (fan_out officer_name officer_id depth) (fun e => ret tt)
  else ret tt.

(** Lines 89-102: the node and [depth_reached] in the network. *)
Definition store_node (company_number : string) (profile : Profile)
    (depth : Z) (officers : list Officer) (net : Network) : Network :=
  {| net_seed_companies := net_seed_companies net;
     net_max_depth := net_max_depth net;
     net_companies :=
       dict_set company_number
         {| cn_company_number := company_number;
            cn_company_name := p_company_name profile;
            cn_company_status := p_company_status profile;
            cn_company_type := p_type profile;
            cn_incorporation_date := p_date_of_creation profile;
            cn_depth := depth;
            cn_officer_count := length officers |}
         (net_companies net);
     net_directors := net_directors net;
     net_connections := net_connections net;
     net_statistics :=
       {| total_companies := total_companies (net_statistics net);
          total_directors := total_directors (net_statistics net);
          total_connections := total_connections (net_statistics net);
          depth_reached := Z.max (depth_reached (net_statistics net)) depth |} |}.

(** Lines 89-102: the node, the visited set and [depth_reached]. *)
Definition store_company (company_number : string) (profile : Profile)
    (depth : Z) (officers : list Officer) (st : ScanState) : ScanState :=
  log (EvRecord company_number depth)
    (set_scanned_companies ({[company_number]} ∪ scanned_companies st)
       (set_network (store_node company_number profile depth officers (network st)) st)).

Definition status_is_active (profile : Profile) : bool :=
  bool_decide (p_company_status profile = Some "active"%string).

(** Lines 71-213: the body of the [try] of one turn of the [while]. *)
Definition expand (company_number : string) (depth : Z) : M unit :=
  profile <~ call_profile company_number;
  if active_only && negb (status_is_active profile) then ret tt
  else
    officers <~ call_officers company_number;
    let officers :=
      if active_only
      then List.filter (fun o => negb (PyStr.truthy (o_resigned_on o))) officers
      else officers in
    modify (store_company company_number profile depth officers) ;>
    for_each officers (process_officer company_number profile depth).

(** [companies_to_scan.pop(0)] *)
Definition pop_front : M (string * Z) :=
  fun st =>
    match companies_to_scan st with
    | [] => (Raise IndexError, st)
    | item :: rest => (Ok item, set_companies_to_scan rest st)
    end.

(** [companies_to_scan and len(self.scanned_companies) < max_companies] *)
Definition loop_cond (st : ScanState) : bool :=
  match companies_to_scan st with
  | [] => false
  | _ :: _ => Z.of_nat (size (scanned_companies st)) <? max_companies
  end.

(** Lines 62-216: one turn of the [while]. *)
Definition loop_body : M unit :=
  item <~ pop_front;
  st <~ get;
  if bool_decide (item.1 ∈ scanned_companies st) || (item.2 >? max_depth) then ret tt
  else try_except (expand item.1 item.2) (fun e => ret tt).

(** *** What one turn does, call by call

    The statements above are unfolded once, into the state each outcome of
    the client's calls leaves; the later proofs start from these equations. *)

(** What the search results make the scanner look up. *)
Inductive lookup_plan :=
| NoLookup
| BadLink
| Lookup (officer_api_id : string).

Definition plan_of (officer_name : string) (officer_results : list OfficerMatch) : lookup_plan :=
  match officer_results with
  | [] => NoLookup
  | _ :: _ =>
      match select_best_match officer_name officer_results with
      | Some best_match =>
          if match_truthy best_match then
            let match_id := default ""%string (m_links best_match ≫= l_self) in
            if negb (String.eqb match_id "") then
              match index_from_end (PyStr.split "/" match_id) 2 with
              | Ok officer_api_id => Lookup officer_api_id
              | Raise _ => BadLink
              end
            else NoLookup
          else NoLookup
      | None => NoLookup
      end
  end.

(** The company an appointment would enqueue, the visited set apart. *)
Definition appointment_target (appt : OfficerAppointment) : option string :=
  match oa_appointed_to appt ≫= a_company_number with
  | None => None
  | Some c =>
      if String.eqb c "" then None
      else if active_only && PyStr.truthy (oa_resigned_on appt) then None
      else if active_only &&
              negb (bool_decide (oa_appointed_to appt ≫= a_company_status = Some "active"%string))
           then None
      else Some c
  end.

Definition new_items (depth : Z) (visited : gset string)
    (appointments : list OfficerAppointment) : list (string * Z) :=
  map (fun c => (c, depth + 1))
    (List.filter (fun c => negb (bool_decide (c ∈ visited)))
       (omap appointment_target appointments)).

Lemma set_companies_to_scan_id (st : ScanState) :
  set_companies_to_scan (companies_to_scan st) st = st.
Proof. by destruct st. Qed.

Lemma enqueue_appointment_eq depth st appt :
  enqueue_appointment depth st appt =
  set_companies_to_scan
    (companies_to_scan st ++ new_items depth (scanned_companies st) [appt]) st.
Proof.
  unfold enqueue_appointment, new_items, appointment_target. simpl.
  destruct (oa_appointed_to appt ≫= a_company_number) as [c|]; simpl;
    [|by rewrite app_nil_r, set_companies_to_scan_id].
  destruct (String.eqb c ""); simpl;
    [by rewrite app_nil_r, set_companies_to_scan_id|].
  destruct (active_only && PyStr.truthy (oa_resigned_on appt)); simpl.
  { destruct (bool_decide (c ∈ scanned_companies st));
      by rewrite app_nil_r, set_companies_to_scan_id. }
  destruct (active_only && negb (bool_decide (_ = Some "active"%string))); simpl.
  { destruct (bool_decide (c ∈ scanned_companies st));
      by rewrite app_nil_r, set_companies_to_scan_id. }
  destruct (bool_decide (c ∈ scanned_companies st)); simpl;
    [by rewrite app_nil_r, set_companies_to_scan_id | done].
Qed.

Lemma new_items_app depth visited l1 l2 :
  new_items depth visited (l1 ++ l2) =
  new_items depth visited l1 ++ new_items depth visited l2.
Proof.
  unfold new_items. by rewrite omap_app, List.filter_app, map_app.
Qed.

Lemma enqueue_appointments_eq depth appointments st :
  fold_left (enqueue_appointment depth) appointments st =
  set_companies_to_scan
    (companies_to_scan st ++ new_items depth (scanned_companies st) appointments) st.
Proof.
  revert st. induction appointments as [|appt l IH]; intros st; simpl.
  - by rewrite app_nil_r, set_companies_to_scan_id.
  - rewrite IH, enqueue_appointment_eq. destruct st; simpl.
    unfold set_companies_to_scan; simpl. f_equal.
    rewrite <- app_assoc. f_equal.
    change (appt :: l) with ([appt] ++ l). by rewrite new_items_app.
Qed.

Definition after_search (officer_id officer_name : string) (ok : bool) (w : W)
    (st : ScanState) : ScanState :=
  log (EvSearch officer_id officer_name ok) (set_world w st).

Definition after_appointments (officer_api_id : string) (ok : bool) (w : W)
    (st : ScanState) : ScanState :=
  log (EvAppointments officer_api_id ok) (set_world w st).

Lemma fan_out_run officer_name officer_id depth st :
  fan_out officer_name officer_id depth st =
  if is_corporate_officer officer_name then (Ok tt, add_scanned_officer officer_id st)
  else
    match search_officers api_client officer_name (world st) with
    | (Raise e, w) => (Raise e, after_search officer_id officer_name false w st)
    | (Ok officer_results, w) =>
        let st1 := after_search officer_id officer_name true w st in
        match plan_of officer_name officer_results with
        | NoLookup => (Ok tt, add_scanned_officer officer_id st1)
        | BadLink => (Raise IndexError, st1)
        | Lookup officer_api_id =>
            match get_officer_appointments api_client officer_api_id w with
            | (Raise e, w') =>
                (Ok tt, add_scanned_officer officer_id
                          (after_appointments officer_api_id false w' st1))
            | (Ok appointments, w') =>
                (Ok tt, add_scanned_officer officer_id
                          (fold_left (enqueue_appointment depth) appointments
                             (after_appointments officer_api_id true w' st1)))
            end
        end
    end.
Proof.
  unfold fan_out. destruct (is_corporate_officer officer_name); [done|].
  unfold bind at 1, call_search.
  destruct (search_officers api_client officer_name (world st)) as [[results|e] w]; [|done].
  unfold plan_of, after_search.
  destruct results as [|r results]; [done|].
  destruct (select_best_match officer_name (r :: results)) as [bm|]; [|done].
  destruct (match_truthy bm); [|done].
  simpl. destruct (negb (String.eqb _ "")); [|done].
  unfold bind, lift, try_except, call_appointments, modify, ret; simpl.
  unfold index_from_end.
  destruct (rev _ !! _) as [aid|]; [|done].
  by destruct (get_officer_appointments api_client aid w) as [[l|e] w'].
Qed.

(** The state after one officer. *)
Definition officer_step (company_number : string) (profile : Profile) (depth : Z)
    (st : ScanState) (officer : Officer) : ScanState :=
  let st1 :=
    set_network (record_appointment company_number profile depth officer (network st)) st in
  if (depth <? max_depth) &&
     negb (bool_decide (officer_id_of officer ∈ scanned_officers st))
  then (fan_out (default ""%string (o_name officer)) (officer_id_of officer) depth st1).2
  else st1.

Lemma process_officer_run company_number profile depth officer st :
  process_officer company_number profile depth officer st =
  (Ok tt, officer_step company_number profile depth st officer).
Proof.
  unfold process_officer, officer_step, bind, modify, get, try_except, ret; simpl.
  destruct ((depth <? max_depth) && _); [|done].
  by destruct (fan_out _ _ _ _) as [[[]|e] st2].
Qed.

Lemma for_each_officers_run company_number profile depth officers st :
  for_each officers (process_officer company_number profile depth) st =
  (Ok tt, fold_left (officer_step company_number profile depth) officers st).
Proof.
  revert st. induction officers as [|o l IH]; intros st; [done|].
  simpl. unfold bind. by rewrite process_officer_run, IH.
Qed.

Definition officers_kept (officers : list Officer) : list Officer :=
  if active_only
  then List.filter (fun o => negb (PyStr.truthy (o_resigned_on o))) officers
  else officers.

Lemma expand_run company_number depth st :
  expand company_number depth st =
  match get_company_profile api_client company_number (world st) with
  | (Raise e, w) => (Raise e, log (EvProfile company_number false) (set_world w st))
  | (Ok profile, w) =>
      let st1 := log (EvProfile company_number true) (set_world w st) in
      if active_only && negb (status_is_active profile) then (Ok tt, st1)
      else
        match get_officers api_client company_number w with
        | (Raise e, w') => (Raise e, log (EvOfficers company_number false) (set_world w' st1))
        | (Ok officers, w') =>
            let st2 := log (EvOfficers company_number true) (set_world w' st1) in
            (Ok tt,
             fold_left (officer_step company_number profile depth)
               (officers_kept officers)
               (store_company company_number profile depth (officers_kept officers) st2))
        end
  end.
Proof.
  unfold expand, bind at 1, call_profile.
  destruct (get_company_profile api_client company_number (world st)) as [[profile|e] w];
    [|done].
  destruct (active_only && negb (status_is_active profile)); [done|].
  unfold bind at 1, call_officers. simpl.
  destruct (get_officers api_client company_number w) as [[officers|e] w']; [|done].
  unfold bind, modify. by rewrite for_each_officers_run.
Qed.

(** The state after one turn of the [while], the item already popped. *)
Definition turn (company_number : string) (depth : Z) (st : ScanState) : ScanState :=
  if bool_decide (company_number ∈ scanned_companies st) || (depth >? max_depth) then st
  else (expand company_number depth st).2.

Lemma loop_body_run st company_number depth rest :
  companies_to_scan st = (company_number, depth) :: rest ->
  loop_body st = (Ok tt, turn company_number depth (set_companies_to_scan rest st)).
Proof.
  intros Hq. unfold loop_body, turn, bind, pop_front, get, try_except, ret.
  rewrite Hq. simpl.
  destruct (bool_decide _ || _); [done|].
  by destruct (expand _ _ _) as [[[]|e] st'].
Qed.

Lemma loop_cond_true st :
  loop_cond st = true ->
  exists company_number depth rest,
    companies_to_scan st = (company_number, depth) :: rest /\
    Z.of_nat (size (scanned_companies st)) < max_companies.
Proof.
  unfold loop_cond. destruct (companies_to_scan st) as [|[c d] rest]; [done|].
  intros H%Z.ltb_lt. eauto.
Qed.

Ltac unfold_setters :=
  unfold add_scanned_officer, store_company, after_appointments, after_search, log,
    set_world, set_network, set_scanned_officers, set_scanned_companies,
    set_companies_to_scan in *; simpl in *.

Definition fan_out_event (e : event) : Prop :=
  match e with
  | EvSearch _ _ _ | EvAppointments _ _ => True
  | _ => False
  end.

(** One officer leaves the visited companies alone, appends items of the
    next depth to the work list, may add the officer to the visited officers,
    and writes the network through [record_appointment] only. *)
Lemma officer_step_shape company_number profile depth st officer :
  exists w' officers' new evs,
    officer_step company_number profile depth st officer =
    {| world := w';
       scanned_companies := scanned_companies st;
       scanned_officers := officers';
       companies_to_scan := companies_to_scan st ++ new;
       network := record_appointment company_number profile depth officer (network st);
       trace := trace st ++ evs |}
    /\ scanned_officers st ⊆ officers'
    /\ officers' ⊆ {[officer_id_of officer]} ∪ scanned_officers st
    /\ Forall (fun it => it.2 = depth + 1 /\ depth < max_depth) new
    /\ Forall fan_out_event evs.
Proof.
  unfold officer_step.
  destruct (depth <? max_depth) eqn:Hd; simpl;
    [apply Z.ltb_lt in Hd|];
    [destruct (bool_decide (officer_id_of officer ∈ scanned_officers st)); simpl|];
    [| rewrite fan_out_run |].
  - exists (world st), (scanned_officers st), [], [].
    rewrite !app_nil_r. repeat split; [set_solver|set_solver|done|done].
  - destruct (is_corporate_officer _); simpl.
    { exists (world st), ({[officer_id_of officer]} ∪ scanned_officers st), [], [].
      rewrite !app_nil_r. repeat split; [set_solver|set_solver|done|done]. }
    destruct (search_officers _ _ _) as [[results|e] w]; simpl.
    2:{ exists w, (scanned_officers st), [], [EvSearch (officer_id_of officer) (default ""%string (o_name officer)) false].
        rewrite !app_nil_r. repeat split; [set_solver|set_solver|done|].
        by repeat constructor. }
    destruct (plan_of _ results) as [| |aid]; simpl.
    + exists w, ({[officer_id_of officer]} ∪ scanned_officers st), [],
        [EvSearch (officer_id_of officer) (default ""%string (o_name officer)) true].
      rewrite !app_nil_r. repeat split; [set_solver|set_solver|done|].
      by repeat constructor.
    + exists w, (scanned_officers st), [],
        [EvSearch (officer_id_of officer) (default ""%string (o_name officer)) true].
      rewrite !app_nil_r. repeat split; [set_solver|set_solver|done|].
      by repeat constructor.
    + destruct (get_officer_appointments _ _ _) as [[appts|e] w']; simpl.
      * rewrite enqueue_appointments_eq. simpl.
        exists w', ({[officer_id_of officer]} ∪ scanned_officers st),
          (new_items depth (scanned_companies st) appts),
          [EvSearch (officer_id_of officer) (default ""%string (o_name officer)) true;
           EvAppointments aid true].
        split; [unfold_setters; by rewrite <- app_assoc|].
        repeat split; [set_solver|set_solver| |by repeat constructor].
        unfold new_items. apply Forall_map, Forall_forall. by intros.
      * exists w', ({[officer_id_of officer]} ∪ scanned_officers st), [],
          [EvSearch (officer_id_of officer) (default ""%string (o_name officer)) true;
           EvAppointments aid false].
        split; [unfold_setters; by rewrite <- app_assoc, !app_nil_r|].
        repeat split; [set_solver|set_solver|done|by repeat constructor].
  - exists (world st), (scanned_officers st), [], [].
    rewrite !app_nil_r. repeat split; [set_solver|set_solver|done|done].
Qed.

(** The network after the officers of one company. *)
Definition record_appointments (company_number : string) (profile : Profile)
    (depth : Z) (officers : list Officer) (net : Network) : Network :=
  fold_left (fun net officer => record_appointment company_number profile depth officer net)
    officers net.

Lemma officers_fold_shape company_number profile depth officers st :
  exists w' officers' new evs,
    fold_left (officer_step company_number profile depth) officers st =
    {| world := w';
       scanned_companies := scanned_companies st;
       scanned_officers := officers';
       companies_to_scan := companies_to_scan st ++ new;
       network := record_appointments company_number profile depth officers (network st);
       trace := trace st ++ evs |}
    /\ scanned_officers st ⊆ officers'
    /\ Forall (fun it => it.2 = depth + 1 /\ depth < max_depth) new
    /\ Forall fan_out_event evs.
Proof.
  revert st. induction officers as [|o l IH]; intros st; simpl.
  - exists (world st), (scanned_officers st), [], [].
    rewrite !app_nil_r. by destruct st.
  - destruct (officer_step_shape company_number profile depth st o)
      as (w1 & O1 & new1 & evs1 & -> & Hsub & _ & Hnew1 & Hev1).
    destruct (IH {| world := w1; scanned_companies := scanned_companies st;
                    scanned_officers := O1;
                    companies_to_scan := companies_to_scan st ++ new1;
                    network := record_appointment company_number profile depth o (network st);
                    trace := trace st ++ evs1 |})
      as (w2 & O2 & new2 & evs2 & -> & Hsub2 & Hnew2 & Hev2).
    simpl in *. exists w2, O2, (new1 ++ new2), (evs1 ++ evs2).
    rewrite !app_assoc. repeat split; [set_solver| |].
    + by apply Forall_app.
    + by apply Forall_app.
Qed.

(** The three ways one turn of the [while] ends, the item already popped:
    the item is dropped by the guard; the company is fetched but not recorded
    (a fetch raised, or the company is filtered out); the company is recorded
    and its officers are processed. *)
Inductive turn_outcome (company_number : string) (depth : Z) (st : ScanState) :
    ScanState -> Prop :=
| turn_dropped :
    company_number ∈ scanned_companies st \/ max_depth < depth ->
    turn_outcome company_number depth st st
| turn_nothing w' evs :
    company_number ∉ scanned_companies st ->
    depth <= max_depth ->
    Forall (fun e => e = EvProfile company_number false \/
                     e = EvProfile company_number true \/
                     e = EvOfficers company_number false) evs ->
    turn_outcome company_number depth st
      {| world := w';
         scanned_companies := scanned_companies st;
         scanned_officers := scanned_officers st;
         companies_to_scan := companies_to_scan st;
         network := network st;
         trace := trace st ++ evs |}
| turn_expanded profile officers w' officers' new evs :
    company_number ∉ scanned_companies st ->
    depth <= max_depth ->
    scanned_officers st ⊆ officers' ->
    Forall (fun it => it.2 = depth + 1 /\ depth < max_depth) new ->
    Forall fan_out_event evs ->
    turn_outcome company_number depth st
      {| world := w';
         scanned_companies := {[company_number]} ∪ scanned_companies st;
         scanned_officers := officers';
         companies_to_scan := companies_to_scan st ++ new;
         network :=
           record_appointments company_number profile depth officers
             (store_node company_number profile depth officers (network st));
         trace :=
           trace st ++
           [EvProfile company_number true; EvOfficers company_number true;
            EvRecord company_number depth] ++ evs |}.

Lemma turn_shape company_number depth st :
  turn_outcome company_number depth st (turn company_number depth st).
Proof.
  unfold turn.
  destruct (bool_decide (company_number ∈ scanned_companies st)) eqn:Hin; simpl.
  { apply turn_dropped. left. by apply bool_decide_eq_true in Hin. }
  apply bool_decide_eq_false in Hin.
  destruct (depth >? max_depth) eqn:Hd.
  { apply turn_dropped. right. apply Z.gtb_lt in Hd. lia. }
  assert (depth <= max_depth) as Hle.
  { destruct (Z.gtb_spec depth max_depth); [done|lia]. }
  rewrite expand_run.
  destruct (get_company_profile _ _ _) as [[profile|e] w]; simpl.
  2:{ unfold_setters.
      apply (turn_nothing _ _ _ w [EvProfile company_number false]); auto. }
  destruct (active_only && negb (status_is_active profile)); simpl.
  { unfold_setters.
    apply (turn_nothing _ _ _ w [EvProfile company_number true]); auto. }
  destruct (get_officers _ _ _) as [[officers|e] w']; simpl.
  2:{ unfold_setters. rewrite <- app_assoc.
      apply (turn_nothing _ _ _ w' [EvProfile company_number true; EvOfficers company_number false]);
        auto 10. }
  destruct (officers_fold_shape company_number profile depth (officers_kept officers)
              (store_company company_number profile depth (officers_kept officers)
                 (log (EvOfficers company_number true)
                    (set_world w' (log (EvProfile company_number true) (set_world w st))))))
    as (w2 & O2 & new & evs & -> & Hsub & Hnew & Hev).
  unfold_setters. rewrite <- !app_assoc. simpl.
  by apply (turn_expanded _ _ _ profile (officers_kept officers) w2 O2 new evs).
Qed.

(** *** The [while] loop

    A turn either records a company not yet visited, which the loop condition
    allows fewer than [max_companies] times, or leaves the visited set as it
    is and shortens the work list by the popped item. *)

Definition scan_measure (st : ScanState) : nat * nat :=
  (Z.to_nat (max_companies - Z.of_nat (size (scanned_companies st))),
   length (companies_to_scan st)).

Lemma loop_body_decreases st r st' :
  loop_cond st = true ->
  loop_body st = (r, st') ->
  Subterm.lexprod _ _ lt lt (scan_measure st') (scan_measure st).
Proof.
  intros (c & d & rest & Hq & Hlt)%loop_cond_true Hb.
  rewrite (loop_body_run st c d rest Hq) in Hb. injection Hb as _ <-.
  unfold scan_measure at 2. rewrite Hq.
  destruct (turn_shape c d (set_companies_to_scan rest st)) as [_|? ? _ _ _|]; simpl.
  - apply Subterm.right_lex. simpl. lia.
  - apply Subterm.right_lex. simpl. lia.
  - apply Subterm.left_lex. unfold scan_measure; simpl in *.
    rewrite size_union, size_singleton by set_solver. lia.
Qed.

Definition inspect {A} (a : A) : {b | a = b} := exist _ a eq_refl.

Equations? scan_loop (st : ScanState) : result unit * ScanState
  by wf (scan_measure st) (Subterm.lexprod _ _ lt lt) :=
  scan_loop st with inspect (loop_cond st) := {
    | exist _ false _ => (Ok tt, st)
    | exist _ true Hc with inspect (loop_body st) := {
        | exist _ (Ok _, st') Hb => scan_loop st'
        | exist _ (Raise e, st') Hb => (Raise e, st') } }.
Proof. eapply loop_body_decreases; eauto. Qed.

(** Lines 40-52. *)
Definition initial_network (seed_companies : list string) : Network :=
  {| net_seed_companies := seed_companies;
     net_max_depth := max_depth;
     net_companies := [];
     net_directors := [];
     net_connections := [];
     net_statistics :=
       {| total_companies := 0; total_directors := 0;
          total_connections := 0; depth_reached := 0 |} |}.

(** Lines 218-221. *)
Definition update_statistics (net : Network) : Network :=
  {| net_seed_companies := net_seed_companies net;
     net_max_depth := net_max_depth net;
     net_companies := net_companies net;
     net_directors := net_directors net;
     net_connections := net_connections net;
     net_statistics :=
       {| total_companies := length (net_companies net);
          total_directors := length (net_directors net);
          total_connections := length (net_connections net);
          depth_reached := depth_reached (net_statistics net) |} |}.

(** The instance: the client (its world) and the two sets that outlive a
    call. *)
Record NetworkScanner := {
  self_world : W;
  self_scanned_companies : gset string;
  self_scanned_officers : gset string }.

(** Lines 54-59: the state at the first test of the loop condition. *)
Definition initial_state (self : NetworkScanner) (seed_companies : list string) : ScanState :=
  {| world := self_world self;
     scanned_companies := ∅;
     scanned_officers := ∅;
     companies_to_scan := map (fun cnum => (cnum, 0)) seed_companies;
     network := initial_network seed_companies;
     trace := [] |}.

Definition instance_of (st : ScanState) : NetworkScanner :=
  {| self_world := world st;
     self_scanned_companies := scanned_companies st;
     self_scanned_officers := scanned_officers st |}.

(** [scan_network]: the value returned or the exception raised, the
    instance afterwards, and the log of the call. *)
Definition scan_network (self : NetworkScanner) (seed_companies : list string)
    : result Network * NetworkScanner * list event :=
  match scan_loop (initial_state self seed_companies) with
  | (Ok _, st) => (Ok (update_statistics (network st)), instance_of st, trace st)
  | (Raise e, st) => (Raise e, instance_of st, trace st)
  end.

Lemma scan_loop_eq st :
  scan_loop st =
  if loop_cond st then
    match loop_body st with
    | (Ok _, st') => scan_loop st'
    | (Raise e, st') => (Raise e, st')
    end
  else (Ok tt, st).
Proof.
  funelim (scan_loop st).
  - by match goal with H : loop_cond _ = false |- _ => rewrite H end.
  - by rewrite Hc, Hb.
  - by rewrite Hc, Hb.
Qed.

(** The state after at most [n] turns. *)
Fixpoint scan_run (n : nat) (st : ScanState) : ScanState :=
  match n with
  | O => st
  | S n' => if loop_cond st then scan_run n' (loop_body st).2 else st
  end.

Lemma loop_body_turn st :
  loop_cond st = true ->
  exists company_number depth rest,
    companies_to_scan st = (company_number, depth) :: rest /\
    Z.of_nat (size (scanned_companies st)) < max_companies /\
    loop_body st = (Ok tt, turn company_number depth (set_companies_to_scan rest st)).
Proof.
  intros (c & d & rest & Hq & Hlt)%loop_cond_true.
  exists c, d, rest. by rewrite (loop_body_run st c d rest Hq).
Qed.

(** The loop ends, without raising, in a state some number of turns away. *)
Lemma scan_loop_run st :
  exists n,
    scan_loop st = (Ok tt, scan_run n st) /\ loop_cond (scan_run n st) = false.
Proof.
  funelim (scan_loop st).
  - exists O. simpl. split; [done|].
    by match goal with H : loop_cond _ = false |- _ => rewrite H end.
  - destruct H as (n & Hn & Hend). exists (S n). simpl.
    rewrite Hc, Hb. simpl. destruct a. by rewrite <- Hn.
  - destruct (loop_body_turn st Hc) as (c & d & rest & _ & _ & Hrun). congruence.
Qed.

(** A property kept by every turn holds when the loop ends. *)
Lemma scan_run_invariant (P : ScanState -> Prop) :
  (forall st, P st -> loop_cond st = true -> P (loop_body st).2) ->
  forall n st, P st -> P (scan_run n st).
Proof.
  intros Hstep n. induction n as [|n IH]; intros st HP; simpl; [done|].
  destruct (loop_cond st) eqn:Hc; [|done]. by apply IH, Hstep.
Qed.

Lemma scan_loop_invariant (P : ScanState -> Prop) st :
  (forall st, P st -> loop_cond st = true -> P (loop_body st).2) ->
  P st ->
  exists st', scan_loop st = (Ok tt, st') /\ P st' /\ loop_cond st' = false.
Proof.
  intros Hstep HP. destruct (scan_loop_run st) as (n & Hn & Hend).
  exists (scan_run n st). split; [done|]. split; [|done].
  by apply scan_run_invariant.
Qed.

Lemma scan_loop_at n st :
  loop_cond (scan_run n st) = false -> scan_loop st = (Ok tt, scan_run n st).
Proof.
  revert st. induction n as [|n IH]; intros st; simpl; intros Hend;
    rewrite scan_loop_eq.
  - by rewrite Hend.
  - destruct (loop_cond st) eqn:Hc; [|done].
    destruct (loop_body_turn st Hc) as (c & d & rest & _ & _ & Hrun).
    rewrite Hrun in *. simpl in *. by apply IH.
Qed.

Definition snapshot_after (st : ScanState) : result Network * NetworkScanner * list event :=
  (Ok (update_statistics (network st)), instance_of st, trace st).

Lemma scan_network_at n self seed_companies :
  loop_cond (scan_run n (initial_state self seed_companies)) = false ->
  scan_network self seed_companies =
  snapshot_after (scan_run n (initial_state self seed_companies)).
Proof. intros Hend. unfold scan_network. by rewrite (scan_loop_at n). Qed.

Lemma scan_network_run self seed_companies :
  exists n,
    scan_network self seed_companies =
    snapshot_after (scan_run n (initial_state self seed_companies)) /\
    loop_cond (scan_run n (initial_state self seed_companies)) = false.
Proof.
  destruct (scan_loop_run (initial_state self seed_companies)) as (n & Hn & Hend).
  exists n. split; [|done]. unfold scan_network. by rewrite Hn.
Qed.

(** *** What the officers of one company write into the network *)

Definition connection_of (company_number : string) (profile : Profile) (depth : Z)
    (officer : Officer) : Connection :=
  {| c_company_number := company_number;
     c_company_name := p_company_name profile;
     c_director_id := officer_id_of officer;
     c_director_name := default ""%string (o_name officer);
     c_role := default ""%string (o_officer_role officer);
     c_depth := depth |}.

Lemma record_appointments_companies company_number profile depth officers net :
  net_companies (record_appointments company_number profile depth officers net) =
  net_companies net.
Proof.
  unfold record_appointments. revert net.
  induction officers as [|o l IH]; intros net; simpl; [done|]. by rewrite IH.
Qed.

Lemma record_appointments_statistics company_number profile depth officers net :
  net_statistics (record_appointments company_number profile depth officers net) =
  net_statistics net.
Proof.
  unfold record_appointments. revert net.
  induction officers as [|o l IH]; intros net; simpl; [done|]. by rewrite IH.
Qed.

Lemma record_appointments_connections company_number profile depth officers net :
  net_connections (record_appointments company_number profile depth officers net) =
  net_connections net ++ map (connection_of company_number profile depth) officers.
Proof.
  unfold record_appointments. revert net.
  induction officers as [|o l IH]; intros net; simpl; [by rewrite app_nil_r|].
  rewrite IH. simpl. by rewrite <- app_assoc.
Qed.

(** *** What every turn keeps *)

Definition is_record (c : string) (e : event) : bool :=
  match e with
  | EvRecord c' _ => String.eqb c c'
  | _ => false
  end.

Definition is_officers_fetched (c : string) (e : event) : bool :=
  match e with
  | EvOfficers c' true => String.eqb c c'
  | _ => false
  end.

Definition is_profile_call (c : string) (e : event) : bool :=
  match e with
  | EvProfile c' _ => String.eqb c c'
  | _ => false
  end.

(** A call for the profile or the officers of [c]. *)
Definition is_fetch (c : string) (e : event) : bool :=
  match e with
  | EvProfile c' _ | EvOfficers c' _ => String.eqb c c'
  | _ => false
  end.

Definition count (f : event -> bool) (tr : list event) : nat :=
  length (List.filter f tr).

(** The log after the first record of [c], when there is one. *)
Fixpoint after_record (c : string) (tr : list event) : option (list event) :=
  match tr with
  | [] => None
  | e :: tr' => if is_record c e then Some tr' else after_record c tr'
  end.

Lemma after_record_app c l1 l2 :
  after_record c (l1 ++ l2) =
  match after_record c l1 with
  | Some tail => Some (tail ++ l2)
  | None => after_record c l2
  end.
Proof.
  induction l1 as [|e l1 IH]; simpl; [done|]. by destruct (is_record c e).
Qed.

Lemma after_record_none c l :
  Forall (fun e => is_record c e = false) l -> after_record c l = None.
Proof. induction 1 as [|e l He _ IH]; simpl; [done|]. by rewrite He. Qed.

Definition no_fetch_after_record (c : string) (visited : gset string)
    (tr : list event) : Prop :=
  match after_record c tr with
  | Some tail => c ∈ visited /\ Forall (fun e => is_fetch c e = false) tail
  | None => c ∉ visited
  end.

Lemma count_app f l1 l2 : count f (l1 ++ l2) = (count f l1 + count f l2)%nat.
Proof. unfold count. by rewrite List.filter_app, length_app. Qed.

Lemma count_cons f e l :
  count f (e :: l) = ((if f e then 1 else 0) + count f l)%nat.
Proof. unfold count. simpl. by destruct (f e). Qed.

Lemma count_none f l : Forall (fun e => f e = false) l -> count f l = O.
Proof.
  unfold count. induction 1 as [|e l He _ IH]; simpl; [done|]. by rewrite He.
Qed.

Definition connection_recorded (net : Network) (conn : Connection) : Prop :=
  exists node,
    dict_get (c_company_number conn) (net_companies net) = Some node /\
    cn_depth node = c_depth conn.

Record scan_inv (st : ScanState) : Prop := {
  inv_keys_nodup : NoDup (dict_keys (net_companies (network st)));
  inv_keys : forall c,
    c ∈ dict_keys (net_companies (network st)) <-> c ∈ scanned_companies st;
  inv_cap : Z.of_nat (size (scanned_companies st)) <= Z.max 0 max_companies;
  inv_connections :
    Forall (connection_recorded (network st)) (net_connections (network st));
  inv_records : forall c,
    count (is_record c) (trace st) =
    if bool_decide (c ∈ scanned_companies st) then 1%nat else O;
  inv_fetches : forall c,
    count (is_officers_fetched c) (trace st) = count (is_record c) (trace st);
  inv_after : forall c,
    no_fetch_after_record c (scanned_companies st) (trace st) }.

Lemma scan_inv_initial self seed_companies :
  scan_inv (initial_state self seed_companies).
Proof.
  split; simpl.
  - constructor.
  - intros c. set_solver.
  - change (Z.of_nat (size (∅ : gset string)) <= Z.max 0 max_companies).
    rewrite size_empty. lia.
  - constructor.
  - intros c. by rewrite bool_decide_eq_false_2 by set_solver.
  - done.
  - intros c. unfold no_fetch_after_record. simpl. set_solver.
Qed.

Lemma scan_inv_pop st rest :
  scan_inv st -> scan_inv (set_companies_to_scan rest st).
Proof. by intros []. Qed.

Lemma scan_inv_turn company_number depth st :
  scan_inv st ->
  Z.of_nat (size (scanned_companies st)) < max_companies ->
  scan_inv (turn company_number depth st).
Proof.
  intros [Hnd Hkeys Hcap Hconn Hrec Hfetch Hafter] Hlt.
  destruct (turn_shape company_number depth st)
    as [_ | w' evs Hnin Hle Hev | profile officers w' O' new evs Hnin Hle HO Hnew Hev].
  - by split.
  - assert (forall c, count (is_record c) evs = O) as Hr0.
    { intros c. apply count_none. eapply Forall_impl; [apply Hev|].
      by intros e [->|[->| ->]]. }
    assert (forall c, count (is_officers_fetched c) evs = O) as Hf0.
    { intros c. apply count_none. eapply Forall_impl; [apply Hev|].
      by intros e [->|[->| ->]]. }
    split; simpl; try done.
    + intros c. by rewrite count_app, Hr0, Nat.add_0_r.
    + intros c. by rewrite !count_app, Hr0, Hf0, Hfetch.
    + intros c. specialize (Hafter c). unfold no_fetch_after_record in *.
      rewrite after_record_app.
      destruct (after_record c (trace st)) as [tail|].
      * destruct Hafter as [Hin Htail]. split; [done|].
        apply Forall_app. split; [done|].
        eapply Forall_impl; [apply Hev|].
        assert (String.eqb c company_number = false) as Hne
          by (apply String.eqb_neq; congruence).
        by intros e [->|[->| ->]].
      * rewrite after_record_none; [done|].
        eapply Forall_impl; [apply Hev|]. by intros e [->|[->| ->]].
  - assert (company_number ∉ dict_keys (net_companies (network st))) as Hfresh
      by (by rewrite Hkeys).
    assert (forall c, count (is_record c) evs = O) as Hr0.
    { intros c. apply count_none. eapply Forall_impl; [apply Hev|].
      by intros []. }
    assert (forall c, count (is_officers_fetched c) evs = O) as Hf0.
    { intros c. apply count_none. eapply Forall_impl; [apply Hev|].
      by intros []. }
    split; simpl.
    + rewrite record_appointments_companies. simpl.
      rewrite dict_keys_set_fresh by done.
      apply NoDup_app. split; [done|]. split; [|apply NoDup_singleton].
      intros x Hx ->%list_elem_of_singleton. done.
    + intros c. rewrite record_appointments_companies. simpl.
      rewrite dict_keys_set_fresh by done.
      rewrite elem_of_app, list_elem_of_singleton, Hkeys. set_solver.
    + rewrite size_union, size_singleton by set_solver. lia.
    + rewrite record_appointments_connections. simpl.
      apply Forall_app. split.
      * eapply Forall_impl; [apply Hconn|].
        intros conn (node & Hget & Hd). exists node. split; [|done].
        rewrite record_appointments_companies. simpl.
        rewrite dict_get_set_ne; [done|].
        intros Heq. apply dict_get_None in Hfresh. congruence.
      * apply Forall_map, Forall_forall. intros o _.
        eexists. rewrite record_appointments_companies. simpl.
        split; [apply dict_get_set_eq|done].
    + intros c. rewrite count_app, !count_cons, Hr0, Hrec. simpl.
      destruct (String.eqb_spec c company_number) as [->|Hne]; simpl.
      * rewrite bool_decide_eq_false_2 by done.
        by rewrite bool_decide_eq_true_2 by set_solver.
      * destruct (bool_decide (c ∈ scanned_companies st)) eqn:E.
        -- apply bool_decide_eq_true in E.
           rewrite bool_decide_eq_true_2 by set_solver. lia.
        -- apply bool_decide_eq_false in E.
           rewrite bool_decide_eq_false_2 by set_solver. lia.
    + intros c. rewrite !count_app, !count_cons, Hr0, Hf0, Hfetch. simpl. lia.
    + intros c. specialize (Hafter c). unfold no_fetch_after_record in *.
      assert (Forall (fun e => is_fetch c e = false) evs) as Hfan.
      { eapply Forall_impl; [apply Hev|]. by intros []. }
      rewrite after_record_app.
      destruct (after_record c (trace st)) as [tail|].
      * destruct Hafter as [Hin Htail]. split; [set_solver|].
        assert (String.eqb c company_number = false) as Hne
          by (apply String.eqb_neq; congruence).
        apply Forall_app. split; [done|].
        repeat (constructor; [by simpl|]). done.
      * simpl. destruct (String.eqb_spec c company_number) as [->|Hne].
        -- split; [set_solver|done].
        -- rewrite after_record_none; [set_solver|].
           eapply Forall_impl; [apply Hev|]. by intros [].
Qed.

Lemma scan_inv_body st :
  scan_inv st -> loop_cond st = true -> scan_inv (loop_body st).2.
Proof.
  intros Hinv Hc.
  destruct (loop_body_turn st Hc) as (c & d & rest & _ & Hlt & ->). simpl.
  apply scan_inv_turn; [by apply scan_inv_pop | done].
Qed.

Lemma scan_inv_run n self seed_companies :
  scan_inv (scan_run n (initial_state self seed_companies)).
Proof. apply scan_run_invariant; [apply scan_inv_body | apply scan_inv_initial]. Qed.


(** [returned out P]: the call returned a network (it did not raise), and
    [P] holds of the network, of the instance afterwards and of the log. *)
Definition returned (out : result Network * NetworkScanner * list event)
    (P : Network -> NetworkScanner -> list event -> Prop) : Prop :=
  match out with
  | (Ok net, self', tr) => P net self' tr
  | (Raise _, _, _) => False
  end.

Lemma scan_network_returned self seed_companies
    (P : Network -> NetworkScanner -> list event -> Prop) :
  (forall n,
     let st := scan_run n (initial_state self seed_companies) in
     loop_cond st = false -> P (update_statistics (network st)) (instance_of st) (trace st)) ->
  returned (scan_network self seed_companies) P.
Proof.
  intros HP. destruct (scan_network_run self seed_companies) as (n & -> & Hend).
  simpl. by apply HP.
Qed.

(** A company a turn can record: it passes the guard of the loop, its profile
    and officers are fetched, and the company passes the [active_only]
    filter. *)
Definition eligible (company_number : string) (w : W) : Prop :=
  exists profile w1 officers w2,
    get_company_profile api_client company_number w = (Ok profile, w1) /\
    (active_only = true -> status_is_active profile = true) /\
    get_officers api_client company_number w1 = (Ok officers, w2).


(** *** Properties of every scan *)

(** C3. During one [scan_network] call a company is expanded at most once,
    however often it is enqueued: its node is recorded at most once, its
    officers are fetched successfully exactly as often as it is recorded, and
    once it is recorded (and so in the visited set) neither its profile nor
    its officers are fetched again. *)
Theorem company_expanded_at_most_once self seed_companies company_number :
  returned (scan_network self seed_companies) (fun _ _ tr =>
    (count (is_record company_number) tr <= 1)%nat /\
    count (is_officers_fetched company_number) tr = count (is_record company_number) tr /\
    forall tail,
      after_record company_number tr = Some tail ->
      Forall (fun e => is_fetch company_number e = false) tail).
Proof.
  apply scan_network_returned. intros n st _. subst st.
  destruct (scan_inv_run n self seed_companies) as [_ _ _ _ Hrec Hfetch Hafter].
  split; [|split].
  - rewrite Hrec. destruct (bool_decide _); lia.
  - apply Hfetch.
  - intros tail Htail. specialize (Hafter company_number).
    unfold no_fetch_after_record in Hafter. rewrite Htail in Hafter. tauto.
Qed.

(** C9. In the snapshot [scan_network] returns, every connection names a
    company that is a key of the companies map, and carries the depth stored
    for that company. *)
Theorem connections_match_companies self seed_companies :
  returned (scan_network self seed_companies) (fun net _ _ =>
    Forall (connection_recorded net) (net_connections net)).
Proof.
  apply scan_network_returned. intros n st _. subst st.
  destruct (scan_inv_run n self seed_companies) as [_ _ _ Hconn _ _ _].
  done.
Qed.

(** C10. The result of [scan_network] does not depend on the visited sets
    an earlier call left on the instance: two instances with the same client
    give the same result, and a second call on the instance the first call
    left behind, against a client answering as before, returns what the
    first returned. *)
Theorem scan_network_resets_visited_sets w seed_companies :
  (forall companies1 officers1 companies2 officers2,
     scan_network
       {| self_world := w; self_scanned_companies := companies1;
          self_scanned_officers := officers1 |} seed_companies =
     scan_network
       {| self_world := w; self_scanned_companies := companies2;
          self_scanned_officers := officers2 |} seed_companies) /\
  (forall companies0 officers0,
     let first :=
       scan_network
         {| self_world := w; self_scanned_companies := companies0;
            self_scanned_officers := officers0 |} seed_companies in
     scan_network
       {| self_world := w;
          self_scanned_companies := self_scanned_companies first.1.2;
          self_scanned_officers := self_scanned_officers first.1.2 |} seed_companies =
     first).
Proof. split; intros; reflexivity. Qed.


Lemma scan_inv_length st :
  scan_inv st ->
  length (net_companies (network st)) = size (scanned_companies st).
Proof.
  intros [Hnd Hkeys _ _ _ _ _].
  assert (scanned_companies st = list_to_set (dict_keys (net_companies (network st))))
    as -> by (apply set_eq; intros c; rewrite elem_of_list_to_set; by rewrite Hkeys).
  rewrite size_list_to_set by done. unfold dict_keys. by rewrite length_map.
Qed.

(** The turn that records an eligible company. *)
Lemma turn_eligible company_number depth st :
  company_number ∉ scanned_companies st ->
  depth <= max_depth ->
  eligible company_number (world st) ->
  exists profile officers w' officers' new evs,
    turn company_number depth st =
    {| world := w';
       scanned_companies := {[company_number]} ∪ scanned_companies st;
       scanned_officers := officers';
       companies_to_scan := companies_to_scan st ++ new;
       network :=
         record_appointments company_number profile depth officers
           (store_node company_number profile depth officers (network st));
       trace :=
         trace st ++
         [EvProfile company_number true; EvOfficers company_number true;
          EvRecord company_number depth] ++ evs |} /\
    Forall fan_out_event evs.
Proof.
  intros Hnin Hle (profile & w1 & officers & w2 & Hp & Hact & Ho).
  unfold turn. rewrite bool_decide_eq_false_2 by done.
  assert ((depth >? max_depth) = false) as ->
    by (rewrite Z.gtb_ltb; apply Z.ltb_ge; lia).
  simpl. rewrite expand_run, Hp.
  assert (active_only && negb (status_is_active profile) = false) as ->.
  { destruct active_only; [|done]. by rewrite Hact. }
  simpl. rewrite Ho. simpl.
  destruct (officers_fold_shape company_number profile depth (officers_kept officers)
              (store_company company_number profile depth (officers_kept officers)
                 (log (EvOfficers company_number true)
                    (set_world w2 (log (EvProfile company_number true) (set_world w1 st))))))
    as (w' & O' & new & evs & -> & _ & _ & Hev).
  exists profile, (officers_kept officers), w', O', new, evs.
  unfold_setters. by rewrite <- !app_assoc.
Qed.

(** C4, as the code has it. At every turn of the loop and in the returned
    snapshot, the companies map has at most [max 0 max_companies] entries;
    with [max_companies = 1] and two seeds, the first of them eligible, the
    snapshot holds the first seed only, and neither the profile nor the
    officers of the second seed are fetched. *)
Theorem companies_capped self seed_companies :
  (forall n,
     Z.of_nat (length (net_companies (network (scan_run n (initial_state self seed_companies)))))
     <= Z.max 0 max_companies) /\
  returned (scan_network self seed_companies) (fun net _ _ =>
    Z.of_nat (length (net_companies net)) <= Z.max 0 max_companies) /\
  (forall a b,
     seed_companies = [a; b] ->
     max_companies = 1 ->
     0 <= max_depth ->
     eligible a (self_world self) ->
     returned (scan_network self seed_companies) (fun net _ tr =>
       dict_keys (net_companies net) = [a] /\
       (a <> b -> count (is_fetch b) tr = O))).
Proof.
  assert (forall n,
     Z.of_nat (length (net_companies (network (scan_run n (initial_state self seed_companies)))))
     <= Z.max 0 max_companies) as Hcap.
  { intros n. pose proof (scan_inv_run n self seed_companies) as Hinv.
    rewrite (scan_inv_length _ Hinv). by destruct Hinv. }
  split; [done|]. split.
  - apply scan_network_returned. intros n st _. apply Hcap.
  - intros a b -> Hmax Hdepth Hel.
    set (st0 := initial_state self [a; b]).
    destruct (turn_eligible a 0 (set_companies_to_scan [(b, 0)] st0))
      as (p & os & w' & O' & new & evs & Hturn & Hev); [set_solver|done|done|].
    assert (loop_cond st0 = true) as Hc0.
    { unfold loop_cond. simpl. apply Z.ltb_lt.
      change (Z.of_nat (size (∅ : gset string)) < max_companies).
      rewrite size_empty. lia. }
    assert (scan_run 1 st0 = turn a 0 (set_companies_to_scan [(b, 0)] st0)) as Hrun.
    { simpl. rewrite Hc0. by rewrite (loop_body_run st0 a 0 [(b, 0)]). }
    rewrite (scan_network_at 1); fold st0; rewrite Hrun, Hturn.
    2:{ unfold loop_cond. simpl. apply Z.ltb_ge.
        change (max_companies <= Z.of_nat (size ({[a]} ∪ (∅ : gset string)))).
        rewrite size_union, size_singleton, size_empty by set_solver. lia. }
    simpl. split.
    + by rewrite record_appointments_companies.
    + intros Hne. rewrite !count_cons. simpl.
      assert (String.eqb b a = false) as -> by (apply String.eqb_neq; congruence).
      simpl. apply count_none. eapply Forall_impl; [apply Hev|]. by intros [].
Qed.

Lemma find_first {A} (f : A -> bool) (l : list A) i m :
  l !! i = Some m ->
  f m = true ->
  (forall j m', (j < i)%nat -> l !! j = Some m' -> f m' = false) ->
  List.find f l = Some m.
Proof.
  revert i. induction l as [|x l IH]; intros i Hi Hm Hbefore; [done|].
  destruct i as [|i]; simpl in *.
  - injection Hi as ->. by rewrite Hm.
  - rewrite (Hbefore O x) by (done || lia).
    apply (IH i); [done|done|]. intros j m' Hj Hl.
    apply (Hbefore (S j) m'); [lia|done].
Qed.

Lemma find_nowhere {A} (f : A -> bool) (l : list A) :
  (forall i m, l !! i = Some m -> f m = false) -> List.find f l = None.
Proof.
  induction l as [|x l IH]; intros Hall; [done|]. simpl.
  rewrite (Hall O x) by done. apply IH. intros i m. apply (Hall (S i) m).
Qed.

(** C6, as the code has it. From a non-empty result list the scanner takes
    the first of the top five results whose title equals the officer's name,
    letter case apart ([exact_match], whatever the case mapping is), when
    that result is not an empty object; it takes the
    first result when none of the top five has that title (or when the one
    that has it is an empty object). The appointments the scanner then
    fetches are those of the result it took. *)
Theorem best_match_is_first_exact_of_top_five officer_name officer_results :
  (forall i m,
     officer_results !! i = Some m ->
     (i < 5)%nat ->
     exact_match officer_name m = true ->
     (forall j m', (j < i)%nat -> officer_results !! j = Some m' ->
                   exact_match officer_name m' = false) ->
     select_best_match officer_name officer_results =
     if match_truthy m then Some m else head officer_results) /\
  ((forall i m, (i < 5)%nat -> officer_results !! i = Some m ->
                exact_match officer_name m = false) ->
   select_best_match officer_name officer_results = head officer_results) /\
  (forall officer_id depth st w best_match officer_api_id,
     is_corporate_officer officer_name = false ->
     search_officers api_client officer_name (world st) = (Ok officer_results, w) ->
     select_best_match officer_name officer_results = Some best_match ->
     match_truthy best_match = true ->
     default ""%string (m_links best_match ≫= l_self) <> ""%string ->
     index_from_end
       (PyStr.split "/" (default ""%string (m_links best_match ≫= l_self))) 2 =
     Ok officer_api_id ->
     exists ok,
       trace (fan_out officer_name officer_id depth st).2 =
       trace st ++ [EvSearch officer_id officer_name true;
                    EvAppointments officer_api_id ok]).
Proof.
  split; [|split].
  - intros i m Hi Hlt Hm Hbefore. unfold select_best_match.
    rewrite (find_first (exact_match officer_name) (take 5 officer_results) i m).
    + done.
    + by rewrite lookup_take_lt.
    + done.
    + intros j m' Hj Hl. apply (Hbefore j m' Hj).
      rewrite lookup_take_lt in Hl by lia. done.
  - intros Hnone. unfold select_best_match.
    rewrite find_nowhere; [done|]. intros i m Hl.
    destruct (decide (i < 5)%nat) as [Hlt|Hge].
    + rewrite lookup_take_lt in Hl by done. by apply (Hnone i m).
    + rewrite lookup_take_ge in Hl by lia. done.
  - intros officer_id depth st w bm aid Hcorp Hsearch Hsel Htruthy Hlink Hidx.
    rewrite fan_out_run, Hcorp, Hsearch.
    assert (plan_of officer_name officer_results = Lookup aid) as ->.
    { unfold plan_of. destruct officer_results as [|r rs]; [done|].
      rewrite Hsel, Htruthy. simpl.
      apply String.eqb_neq in Hlink. rewrite Hlink. simpl. by rewrite Hidx. }
    simpl. destruct (get_officer_appointments api_client aid w) as [[appts|e] w']; simpl.
    + exists true. rewrite enqueue_appointments_eq. simpl. by rewrite <- app_assoc.
    + exists false. by rewrite <- app_assoc.
Qed.

(** The officers a fan-out leaves unvisited: after an officer eligible for
    fan-out is processed, its key is in the visited-officer set unless the
    search raised or the link of the best match has fewer than two path
    segments. *)
Lemma officer_visited_unless_search_fails company_number profile depth officer st :
  depth < max_depth ->
  officer_id_of officer ∉ scanned_officers st ->
  officer_id_of officer ∈
    scanned_officers (officer_step company_number profile depth st officer) \/
  (is_corporate_officer (default ""%string (o_name officer)) = false /\
   ((exists e w,
       search_officers api_client (default ""%string (o_name officer)) (world st) =
       (Raise e, w)) \/
    (exists officer_results w,
       search_officers api_client (default ""%string (o_name officer)) (world st) =
       (Ok officer_results, w) /\
       plan_of (default ""%string (o_name officer)) officer_results = BadLink))).
Proof.
  intros Hd Hnin. unfold officer_step.
  apply Z.ltb_lt in Hd. rewrite Hd, bool_decide_eq_false_2 by done. simpl.
  rewrite fan_out_run.
  destruct (is_corporate_officer _); simpl; [left; set_solver|].
  destruct (search_officers _ _ _) as [[results|e] w] eqn:Hsearch; simpl.
  2:{ right. split; [done|]. left. by exists e, w. }
  destruct (plan_of _ results) as [| |aid] eqn:Hplan; simpl.
  - left. set_solver.
  - right. split; [done|]. right. by exists results, w.
  - destruct (get_officer_appointments _ _ _) as [[appts|e] w']; simpl.
    + rewrite enqueue_appointments_eq. simpl. left. set_solver.
    + left. set_solver.
Qed.

End Scan.

Arguments returned {W} out P.

Ltac unfold_setters :=
  unfold add_scanned_officer, store_company, after_appointments, after_search, log,
    set_world, set_network, set_scanned_officers, set_scanned_companies,
    set_companies_to_scan in *; simpl in *.

(** ** A registry with fixed answers

    The answers of a registry that does not change during a crawl, and the
    client that serves them. *)

Record Registry := {
  profile_of : string -> result Profile;
  officers_of : string -> result (list Officer);
  search_of : string -> result (list OfficerMatch);
  appointments_of : string -> result (list OfficerAppointment) }.

Definition client_of (reg : Registry) : Facade unit :=
  {| get_company_profile c w := (profile_of reg c, w);
     get_officers c w := (officers_of reg c, w);
     search_officers name w := (search_of reg name, w);
     get_officer_appointments officer_api_id w := (appointments_of reg officer_api_id, w) |}.

Definition new_scanner {W} (w : W) : NetworkScanner :=
  {| self_world := w; self_scanned_companies := ∅; self_scanned_officers := ∅ |}.

(** *** Sample data *)

Module Sample.

Definition active_company (company_name : string) : Profile :=
  {| p_company_name := Some company_name; p_company_status := Some "active"%string;
     p_type := Some "ltd"%string; p_date_of_creation := Some "2001-02-03"%string |}.

Definition director (officer_name appointed : string) : Officer :=
  {| o_name := Some officer_name; o_officer_role := Some "director"%string;
     o_appointed_on := Some appointed; o_resigned_on := None;
     o_date_of_birth := None |}.

Definition search_item (title officer_api_id : string) : OfficerMatch :=
  {| m_title := Some title;
     m_links := Some {| l_self := Some ("/officers/" +:+ officer_api_id +:+ "/appointments") |};
     m_other_keys := true |}.

Definition active_appointment (company_number : string) : OfficerAppointment :=
  {| oa_appointed_to :=
       Some {| a_company_number := Some company_number;
               a_company_status := Some "active"%string |};
     oa_resigned_on := None |}.

Definition not_found {A} : result A := Raise (Exception "404 Client Error: Not Found").

(** Three companies: ALICE and ADAM sit on the board of AA000001; ALICE also
    sits on BB000002 and ADAM on CC000003, whose director CAROL sits on
    BB000002 too. *)
Definition three_companies : Registry :=
  {| profile_of c :=
       if String.eqb c "AA000001" then Ok (active_company "ALPHA")
       else if String.eqb c "BB000002" then Ok (active_company "BETA")
       else if String.eqb c "CC000003" then Ok (active_company "GAMMA")
       else not_found;
     officers_of c :=
       if String.eqb c "AA000001"
       then Ok [director "ALICE ARCHER" "2010-01-01"; director "ADAM BAKER" "2011-01-01"]
       else if String.eqb c "BB000002" then Ok [director "ALICE ARCHER" "2010-01-01"]
       else if String.eqb c "CC000003"
       then Ok [director "ADAM BAKER" "2013-01-01"; director "CAROL DOYLE" "2014-01-01"]
       else not_found;
     search_of officer_name :=
       if String.eqb officer_name "ALICE ARCHER" then Ok [search_item "Alice ARCHER" "alice"]
       else if String.eqb officer_name "ADAM BAKER" then Ok [search_item "Adam BAKER" "adam"]
       else if String.eqb officer_name "CAROL DOYLE" then Ok [search_item "Carol DOYLE" "carol"]
       else Ok [];
     appointments_of officer_api_id :=
       if String.eqb officer_api_id "alice"
       then Ok [active_appointment "AA000001"; active_appointment "BB000002"]
       else if String.eqb officer_api_id "adam"
       then Ok [active_appointment "AA000001"; active_appointment "CC000003"]
       else if String.eqb officer_api_id "carol"
       then Ok [active_appointment "CC000003"; active_appointment "BB000002"]
       else not_found |}.

(** The client of [three_companies] with one transient failure: the first
    request for the profile of BB000002 raises. The world counts the
    requests for that profile. *)
Definition flaky_client : Facade nat :=
  {| get_company_profile c n :=
       if String.eqb c "BB000002" then
         match n with
         | O => (Raise (Exception "503 Server Error"), S n)
         | S _ => (profile_of three_companies c, S n)
         end
       else (profile_of three_companies c, n);
     get_officers c n := (officers_of three_companies c, n);
     search_officers officer_name n := (search_of three_companies officer_name, n);
     get_officer_appointments officer_api_id n :=
       (appointments_of three_companies officer_api_id, n) |}.

(** The client of [three_companies] when every officer search raises. *)
Definition search_down_client : Facade unit :=
  {| get_company_profile c w := (profile_of three_companies c, w);
     get_officers c w := (officers_of three_companies c, w);
     search_officers officer_name w := (Raise (Exception "502 Bad Gateway"), w);
     get_officer_appointments officer_api_id w :=
       (appointments_of three_companies officer_api_id, w) |}.

(** A registry in which two officers of AA000001 share one identity key:
    "PAT_X" appointed on "1" and "PAT" appointed on "X_1". The search for
    PAT leads to BB000002; so does, one hop later, KIM of CC000003. *)
Definition colliding_keys : Registry :=
  {| profile_of c :=
       if String.eqb c "AA000001" then Ok (active_company "ALPHA")
       else if String.eqb c "BB000002" then Ok (active_company "BETA")
       else if String.eqb c "CC000003" then Ok (active_company "GAMMA")
       else not_found;
     officers_of c :=
       if String.eqb c "AA000001"
       then Ok [director "PAT_X" "1"; director "PAT" "X_1"; director "SAM" "2000-01-01"]
       else if String.eqb c "BB000002" then Ok []
       else if String.eqb c "CC000003" then Ok [director "KIM" "2001-01-01"]
       else not_found;
     search_of officer_name :=
       if String.eqb officer_name "PAT" then Ok [search_item "Pat" "pat"]
       else if String.eqb officer_name "SAM" then Ok [search_item "Sam" "sam"]
       else if String.eqb officer_name "KIM" then Ok [search_item "Kim" "kim"]
       else Ok [];
     appointments_of officer_api_id :=
       if String.eqb officer_api_id "pat" then Ok [active_appointment "BB000002"]
       else if String.eqb officer_api_id "sam" then Ok [active_appointment "CC000003"]
       else if String.eqb officer_api_id "kim" then Ok [active_appointment "BB000002"]
       else not_found |}.

(** Six results for JOHN SMITH, the one with his name in the last place. *)
Definition six_results : list OfficerMatch :=
  [search_item "Joan SMITH" "joan"; search_item "John SMYTH" "smyth";
   search_item "Jon SMITH" "jon"; search_item "John SMITHSON" "smithson";
   search_item "Johnny SMITH" "johnny"; search_item "John SMITH" "john"].

End Sample.

(** *** Officer hops

    In a registry with fixed answers, a hop leads from a company the scanner
    can record, through one of the officers it records there, to a company
    in the appointments of that officer's best match that passes the
    [active_only] filter. *)

Section Hops.
Context {U : StrUpper}.
Variables (reg : Registry) (active_only : bool).

(** The company can be recorded: both fetches return and the company passes
    the filter. *)
Definition expandable (company_number : string) : Prop :=
  exists profile officers,
    profile_of reg company_number = Ok profile /\
    (active_only = true -> status_is_active profile = true) /\
    officers_of reg company_number = Ok officers.

(** The officers recorded for the company. *)
Definition officers_at (company_number : string) : list Officer :=
  match profile_of reg company_number, officers_of reg company_number with
  | Ok profile, Ok officers =>
      if active_only && negb (status_is_active profile) then []
      else officers_kept active_only officers
  | _, _ => []
  end.

(** The companies the search for an officer name leads to. *)
Definition officer_targets (officer_name : string) : list string :=
  if is_corporate_officer officer_name then []
  else
    match search_of reg officer_name with
    | Ok officer_results =>
        match plan_of officer_name officer_results with
        | Lookup officer_api_id =>
            match appointments_of reg officer_api_id with
            | Ok appointments => omap (appointment_target active_only) appointments
            | Raise _ => []
            end
        | _ => []
        end
    | Raise _ => []
    end.

Definition hop (a b : string) : Prop :=
  exists officer,
    officer ∈ officers_at a /\
    b ∈ officer_targets (default ""%string (o_name officer)).

(** [hops seeds n c]: [c] is [n] hops away from a seed. *)
Inductive hops (seed_companies : list string) : nat -> string -> Prop :=
| hops_seed s : s ∈ seed_companies -> hops seed_companies O s
| hops_step n a b :
    hops seed_companies n a -> hop a b -> hops seed_companies (S n) b.

(** [d] is the least number of hops from a seed to [c]. *)
Definition min_hops (seed_companies : list string) (c : string) (d : Z) : Prop :=
  exists n : nat,
    d = Z.of_nat n /\ hops seed_companies n c /\
    forall m, hops seed_companies m c -> (n <= m)%nat.

End Hops.


(** ** Exceptions outside [Exception], and the console

    [except Exception] catches the exceptions derived from [Exception];
    [KeyboardInterrupt], [SystemExit] and [GeneratorExit] derive from
    [BaseException] only and pass through it. [scan_network] also writes
    progress lines with [print], at line 68 before the [try] of the turn and
    inside its three handlers, and a write can fail. This section embeds
    lines 61-216 once more with both: the calls of the client and the
    writes to the console return, raise an exception derived from
    [Exception], or raise another one. The scanner of the sections above is
    this one for a client that raises exceptions derived from [Exception]
    only, on a console that accepts every line ([scan_network_plain]). *)

Inductive base_exception :=
| KeyboardInterrupt
| SystemExit
| GeneratorExit.

Inductive raised :=
| OfException (e : exn)
| OfBaseException (b : base_exception).

Inductive outcome (A : Type) :=
| Returns (a : A)
| Raises (r : raised).
Arguments Returns {A} a.
Arguments Raises {A} r.

(** The lines [scan_network] prints: line 68, and the messages of the
    handlers at lines 206, 213 and 216. *)
Inductive line :=
| ScanningCompany (company_number : string) (depth : Z)
| ErrorGettingAppointments (officer_name : string) (appt_error : exn)
| ErrorSearching (officer_name : string) (e : exn)
| ErrorScanning (company_number : string) (e : exn).

(** [str(e)] *)
Definition str_of (e : exn) : string :=
  match e with
  | Exception msg => msg
  | IndexError => "list index out of range"
  end.

Module AnyException.

Record Client (W : Type) := {
  get_company_profile : string -> W -> outcome Profile * W;
  get_officers : string -> W -> outcome (list Officer) * W;
  search_officers : string -> W -> outcome (list OfficerMatch) * W;
  get_officer_appointments : string -> W -> outcome (list OfficerAppointment) * W;
  stdout_write : line -> W -> outcome unit * W }.
Arguments get_company_profile {W} _ _ _.
Arguments get_officers {W} _ _ _.
Arguments search_officers {W} _ _ _.
Arguments get_officer_appointments {W} _ _ _.
Arguments stdout_write {W} _ _ _.

Section Scan.
Context {W : Type} {U : StrUpper}.
Variable api_client : Client W.
Variables (max_depth max_companies : Z) (active_only : bool).

Definition M (A : Type) : Type := @ScanState W -> outcome A * @ScanState W.

Definition ret {A} (a : A) : M A := fun st => (Returns a, st).

Definition bind {A B} (m : M A) (k : A -> M B) : M B :=
  fun st =>
    match m st with
    | (Returns a, st') => k a st'
    | (Raises r, st') => (Raises r, st')
    end.

(** [try: m except Exception as e: h e] *)
Definition try_except {A} (m : M A) (h : exn -> M A) : M A :=
  fun st =>
    match m st with
    | (Returns a, st') => (Returns a, st')
    | (Raises (OfException e), st') => h e st'
    | (Raises (OfBaseException b), st') => (Raises (OfBaseException b), st')
    end.

Definition get : M ScanState := fun st => (Returns st, st).

Definition modify (f : ScanState -> ScanState) : M unit := fun st => (Returns tt, f st).

Definition lift {A} (r : result A) : M A :=
  fun st =>
    match r with
    | Ok a => (Returns a, st)
    | Raise e => (Raises (OfException e), st)
    end.

Notation "x <~ m ; k" := (bind m (fun x => k))
  (at level 20, m at level 100, k at level 200, only parsing).
Notation "m ;> k" := (bind m (fun _ => k))
  (at level 100, k at level 200, right associativity, only parsing).

(** [for x in l: body x] *)
Fixpoint for_each {A} (l : list A) (body : A -> M unit) : M unit :=
  match l with
  | [] => ret tt
  | x :: l' => body x ;> for_each l' body
  end.

(** [print(l)] *)
Definition print (l : line) : M unit :=
  fun st =>
    match stdout_write api_client l (world st) with
    | (r, w) => (r, set_world w st)
    end.

Definition call_profile (company_number : string) : M Profile :=
  fun st =>
    match get_company_profile api_client company_number (world st) with
    | (Returns p, w) => (Returns p, log (EvProfile company_number true) (set_world w st))
    | (Raises r, w) => (Raises r, log (EvProfile company_number false) (set_world w st))
    end.

Definition call_officers (company_number : string) : M (list Officer) :=
  fun st =>
    match get_officers api_client company_number (world st) with
    | (Returns l, w) => (Returns l, log (EvOfficers company_number true) (set_world w st))
    | (Raises r, w) => (Raises r, log (EvOfficers company_number false) (set_world w st))
    end.

Definition call_search (officer_id officer_name : string) : M (list OfficerMatch) :=
  fun st =>
    match search_officers api_client officer_name (world st) with
    | (Returns l, w) =>
        (Returns l, log (EvSearch officer_id officer_name true) (set_world w st))
    | (Raises r, w) =>
        (Raises r, log (EvSearch officer_id officer_name false) (set_world w st))
    end.

Definition call_appointments (officer_api_id : string) : M (list OfficerAppointment) :=
  fun st =>
    match get_officer_appointments api_client officer_api_id (world st) with
    | (Returns l, w) =>
        (Returns l, log (EvAppointments officer_api_id true) (set_world w st))
    | (Raises r, w) =>
        (Raises r, log (EvAppointments officer_api_id false) (set_world w st))
    end.

(** [if '404' not in str(e): print(l)] *)
Definition print_unless_404 (e : exn) (l : line) : M unit :=
  if negb (PyStr.contains "404" (str_of e)) then print l else ret tt.

(** Lines 150-208: the body of the [try] around the officer search, with
    the handler of the inner [try] at lines 203-206. *)
Definition fan_out (officer_name officer_id : string) (depth : Z) : M unit :=
  if is_corporate_officer officer_name then
    modify (add_scanned_officer officer_id)
  else
    officer_results <~ call_search officer_id officer_name;
    match officer_results with
    | [] => ret tt
    | _ :: _ =>
        match select_best_match officer_name officer_results with
        | Some best_match =>
            if match_truthy best_match then
              let match_id := default ""%string (m_links best_match ≫= l_self) in
              if negb (String.eqb match_id "") then
                officer_api_id <~ lift (index_from_end (PyStr.split "/" match_id) 2);
                try_except
                  (appointments <~ call_appointments officer_api_id;
                   modify (fun st =>
                     fold_left (enqueue_appointment active_only depth) appointments st))
                  (fun appt_error =>
                     print_unless_404 appt_error
                       (ErrorGettingAppointments officer_name appt_error))
              else ret tt
            else ret tt
        | None => ret tt
        end
    end ;>
    modify (add_scanned_officer officer_id).

(** Lines 105-213: one turn of [for officer in officers], with the handler
    at lines 210-213. *)
Definition process_officer (company_number : string) (profile : Profile)
    (depth : Z) (officer : Officer) : M unit :=
  let officer_name := default ""%string (o_name officer) in
  let officer_id := officer_id_of officer in
  modify (fun st =>
    set_network (record_appointment company_number profile depth officer (network st)) st) ;>
  st <~ get;
  if (depth <? max_depth) && negb (bool_decide (officer_id ∈ scanned_officers st)) then
    try_except (fan_out officer_name officer_id depth)
      (fun e => print_unless_404 e (ErrorSearching officer_name e))
  else ret tt.

(** Lines 71-213: the body of the [try] of one turn of the [while]. *)
Definition expand (company_number : string) (depth : Z) : M unit :=
  profile <~ call_profile company_number;
  if active_only && negb (status_is_active profile) then ret tt
  else
    officers <~ call_officers company_number;
    let officers :=
      if active_only
      then List.filter (fun o => negb (PyStr.truthy (o_resigned_on o))) officers
      else officers in
    modify (store_company company_number profile depth officers) ;>
    for_each officers (process_officer company_number profile depth).

(** [companies_to_scan.pop(0)] *)
Definition pop_front : M (string * Z) :=
  fun st =>
    match companies_to_scan st with
    | [] => (Raises (OfException IndexError), st)
    | item :: rest => (Returns item, set_companies_to_scan rest st)
    end.

(** Lines 62-216: one turn of the [while]; line 68 is outside the [try],
    and so is the handler at lines 215-216. *)
Definition loop_body : M unit :=
  item <~ pop_front;
  st <~ get;
  if bool_decide (item.1 ∈ scanned_companies st) || (item.2 >? max_depth) then ret tt
  else
    print (ScanningCompany item.1 item.2) ;>
    try_except (expand item.1 item.2) (fun e => print (ErrorScanning item.1 e)).

(** Lines 61-216: the [while], for at most [fuel] turns; [None] when the
    loop has not ended by then. *)
Fixpoint scan_loop (fuel : nat) (st : ScanState) : option (outcome unit * ScanState) :=
  match fuel with
  | O => None
  | S fuel' =>
      if loop_cond max_companies st then
        match loop_body st with
        | (Returns _, st') => scan_loop fuel' st'
        | (Raises r, st') => Some (Raises r, st')
        end
      else Some (Returns tt, st)
  end.

(** [scan_network]: the value returned or the exception raised, the
    instance afterwards, and the log of the call. *)
Definition scan_network (fuel : nat) (self : NetworkScanner) (seed_companies : list string)
    : option (outcome Network * NetworkScanner * list event) :=
  match scan_loop fuel (initial_state max_depth self seed_companies) with
  | Some (Returns _, st) =>
      Some (Returns (update_statistics (network st)), instance_of st, trace st)
  | Some (Raises r, st) => Some (Raises r, instance_of st, trace st)
  | None => None
  end.

End Scan.

End AnyException.

(** An outcome of the first embedding, read in this one. *)
Definition raising {A S} (out : result A * S) : outcome A * S :=
  match out with
  | (Ok a, s) => (Returns a, s)
  | (Raise e, s) => (Raises (OfException e), s)
  end.

(** The client of the sections above: its calls return or raise an
    exception derived from [Exception], and the console accepts every
    line. *)
Definition plain {W} (api_client : Facade W) : AnyException.Client W :=
  {| AnyException.get_company_profile c w := raising (get_company_profile api_client c w);
     AnyException.get_officers c w := raising (get_officers api_client c w);
     AnyException.search_officers name w := raising (search_officers api_client name w);
     AnyException.get_officer_appointments officer_api_id w :=
       raising (get_officer_appointments api_client officer_api_id w);
     AnyException.stdout_write _ w := (Returns tt, w) |}.

Section Plain.
Context {W : Type} {U : StrUpper}.
Variable api_client : Facade W.
Variables (max_depth max_companies : Z) (active_only : bool).

Lemma set_world_id (st : @ScanState W) : set_world (world st) st = st.
Proof. by destruct st. Qed.

Lemma print_plain l (st : @ScanState W) :
  AnyException.print (plain api_client) l st = (Returns tt, st).
Proof. unfold AnyException.print. simpl. by rewrite set_world_id. Qed.

Lemma print_unless_404_plain e l (st : @ScanState W) :
  AnyException.print_unless_404 (plain api_client) e l st = (Returns tt, st).
Proof.
  unfold AnyException.print_unless_404. destruct (negb _); [apply print_plain|done].
Qed.

Lemma fan_out_plain officer_name officer_id depth st :
  AnyException.fan_out (plain api_client) active_only officer_name officer_id depth st =
  raising (fan_out api_client active_only officer_name officer_id depth st).
Proof.
  rewrite fan_out_run. unfold AnyException.fan_out.
  destruct (is_corporate_officer officer_name); [done|].
  unfold AnyException.bind at 1, AnyException.call_search. simpl.
  destruct (search_officers api_client officer_name (world st)) as [[results|e] w]; [|done].
  simpl. unfold plan_of, after_search.
  destruct results as [|r results]; [done|].
  destruct (select_best_match officer_name (r :: results)) as [bm|]; [|done].
  destruct (match_truthy bm); [|done].
  simpl. destruct (negb (String.eqb _ "")); [|done].
  unfold AnyException.bind, AnyException.lift, AnyException.try_except,
    AnyException.call_appointments, AnyException.modify, AnyException.ret; simpl.
  unfold index_from_end.
  destruct (rev _ !! _) as [aid|]; [|done].
  simpl.
  destruct (get_officer_appointments api_client aid w) as [[l|e] w']; simpl; [done|].
  by rewrite print_unless_404_plain.
Qed.

Lemma process_officer_plain company_number profile depth officer st :
  AnyException.process_officer (plain api_client) max_depth active_only company_number
    profile depth officer st =
  (Returns tt, officer_step api_client max_depth active_only company_number profile depth
                 st officer).
Proof.
  unfold AnyException.process_officer, officer_step, AnyException.bind,
    AnyException.modify, AnyException.get, AnyException.try_except. simpl.
  destruct ((depth <? max_depth) && _); [|done].
  rewrite fan_out_plain.
  destruct (fan_out _ _ _ _ _ _) as [[[]|e] st2]; simpl; [done|].
  apply print_unless_404_plain.
Qed.

Lemma for_each_officers_plain company_number profile depth officers st :
  AnyException.for_each officers
    (AnyException.process_officer (plain api_client) max_depth active_only company_number
       profile depth) st =
  (Returns tt,
   fold_left (officer_step api_client max_depth active_only company_number profile depth)
     officers st).
Proof.
  revert st. induction officers as [|o l IH]; intros st; [done|].
  simpl. unfold AnyException.bind. by rewrite process_officer_plain, IH.
Qed.

Lemma expand_plain company_number depth st :
  AnyException.expand (plain api_client) max_depth active_only company_number depth st =
  raising (expand api_client max_depth active_only company_number depth st).
Proof.
  rewrite expand_run. unfold AnyException.expand.
  unfold AnyException.bind at 1, AnyException.call_profile. simpl.
  destruct (get_company_profile api_client company_number (world st)) as [[profile|e] w];
    [|done].
  simpl. destruct (active_only && negb (status_is_active profile)); [done|].
  unfold AnyException.bind at 1, AnyException.call_officers. simpl.
  destruct (get_officers api_client company_number w) as [[officers|e] w']; [|done].
  simpl. unfold AnyException.bind, AnyException.modify.
  by rewrite for_each_officers_plain.
Qed.

Lemma loop_body_plain st :
  AnyException.loop_body (plain api_client) max_depth active_only st =
  raising (loop_body api_client max_depth active_only st).
Proof.
  unfold AnyException.loop_body, loop_body, AnyException.bind, bind,
    AnyException.pop_front, pop_front, AnyException.get, get.
  destruct (companies_to_scan st) as [|item rest]; [done|].
  destruct (bool_decide _ || _); [done|].
  rewrite print_plain. unfold AnyException.try_except, try_except.
  rewrite expand_plain.
  destruct (expand _ _ _ _ _ _) as [[[]|e] st']; simpl; [done|].
  by rewrite print_plain.
Qed.

Lemma scan_loop_plain n :
  forall st fuel,
    loop_cond max_companies (scan_run api_client max_depth max_companies active_only n st) =
      false ->
    (n < fuel)%nat ->
    AnyException.scan_loop (plain api_client) max_depth max_companies active_only fuel st =
    Some (Returns tt, scan_run api_client max_depth max_companies active_only n st).
Proof.
  induction n as [|n IH]; intros st fuel Hend Hfuel;
    (destruct fuel as [|fuel]; [lia|]); simpl in *.
  - by rewrite Hend.
  - destruct (loop_cond max_companies st) eqn:Hc; [|done].
    rewrite loop_body_plain.
    destruct (loop_body_turn api_client max_depth max_companies active_only st Hc)
      as (c & d & rest & _ & _ & Hrun).
    rewrite Hrun in *. simpl in *. apply IH; [done|lia].
Qed.

(** The scanner of the sections above is the scanner of this one on a plain
    client: some number of turns is enough, and the outcome is then the
    same. *)
Lemma scan_network_plain self seed_companies :
  exists n, forall fuel,
    (n < fuel)%nat ->
    AnyException.scan_network (plain api_client) max_depth max_companies active_only fuel
      self seed_companies =
    Some (match scan_network api_client max_depth max_companies active_only self
                  seed_companies with
          | (Ok net, self', tr) => (Returns net, self', tr)
          | (Raise e, self', tr) => (Raises (OfException e), self', tr)
          end).
Proof.
  destruct (scan_loop_run api_client max_depth max_companies active_only
              (initial_state max_depth self seed_companies)) as (n & Hn & Hend).
  exists n. intros fuel Hfuel.
  unfold AnyException.scan_network, scan_network.
  by rewrite (scan_loop_plain n _ fuel Hend Hfuel), Hn.
Qed.

End Plain.


(** More turns than needed do not change the outcome. *)
Lemma scan_loop_more_fuel {W} {U : StrUpper} (api_client : AnyException.Client W)
    (max_depth max_companies : Z) (active_only : bool) fuel :
  forall st out fuel',
    AnyException.scan_loop api_client max_depth max_companies active_only fuel st =
      Some out ->
    (fuel <= fuel')%nat ->
    AnyException.scan_loop api_client max_depth max_companies active_only fuel' st =
      Some out.
Proof.
  induction fuel as [|fuel IH]; intros st out fuel' Hrun Hle; [done|].
  destruct fuel' as [|fuel']; [lia|]. simpl in *.
  destruct (loop_cond max_companies st); [|done].
  destruct (AnyException.loop_body _ _ _ _) as [[[]|r] st']; [|done].
  apply (IH st' out fuel' Hrun). lia.
Qed.

Lemma scan_network_more_fuel {W} {U : StrUpper} (api_client : AnyException.Client W)
    (max_depth max_companies : Z) (active_only : bool) fuel fuel' self seed_companies out :
  AnyException.scan_network api_client max_depth max_companies active_only fuel self
    seed_companies = Some out ->
  (fuel <= fuel')%nat ->
  AnyException.scan_network api_client max_depth max_companies active_only fuel' self
    seed_companies = Some out.
Proof.
  unfold AnyException.scan_network. intros Hrun Hle.
  destruct (AnyException.scan_loop _ _ _ _ fuel _) as [out1|] eqn:Hloop; [|done].
  by rewrite (scan_loop_more_fuel _ _ _ _ fuel _ out1 fuel' Hloop Hle).
Qed.


Module SampleConsole.

(** The client of [Sample.three_companies] when the user interrupts the
    request for the profile of BB000002. *)
Definition interrupted_client : AnyException.Client unit :=
  {| AnyException.get_company_profile c w :=
       if String.eqb c "BB000002" then (Raises (OfBaseException KeyboardInterrupt), w)
       else raising (profile_of Sample.three_companies c, w);
     AnyException.get_officers c w := raising (officers_of Sample.three_companies c, w);
     AnyException.search_officers name w := raising (search_of Sample.three_companies name, w);
     AnyException.get_officer_appointments officer_api_id w :=
       raising (appointments_of Sample.three_companies officer_api_id, w);
     AnyException.stdout_write _ w := (Returns tt, w) |}.

(** The client of [Sample.three_companies] on a console that is closed. *)
Definition closed_console_client : AnyException.Client unit :=
  {| AnyException.get_company_profile c w := raising (profile_of Sample.three_companies c, w);
     AnyException.get_officers c w := raising (officers_of Sample.three_companies c, w);
     AnyException.search_officers name w := raising (search_of Sample.three_companies name, w);
     AnyException.get_officer_appointments officer_api_id w :=
       raising (appointments_of Sample.three_companies officer_api_id, w);
     AnyException.stdout_write _ w :=
       (Raises (OfException (Exception "[Errno 32] Broken pipe")), w) |}.

End SampleConsole.


(** A write to the console that fails is not caught either: line 68 is
    outside the [try] of the turn. *)
Lemma closed_console_propagates :
  AnyException.scan_network SampleConsole.closed_console_client 2 100 true 10
    (new_scanner tt) ["AA000001"%string] =
  Some (Raises (OfException (Exception "[Errno 32] Broken pipe")), new_scanner tt, []).
Proof. vm_compute. reflexivity. Qed.


Module SampleHops.
Import Sample.

(** [Sample.three_companies] with a seat missing from the registry's list of
    appointments: ALICE sits on the boards of AA000001 and BB000002, but
    the appointments of the officer found under her name list AA000001
    only. *)
Definition unlisted_seat : Registry :=
  {| profile_of := profile_of three_companies;
     officers_of := officers_of three_companies;
     search_of := search_of three_companies;
     appointments_of officer_api_id :=
       if String.eqb officer_api_id "alice" then Ok [active_appointment "AA000001"]
       else appointments_of three_companies officer_api_id |}.

End SampleHops.

(** ** The scanner on the sample data *)

Ltac run_scan n :=
  unfold returned; rewrite (scan_network_at _ _ _ _ n) by (vm_compute; reflexivity).

(** C1 fails as stated. BB000002 is one hop from the seed AA000001 (ALICE
    ARCHER sits on both boards), but the first request for its profile
    raises; the company is enqueued again, two hops deep, through CC000003,
    and is recorded with depth 2. *)
Lemma transient_failure_records_deeper :
  returned
    (scan_network Sample.flaky_client 2 100 true (new_scanner O) ["AA000001"%string])
    (fun net _ _ =>
       (cn_depth <$> dict_get "BB000002" (net_companies net)) = Some 2 /\
       min_hops Sample.three_companies true ["AA000001"%string] "BB000002" 1).
Proof.
  run_scan 10%nat. split; [vm_compute; reflexivity|].
  exists 1%nat. split; [done|]. split.
  - apply (hops_step _ _ _ O "AA000001"%string); [constructor; set_solver|].
    exists (Sample.director "ALICE ARCHER" "2010-01-01").
    split; vm_compute; set_solver.
  - intros m Hm. inversion Hm as [s Hs|]; subst; [|lia].
    apply list_elem_of_singleton in Hs. discriminate.
Qed.

Definition is_search_of (officer_id : string) (e : event) : bool :=
  match e with
  | EvSearch officer_id' _ _ => String.eqb officer_id officer_id'
  | _ => false
  end.

(** C7 at the failing input: with both seeds eligible, ALICE ARCHER on both
    boards under one identity key and an officer search that raises, the
    call returns with her key outside the visited-officer set, and the
    search for her identity was issued twice. *)
Theorem search_failure_leaves_officer_unvisited :
  returned
    (scan_network Sample.search_down_client 1 100 true (new_scanner tt)
       ["AA000001"; "BB000002"]%string)
    (fun _ self' tr =>
       ("ALICE ARCHER_2010-01-01"%string ∉ self_scanned_officers self') /\
       count (is_search_of "ALICE ARCHER_2010-01-01") tr = 2%nat).
Proof.
  run_scan 10%nat. split; [|vm_compute; reflexivity].
  refine (bool_decide_eq_false_1 _ _). vm_compute. reflexivity.
Qed.

(** C6 fails as stated. Of six results the sixth alone carries the
    officer's name; the scanner looks at the top five only and takes the
    first result. *)
Lemma sixth_result_is_not_selected :
  exists m,
    Sample.six_results !! 5%nat = Some m /\
    exact_match "JOHN SMITH" m = true /\
    select_best_match "JOHN SMITH" Sample.six_results = head Sample.six_results /\
    head Sample.six_results <> Some m.
Proof.
  exists (Sample.search_item "John SMITH" "john").
  split; [reflexivity|]. split; [reflexivity|]. split; [reflexivity|].
  discriminate.
Qed.

(** C4 fails as stated for a negative cap: the loop does not run and the
    snapshot, with no entry, has more than [max_companies = -1] entries. *)
Lemma negative_cap_is_exceeded :
  returned
    (scan_network (client_of Sample.three_companies) 2 (-1) true (new_scanner tt)
       ["AA000001"%string])
    (fun net _ _ => ~ Z.of_nat (length (net_companies net)) <= -1).
Proof. run_scan 0%nat. vm_compute. intros H. by apply H. Qed.

Lemma companies_capped_witness :
  returned
    (scan_network (client_of Sample.three_companies) 2 1 true (new_scanner tt)
       ["AA000001"; "BB000002"]%string)
    (fun net _ tr =>
       dict_keys (net_companies net) = ["AA000001"%string] /\
       ("AA000001"%string <> "BB000002"%string -> count (is_fetch "BB000002") tr = O)).
Proof.
  apply (proj2 (proj2 (companies_capped (client_of Sample.three_companies) 2 1 true
                         (new_scanner tt) ["AA000001"; "BB000002"]%string))
           "AA000001"%string "BB000002"%string);
    [reflexivity | reflexivity | lia |].
  exists (Sample.active_company "ALPHA"),  tt,
    [Sample.director "ALICE ARCHER" "2010-01-01"; Sample.director "ADAM BAKER" "2011-01-01"],
    tt.
  repeat split.
Defined.

Lemma best_match_witness :
  select_best_match "ADAM BAKER"
    [Sample.search_item "Adam BARKER" "barker"; Sample.search_item "adam baker" "adam"] =
  Some (Sample.search_item "adam baker" "adam").
Proof.
  apply (proj1 (best_match_is_first_exact_of_top_five (client_of Sample.three_companies)
                  true "ADAM BAKER"
                  [Sample.search_item "Adam BARKER" "barker";
                   Sample.search_item "adam baker" "adam"])
           1%nat (Sample.search_item "adam baker" "adam")).
  - reflexivity.
  - lia.
  - reflexivity.
  - intros j m' Hj Hl. destruct j as [|j]; [|lia]. by injection Hl as <-.
Defined.

(** ** The rate limiter at the end of a period *)

(** C2 at the failing input: one request per ten seconds, callers at 1000,
    1010 and 1010. The request of 1000 is neither older than the period (so
    it stays in the queue) nor is there anything left to sleep, so the
    second and the third caller are both granted at 1010: two grants in the
    window that starts there, with [max_requests = 1]. *)
Theorem acquire_admits_two_at_the_boundary :
  let self := {| RateLimiter.max_requests := 1; RateLimiter.period := 10;
                 RateLimiter.requests := [] |} in
  exists run,
    RateLimiter.calls self 1000 [1000; 1010; 1010] = Ok run /\
    RateLimiter.granted run = [1000; 1010; 1010] /\
    RateLimiter.requests (RateLimiter.limiter run) = [1000; 1010; 1010] /\
    RateLimiter.granted_in_window 1010 10 (RateLimiter.granted run) = 2%nat /\
    Z.of_nat (RateLimiter.granted_in_window 1010 10 (RateLimiter.granted run)) >
    RateLimiter.max_requests self.
Proof.
  eexists. split; [reflexivity|]. repeat split.
Qed.

(** ** Clusters *)

Section ClusterFacts.
Variable set_iter : gset string -> list string.
Hypothesis set_iter_sound : forall s x, x ∈ set_iter s -> x ∈ s.

Lemma adjacent_sym connections a b :
  adjacent connections a b -> adjacent connections b a.
Proof. intros (c1 & c2 & ? & ? & ? & ? & ?). by exists c2, c1. Qed.

Lemma connected_sym connections a b :
  rtc (adjacent connections) a b -> rtc (adjacent connections) b a.
Proof.
  induction 1 as [|a b c Hab _ IH]; [done|].
  eapply rtc_r; [apply IH|]. by apply adjacent_sym.
Qed.

Lemma related_companies_spec connections director r :
  r ∈ related_companies connections director ->
  exists c, c ∈ connections /\ c_company_number c = r /\ c_director_id c = director.
Proof.
  unfold related_companies. intros (c & -> & Hc)%list_elem_of_fmap.
  apply list_elem_of_In, List.filter_In in Hc as [Hin Heq].
  exists c. split; [by apply list_elem_of_In|]. split; [done|].
  by apply String.eqb_eq.
Qed.

Definition graph_sound (connections : list Connection)
    (graph : gmap string (gset string)) : Prop :=
  forall a b, b ∈ graph !!! a -> adjacent connections a b.

Lemma add_related_sound connections connection graph related :
  connection ∈ connections ->
  Forall (fun r => r ∈ related_companies connections (c_director_id connection)) related ->
  graph_sound connections graph ->
  graph_sound connections
    (fold_left (add_related (c_company_number connection)) related graph).
Proof.
  intros Hin Hrel. revert graph.
  induction Hrel as [|r l Hr _ IH]; intros graph Hg; simpl; [done|].
  apply IH. unfold add_related.
  destruct (negb (String.eqb r (c_company_number connection))); [|done].
  intros a b. destruct (decide (c_company_number connection = a)) as [<-|Hne].
  - rewrite lookup_total_insert_eq. intros [->%elem_of_singleton|Hb]%elem_of_union.
    + destruct (related_companies_spec _ _ _ Hr) as (c2 & Hc2 & Hnum & Hdir).
      by exists connection, c2.
    + by apply Hg.
  - rewrite lookup_total_insert_ne by done. apply Hg.
Qed.

Lemma build_graph_sound connections :
  graph_sound connections (build_graph connections).
Proof.
  unfold build_graph.
  assert (forall l graph,
    Forall (fun c => c ∈ connections) l ->
    graph_sound connections graph ->
    graph_sound connections
      (fold_left
         (fun graph connection =>
            fold_left (add_related (c_company_number connection))
              (related_companies connections (c_director_id connection)) graph)
         l graph)) as Hfold.
  { intros l. induction l as [|c l IH]; intros graph Hl Hg; simpl; [done|].
    inversion Hl as [|? ? Hc Hl']; subst.
    apply IH; [done|]. apply add_related_sound; [done| |done].
    by apply Forall_forall. }
  apply Hfold.
  - by apply Forall_forall.
  - intros a b. rewrite lookup_total_empty. set_solver.
Qed.

(** [dfs] appends to the cluster companies reachable from its node only. *)
Lemma dfs_sound graph fuel :
  forall node visited cluster visited' cluster',
    dfs set_iter graph fuel node (visited, cluster) = Some (visited', cluster') ->
    exists new,
      cluster' = cluster ++ new /\
      Forall (fun x => rtc (fun a b => b ∈ graph !!! a) node x) new.
Proof.
  induction fuel as [|fuel IH]; intros node visited cluster visited' cluster'; [done|].
  simpl.
  assert (forall l acc,
    Forall (fun nb => nb ∈ graph !!! node) l ->
    (forall v c, acc = Some (v, c) ->
       exists new, c = cluster ++ new /\
         Forall (fun x => rtc (fun a b => b ∈ graph !!! a) node x) new) ->
    forall v c,
      fold_left
        (fun acc neighbor =>
           match acc with
           | None => None
           | Some (visited, cluster) =>
               if bool_decide (neighbor ∈ visited) then Some (visited, cluster)
               else dfs set_iter graph fuel neighbor (visited, cluster)
           end) l acc = Some (v, c) ->
      exists new, c = cluster ++ new /\
        Forall (fun x => rtc (fun a b => b ∈ graph !!! a) node x) new) as Hfold.
  { intros l. induction l as [|nb l IHl]; intros acc Hl Hacc v c; simpl.
    - apply Hacc.
    - inversion Hl as [|? ? Hnb Hl']; subst. apply IHl; [done|].
      intros v1 c1. destruct acc as [[v0 c0]|]; [|done].
      destruct (Hacc v0 c0 eq_refl) as (new0 & -> & Hnew0).
      destruct (bool_decide (nb ∈ v0)).
      + intros [= <- <-]. eauto.
      + intros Hdfs. destruct (IH _ _ _ _ _ Hdfs) as (new1 & -> & Hnew1).
        exists (new0 ++ new1). split; [by rewrite app_assoc|].
        apply Forall_app. split; [done|].
        eapply Forall_impl; [apply Hnew1|]. intros x Hx. simpl in Hx.
        eapply rtc_l; [apply Hnb|done]. }
  apply Hfold.
  - apply Forall_forall. intros nb. apply set_iter_sound.
  - intros v c [= <- <-]. exists [node]. split; [done|]. by repeat constructor.
Qed.

(** The named companies not yet visited: the recursion of [dfs] visits one
    of them at each level. *)
Definition unvisited (nodes : list string) (visited : gset string) : nat :=
  length (List.filter (fun x => negb (bool_decide (x ∈ visited))) nodes).

Lemma unvisited_mono nodes (v v' : gset string) :
  v ⊆ v' -> (unvisited nodes v' <= unvisited nodes v)%nat.
Proof.
  intros Hsub. unfold unvisited. induction nodes as [|x l IH]; simpl; [done|].
  destruct (bool_decide (x ∈ v)) eqn:E; simpl.
  - apply bool_decide_eq_true in E.
    rewrite bool_decide_eq_true_2 by set_solver. done.
  - destruct (bool_decide (x ∈ v')); simpl; lia.
Qed.

Lemma unvisited_lt nodes (v : gset string) node :
  node ∈ nodes -> node ∉ v ->
  (unvisited nodes ({[node]} ∪ v) < unvisited nodes v)%nat.
Proof.
  intros Hin Hnin. unfold unvisited.
  induction Hin as [node l|node x l Hin IH]; simpl.
  - rewrite bool_decide_eq_true_2 by set_solver.
    rewrite (bool_decide_eq_false_2 (node ∈ v)) by done. simpl.
    pose proof (unvisited_mono l v ({[node]} ∪ v)) as Hmono.
    unfold unvisited in Hmono. specialize (Hmono ltac:(set_solver)). lia.
  - pose proof (unvisited_mono [x] v ({[node]} ∪ v)) as Hmono.
    unfold unvisited in Hmono. simpl in Hmono. specialize (Hmono ltac:(set_solver)).
    specialize (IH Hnin).
    destruct (bool_decide (x ∈ {[node]} ∪ v)), (bool_decide (x ∈ v));
      simpl in *; lia.
Qed.

Lemma unvisited_le_length nodes v : (unvisited nodes v <= length nodes)%nat.
Proof. unfold unvisited. apply List.filter_length_le. Qed.

(** With as much fuel as there are unvisited companies, [dfs] returns. *)
Lemma dfs_returns graph nodes fuel :
  (forall a b, b ∈ graph !!! a -> b ∈ nodes) ->
  forall node visited cluster,
    node ∈ nodes -> node ∉ visited ->
    (unvisited nodes visited <= fuel)%nat ->
    exists visited' cluster',
      dfs set_iter graph fuel node (visited, cluster) = Some (visited', cluster') /\
      visited ⊆ visited'.
Proof.
  intros Hclosed.
  induction fuel as [|fuel IH]; intros node visited cluster Hin Hnin Hfuel.
  { pose proof (unvisited_lt nodes visited node Hin Hnin). lia. }
  simpl.
  assert (unvisited nodes ({[node]} ∪ visited) <= fuel)%nat as Hfuel1.
  { pose proof (unvisited_lt nodes visited node Hin Hnin). lia. }
  assert (forall l v c,
    Forall (fun nb => nb ∈ nodes) l ->
    {[node]} ∪ visited ⊆ v ->
    exists v' c',
      fold_left
        (fun acc neighbor =>
           match acc with
           | None => None
           | Some (visited, cluster) =>
               if bool_decide (neighbor ∈ visited) then Some (visited, cluster)
               else dfs set_iter graph fuel neighbor (visited, cluster)
           end) l (Some (v, c)) = Some (v', c') /\ v ⊆ v') as Hfold.
  { intros l. induction l as [|nb l IHl]; intros v c Hl Hsub; simpl; [by eauto|].
    inversion Hl as [|? ? Hnb Hl']; subst.
    destruct (bool_decide (nb ∈ v)) eqn:E.
    - by apply IHl.
    - apply bool_decide_eq_false in E.
      destruct (IH nb v c Hnb E) as (v1 & c1 & -> & Hsub1).
      { pose proof (unvisited_mono nodes _ _ Hsub). lia. }
      destruct (IHl v1 c1 Hl') as (v' & c' & Hres & Hsub'); [set_solver|].
      exists v', c'. split; [done|set_solver]. }
  destruct (Hfold (set_iter (graph !!! node)) ({[node]} ∪ visited) (cluster ++ [node]))
    as (v' & c' & Hres & Hsub); [|done|].
  - apply Forall_forall. intros nb Hnb. eapply Hclosed, set_iter_sound, Hnb.
  - exists v', c'. split; [done|set_solver].
Qed.

Lemma adjacent_named net a b :
  adjacent (net_connections net) a b -> b ∈ named_companies net.
Proof.
  intros (c1 & c2 & _ & Hc2 & _ & <- & _). unfold named_companies.
  apply elem_of_app. right. by apply list_elem_of_fmap_2.
Qed.

(** What [find_company_clusters] promises of one cluster. *)
Definition cluster_ok (connections : list Connection) (cluster : list string) : Prop :=
  (2 <= length cluster)%nat /\
  forall x y, x ∈ cluster -> y ∈ cluster -> rtc (adjacent connections) x y.

Lemma discover_clusters_ok net :
  exists discovered,
    discover_clusters set_iter net = Some discovered /\
    Forall (cluster_ok (net_connections net)) discovered.
Proof.
  unfold discover_clusters.
  set (graph := build_graph (net_connections net)).
  set (fuel := S (length (named_companies net))).
  assert (graph_sound (net_connections net) graph) as Hgraph
    by apply build_graph_sound.
  assert (forall v, (unvisited (named_companies net) v <= fuel)%nat) as Hfuel.
  { intros v. pose proof (unvisited_le_length (named_companies net) v).
    unfold fuel. lia. }
  clearbody graph fuel.
  assert (forall l visited clusters,
    Forall (fun c => c ∈ named_companies net) l ->
    Forall (cluster_ok (net_connections net)) clusters ->
    exists visited' clusters',
      fold_left
        (fun acc company =>
           match acc with
           | None => None
           | Some (visited, clusters) =>
               if bool_decide (company ∈ visited) then Some (visited, clusters)
               else
                 match dfs set_iter graph fuel company (visited, []) with
                 | None => None
                 | Some (visited', cluster) =>
                     Some (visited',
                           if (1 <? length cluster)%nat then clusters ++ [cluster]
                           else clusters)
                 end
           end) l (Some (visited, clusters)) = Some (visited', clusters') /\
      Forall (cluster_ok (net_connections net)) clusters') as Hfold.
  { intros l. induction l as [|company l IH]; intros visited clusters Hl Hok; simpl;
      [by eauto|].
    inversion Hl as [|? ? Hc Hl']; subst.
    destruct (bool_decide (company ∈ visited)) eqn:E; [by apply IH|].
    apply bool_decide_eq_false in E.
    destruct (dfs_returns graph (named_companies net) fuel) with
      (node := company) (visited := visited) (cluster := @nil string)
      as (v' & cluster & Hdfs & _); [| done | done | done |].
    { intros a b Hb. eapply adjacent_named, Hgraph, Hb. }
    rewrite Hdfs. apply IH; [done|].
    destruct (1 <? length cluster)%nat eqn:Hlen; [|done].
    apply Forall_app. split; [done|]. constructor; [|done].
    split; [apply Nat.ltb_lt in Hlen; lia|].
    destruct (dfs_sound graph fuel _ _ _ _ _ Hdfs) as (new & Hnew & Hreach).
    simpl in Hnew. subst new.
    assert (forall x, x ∈ cluster -> rtc (adjacent (net_connections net)) company x)
      as Hfrom.
    { intros x Hx. rewrite Forall_forall in Hreach.
      eapply rtc_subrel; [|apply Hreach, Hx].
      intros a b Hab. by apply Hgraph. }
    intros x y Hx Hy. etrans; [apply connected_sym, Hfrom, Hx | apply Hfrom, Hy]. }
  destruct (Hfold (dict_keys (net_companies net)) ∅ [])
    as (v' & clusters & -> & Hok); [|done|].
  - apply Forall_forall. intros c Hc. unfold named_companies.
    apply elem_of_app. by left.
  - by exists clusters.
Qed.

Definition larger_first (a b : list string) : Prop := (length b <= length a)%nat.

Definition has_size (k : nat) (cluster : list string) : bool :=
  Nat.eqb (length cluster) k.

Lemma insert_by_len_perm cluster sorted :
  insert_by_len cluster sorted ≡ₚ cluster :: sorted.
Proof.
  induction sorted as [|c rest IH]; simpl; [done|].
  destruct (length cluster <? length c)%nat; [|done].
  rewrite IH. apply Permutation_swap.
Qed.

Lemma sort_by_len_desc_perm clusters : sort_by_len_desc clusters ≡ₚ clusters.
Proof.
  induction clusters as [|c l IH]; simpl; [done|].
  by rewrite insert_by_len_perm, IH.
Qed.

Lemma insert_by_len_sorted cluster sorted :
  StronglySorted larger_first sorted ->
  StronglySorted larger_first (insert_by_len cluster sorted).
Proof.
  induction 1 as [|c rest Hrest IH Hc]; simpl.
  - by repeat constructor.
  - destruct (Nat.ltb_spec (length cluster) (length c)) as [Hlt|Hge].
    + constructor; [done|]. rewrite insert_by_len_perm.
      constructor; [unfold larger_first; lia | done].
    + constructor; [by constructor|].
      constructor; [done|].
      eapply Forall_impl; [apply Hc|]. unfold larger_first. intros; simpl in *; lia.
Qed.

Lemma sort_by_len_desc_sorted clusters :
  StronglySorted larger_first (sort_by_len_desc clusters).
Proof.
  induction clusters as [|c l IH]; simpl; [constructor|].
  by apply insert_by_len_sorted.
Qed.

Lemma insert_by_len_stable k cluster sorted :
  List.filter (has_size k) (insert_by_len cluster sorted) =
  List.filter (has_size k) (cluster :: sorted).
Proof.
  induction sorted as [|c rest IH]; simpl; [done|].
  destruct (Nat.ltb_spec (length cluster) (length c)) as [Hlt|Hge]; [|done].
  simpl. rewrite IH. simpl. unfold has_size.
  destruct (Nat.eqb_spec (length cluster) k), (Nat.eqb_spec (length c) k);
    try done; lia.
Qed.

Lemma sort_by_len_desc_stable k clusters :
  List.filter (has_size k) (sort_by_len_desc clusters) =
  List.filter (has_size k) clusters.
Proof.
  induction clusters as [|c l IH]; simpl; [done|].
  rewrite insert_by_len_stable. simpl. by rewrite IH.
Qed.

(** C8. For every snapshot, [find_company_clusters] returns; every cluster
    it returns has at least two companies, any two of which are linked by a
    chain of companies that share a director identity; the clusters come
    largest first, clusters of one size in the order they were found. *)
Theorem clusters_connected_and_sorted net :
  exists discovered clusters,
    discover_clusters set_iter net = Some discovered /\
    find_company_clusters set_iter net = Some clusters /\
    Forall (cluster_ok (net_connections net)) clusters /\
    StronglySorted larger_first clusters /\
    clusters ≡ₚ discovered /\
    forall k, List.filter (has_size k) clusters = List.filter (has_size k) discovered.
Proof.
  destruct (discover_clusters_ok net) as (discovered & Hd & Hok).
  exists discovered, (sort_by_len_desc discovered).
  split; [done|]. split; [unfold find_company_clusters; by rewrite Hd|].
  split; [by rewrite sort_by_len_desc_perm|].
  split; [apply sort_by_len_desc_sorted|].
  split; [apply sort_by_len_desc_perm|].
  intros k. apply sort_by_len_desc_stable.
Qed.

End ClusterFacts.

Module SampleNetwork.

Definition link (company director : string) : Connection :=
  {| c_company_number := company; c_company_name := None;
     c_director_id := director; c_director_name := director;
     c_role := "director"%string; c_depth := 0 |}.

Definition node (company : string) : string * CompanyNode :=
  (company,
   {| cn_company_number := company; cn_company_name := None;
      cn_company_status := None; cn_company_type := None;
      cn_incorporation_date := None; cn_depth := 0; cn_officer_count := 1 |}).

(** P and Q share ANN; R, S and T are chained by BOB and CID; U stands
    alone. *)
Definition six_companies : Network :=
  {| net_seed_companies := ["P"%string];
     net_max_depth := 2;
     net_companies := [node "P"; node "R"; node "Q"; node "U"; node "S"; node "T"];
     net_directors := [];
     net_connections :=
       [link "P" "ANN"; link "Q" "ANN"; link "R" "BOB"; link "S" "BOB";
        link "S" "CID"; link "T" "CID"; link "U" "DEE"];
     net_statistics :=
       {| total_companies := 6; total_directors := 0; total_connections := 7;
          depth_reached := 0 |} |}.

End SampleNetwork.

Example six_companies_clusters :
  find_company_clusters elements SampleNetwork.six_companies =
  Some [["R"; "S"; "T"]; ["P"; "Q"]]%string.
Proof. vm_compute. reflexivity. Qed.

Lemma clusters_witness :
  exists discovered clusters,
    discover_clusters elements SampleNetwork.six_companies = Some discovered /\
    find_company_clusters elements SampleNetwork.six_companies = Some clusters /\
    Forall (cluster_ok (net_connections SampleNetwork.six_companies)) clusters /\
    StronglySorted larger_first clusters /\
    clusters ≡ₚ discovered /\
    forall k, List.filter (has_size k) clusters = List.filter (has_size k) discovered.
Proof.
  apply (clusters_connected_and_sorted elements).
  intros s x Hx. by apply elem_of_elements in Hx.
Defined.

(** ** The order of the work list, for any client *)

(** The work list is in non-decreasing order of depth. *)
Definition ordered (q : list (string * Z)) : Prop :=
  StronglySorted (fun x y : string * Z => x.2 <= y.2) q.

(** The depth recorded for a company. *)
Definition depth_of {W} (st : @ScanState W) (c : string) : option Z :=
  cn_depth <$> dict_get c (net_companies (network st)).

Section ScanOrder.
Context {W : Type} {U : StrUpper}.
Variables (api_client : Facade W) (max_depth max_companies : Z) (active_only : bool).

Definition two_levels (q : list (string * Z)) : Prop :=
  ordered q /\ exists L, Forall (fun it => L <= it.2 <= L + 1) q.

Lemma ordered_app_level (q new : list (string * Z)) depth :
  ordered q ->
  Forall (fun it => it.2 <= depth + 1) q ->
  Forall (fun it => it.2 = depth + 1) new ->
  ordered (q ++ new).
Proof.
  intros Hq Hb Hnew. unfold ordered in *.
  induction Hq as [|x l Hl IH Hx]; simpl.
  - induction Hnew as [|it new Hit Hnew IH]; constructor; [done|].
    eapply Forall_impl; [apply Hnew|]. intros it' Hit'. simpl in *. lia.
  - inversion Hb as [|? ? Hxb Hb']; subst. constructor; [by apply IH|].
    apply Forall_app. split; [done|].
    eapply Forall_impl; [apply Hnew|]. intros it' Hit'. simpl in *. lia.
Qed.

Lemma two_levels_turn (st : @ScanState W) company_number depth rest :
  two_levels (companies_to_scan st) ->
  companies_to_scan st = (company_number, depth) :: rest ->
  two_levels
    (companies_to_scan
       (turn api_client max_depth active_only company_number depth
          (set_companies_to_scan rest st))).
Proof.
  intros [Hsorted (L & HL)] Hq. rewrite Hq in *. unfold ordered in Hsorted.
  inversion Hsorted as [|? ? Hsorted' Hge]; subst.
  inversion HL as [|? ? HdL HrestL]; subst. simpl in HdL.
  assert (Forall (fun it : string * Z => depth <= it.2 <= depth + 1) rest) as Hlevel.
  { rewrite Forall_forall in HrestL, Hge. apply Forall_forall. intros it Hit.
    specialize (HrestL it Hit). specialize (Hge it Hit). simpl in *. lia. }
  destruct (turn_shape api_client max_depth active_only company_number depth
              (set_companies_to_scan rest st))
    as [_ | w' evs _ _ _ | profile officers w' O' new evs _ _ _ Hnew _]; simpl.
  - split; [done|]. by exists depth.
  - split; [done|]. by exists depth.
  - split.
    + apply (ordered_app_level _ _ depth); [done| |].
      * eapply Forall_impl; [apply Hlevel|]. intros; simpl in *; lia.
      * eapply Forall_impl; [apply Hnew|]. by intros it [? _].
    + exists depth. apply Forall_app. split; [done|].
      eapply Forall_impl; [apply Hnew|]. intros it [-> _]. lia.
Qed.

Lemma two_levels_run n self seed_companies :
  two_levels
    (companies_to_scan
       (scan_run api_client max_depth max_companies active_only n
          (initial_state max_depth self seed_companies))).
Proof.
  apply (scan_run_invariant api_client max_depth max_companies active_only
           (fun st => two_levels (companies_to_scan st))).
  - intros st Hinv Hc.
    destruct (loop_body_turn api_client max_depth max_companies active_only st Hc)
      as (c & d & rest & Hq & _ & ->).
    simpl. by apply two_levels_turn.
  - simpl. split.
    + unfold ordered. induction seed_companies as [|s l IH]; simpl; constructor; [done|].
      apply Forall_map, Forall_forall. intros; simpl; lia.
    + exists 0. apply Forall_map, Forall_forall. intros; simpl; lia.
Qed.

(** A turn leaves the depth of a recorded company as it is. *)
Lemma depth_kept_by_turn (st : @ScanState W) company_number depth c d :
  scan_inv max_companies st ->
  depth_of st c = Some d ->
  depth_of (turn api_client max_depth active_only company_number depth st) c = Some d.
Proof.
  intros Hinv Hc.
  destruct (turn_shape api_client max_depth active_only company_number depth st)
    as [_ | w' evs _ _ _ | profile officers w' O' new evs Hnin _ _ _ _]; [done|done|].
  unfold depth_of in *. simpl. rewrite record_appointments_companies. simpl.
  rewrite dict_get_set_ne; [done|]. intros <-.
  apply Hnin, (inv_keys _ _ Hinv).
  destruct (decide (company_number ∈ dict_keys (net_companies (network st))))
    as [|Hn]; [done|].
  apply dict_get_None in Hn. by rewrite Hn in Hc.
Qed.

Lemma scan_run_add n k (st : @ScanState W) :
  scan_run api_client max_depth max_companies active_only (n + k) st =
  scan_run api_client max_depth max_companies active_only k
    (scan_run api_client max_depth max_companies active_only n st).
Proof.
  revert st. induction n as [|n IH]; intros st; simpl; [done|].
  destruct (loop_cond max_companies st) eqn:Hc; [apply IH|].
  destruct k; simpl; [done|]. by rewrite Hc.
Qed.

(** Once recorded, the depth of a company is never changed. *)
Lemma depth_kept_run n k self seed_companies c d :
  let st0 := initial_state max_depth self seed_companies in
  depth_of (scan_run api_client max_depth max_companies active_only n st0) c = Some d ->
  depth_of (scan_run api_client max_depth max_companies active_only (n + k) st0) c = Some d.
Proof.
  intros st0 Hc. rewrite scan_run_add.
  enough (scan_inv max_companies
            (scan_run api_client max_depth max_companies active_only k
               (scan_run api_client max_depth max_companies active_only n st0)) /\
          depth_of (scan_run api_client max_depth max_companies active_only k
                      (scan_run api_client max_depth max_companies active_only n st0)) c =
          Some d) as [_ ?]; [done|].
  apply (scan_run_invariant api_client max_depth max_companies active_only
           (fun st => scan_inv max_companies st /\ depth_of st c = Some d)).
  - intros st [Hinv Hd] Hcond. split; [by apply scan_inv_body|].
    destruct (loop_body_turn api_client max_depth max_companies active_only st Hcond)
      as (c' & d' & rest & Hq & _ & ->).
    simpl. apply depth_kept_by_turn; [by apply scan_inv_pop|done].
  - split; [apply scan_inv_run|done].
Qed.

End ScanOrder.

(** ** Depths in a registry with fixed answers *)

Section Bfs.
Context {U : StrUpper}.
Variables (reg : Registry) (max_depth max_companies : Z) (active_only : bool).
Variable seed_companies : list string.

(** Officers recorded under one identity key carry one name. *)
Definition keys_name_officers : Prop :=
  forall a b oa ob,
    oa ∈ officers_at reg active_only a ->
    ob ∈ officers_at reg active_only b ->
    officer_id_of oa = officer_id_of ob ->
    default ""%string (o_name oa) = default ""%string (o_name ob).

Hypothesis key_names : keys_name_officers.

Local Abbreviation api := (client_of reg).
Local Abbreviation name_of o := (default ""%string (o_name o)).

(** Every company the search for [officer_name] leads to is visited or was
    appended to the work list. *)
Definition served (visited : gset string) (depth : Z) (new : list (string * Z))
    (officer_name : string) : Prop :=
  forall b, b ∈ officer_targets reg active_only officer_name ->
            b ∈ visited \/ (b, depth + 1) ∈ new.

Lemma served_mono visited depth new new' officer_name :
  served visited depth new officer_name ->
  new ⊆ new' ->
  served visited depth new' officer_name.
Proof. intros Hs Hsub b Hb. destruct (Hs b Hb); [by left|right; by apply Hsub]. Qed.

Lemma served_nil visited depth new officer_name :
  officer_targets reg active_only officer_name = [] ->
  served visited depth new officer_name.
Proof. intros Hnil b. rewrite Hnil. by intros ?%elem_of_nil. Qed.

Lemma new_items_spec depth visited appointments it :
  it ∈ new_items active_only depth visited appointments <->
  it.2 = depth + 1 /\ (it.1 ∉ visited) /\
  it.1 ∈ omap (appointment_target active_only) appointments.
Proof.
  unfold new_items. rewrite list_elem_of_fmap. split.
  - intros (c & -> & Hc). apply list_elem_of_In, List.filter_In in Hc as [Hin Hv].
    simpl. split; [done|]. split; [|by apply list_elem_of_In].
    apply negb_true_iff in Hv. by apply bool_decide_eq_false in Hv.
  - intros (Hd & Hv & Hin). destruct it as [c d]. simpl in *. subst d.
    exists c. split; [done|]. apply list_elem_of_In, List.filter_In.
    split; [by apply list_elem_of_In|].
    apply negb_true_iff. by apply bool_decide_eq_false.
Qed.

(** One officer, against fixed answers. *)
Lemma officer_step_pure company_number profile depth st officer :
  exists w' officers' new evs,
    officer_step api max_depth active_only company_number profile depth st officer =
    {| world := w';
       scanned_companies := scanned_companies st;
       scanned_officers := officers';
       companies_to_scan := companies_to_scan st ++ new;
       network := record_appointment company_number profile depth officer (network st);
       trace := trace st ++ evs |}
    /\ scanned_officers st ⊆ officers'
    /\ Forall (fun it => it.2 = depth + 1 /\ depth < max_depth /\
                         it.1 ∈ officer_targets reg active_only (name_of officer)) new
    /\ (depth < max_depth ->
         officer_id_of officer ∈ scanned_officers st \/
         served (scanned_companies st) depth new (name_of officer))
    /\ (forall id, id ∈ officers' ->
           id ∈ scanned_officers st \/
           id = officer_id_of officer /\
           served (scanned_companies st) depth new (name_of officer)).
Proof.
  unfold officer_step.
  destruct (depth <? max_depth) eqn:Hd; simpl;
    [apply Z.ltb_lt in Hd | apply Z.ltb_ge in Hd].
  2:{ exists (world st), (scanned_officers st), [], [].
      rewrite !app_nil_r. split; [done|]. split; [done|]. split; [done|].
      split; [lia|]. by left. }
  destruct (bool_decide (officer_id_of officer ∈ scanned_officers st)) eqn:Hin; simpl.
  { apply bool_decide_eq_true in Hin.
    exists (world st), (scanned_officers st), [], [].
    rewrite !app_nil_r. split; [done|]. split; [done|]. split; [done|].
    split; by left. }
  apply bool_decide_eq_false in Hin.
  rewrite fan_out_run. unfold officer_targets, served.
  unfold officer_targets. simpl.
  destruct (is_corporate_officer (name_of officer)); simpl.
  { exists (world st), ({[officer_id_of officer]} ∪ scanned_officers st), [], [].
    rewrite !app_nil_r. split; [done|]. split; [set_solver|]. split; [done|].
    split; [right; by intros b ?%elem_of_nil|].
    intros id [->%elem_of_singleton|?]%elem_of_union; [right|by left].
    split; [done|]. by intros b ?%elem_of_nil. }
  destruct (search_of reg (name_of officer)) as [results|e]; simpl.
  2:{ exists (world st), (scanned_officers st), [],
        [EvSearch (officer_id_of officer) (name_of officer) false].
      rewrite !app_nil_r. split; [done|]. split; [done|]. split; [done|].
      split; [right; by intros b ?%elem_of_nil|]. by left. }
  destruct (plan_of (name_of officer) results) as [| |aid]; simpl.
  - exists (world st), ({[officer_id_of officer]} ∪ scanned_officers st), [],
      [EvSearch (officer_id_of officer) (name_of officer) true].
    rewrite !app_nil_r. split; [done|]. split; [set_solver|]. split; [done|].
    split; [right; by intros b ?%elem_of_nil|].
    intros id [->%elem_of_singleton|?]%elem_of_union; [right|by left].
    split; [done|]. by intros b ?%elem_of_nil.
  - exists (world st), (scanned_officers st), [],
      [EvSearch (officer_id_of officer) (name_of officer) true].
    rewrite !app_nil_r. split; [done|]. split; [done|]. split; [done|].
    split; [right; by intros b ?%elem_of_nil|]. by left.
  - destruct (appointments_of reg aid) as [appts|e]; simpl.
    + rewrite enqueue_appointments_eq. simpl.
      assert (forall b, b ∈ omap (appointment_target active_only) appts ->
                b ∈ scanned_companies st \/
                (b, depth + 1) ∈ new_items active_only depth (scanned_companies st) appts)
        as Hserved.
      { intros b Hb. destruct (decide (b ∈ scanned_companies st)); [by left|right].
        by apply new_items_spec. }
      exists (world st), ({[officer_id_of officer]} ∪ scanned_officers st),
        (new_items active_only depth (scanned_companies st) appts),
        [EvSearch (officer_id_of officer) (name_of officer) true;
         EvAppointments aid true].
      split; [unfold_setters; by rewrite <- app_assoc|].
      split; [set_solver|]. split.
      { apply Forall_forall. intros it (? & ? & ?)%new_items_spec. done. }
      split; [by right|].
      intros id [->%elem_of_singleton|?]%elem_of_union; [right|by left]. done.
    + exists (world st), ({[officer_id_of officer]} ∪ scanned_officers st), [],
        [EvSearch (officer_id_of officer) (name_of officer) true;
         EvAppointments aid false].
      split; [unfold_setters; by rewrite <- app_assoc, !app_nil_r|].
      split; [set_solver|]. split; [done|].
      split; [right; by intros b ?%elem_of_nil|].
      intros id [->%elem_of_singleton|?]%elem_of_union; [right|by left].
      split; [done|]. by intros b ?%elem_of_nil.
Qed.

(** The officers of one company, against fixed answers. *)
Lemma officers_fold_pure company_number profile depth officers st :
  (forall o1 o2, o1 ∈ officers -> o2 ∈ officers ->
     officer_id_of o1 = officer_id_of o2 -> name_of o1 = name_of o2) ->
  exists w' officers' new evs,
    fold_left (officer_step api max_depth active_only company_number profile depth)
      officers st =
    {| world := w';
       scanned_companies := scanned_companies st;
       scanned_officers := officers';
       companies_to_scan := companies_to_scan st ++ new;
       network := record_appointments company_number profile depth officers (network st);
       trace := trace st ++ evs |}
    /\ scanned_officers st ⊆ officers'
    /\ Forall (fun it => it.2 = depth + 1 /\ depth < max_depth /\
                 exists o, o ∈ officers /\
                   it.1 ∈ officer_targets reg active_only (name_of o)) new
    /\ (depth < max_depth ->
         forall o, o ∈ officers ->
           officer_id_of o ∈ scanned_officers st \/
           served (scanned_companies st) depth new (name_of o))
    /\ (forall id, id ∈ officers' ->
           id ∈ scanned_officers st \/
           exists o, o ∈ officers /\ officer_id_of o = id /\
             served (scanned_companies st) depth new (name_of o)).
Proof.
  revert st. induction officers as [|o l IH]; intros st Hnames; simpl.
  { exists (world st), (scanned_officers st), [], [].
    rewrite !app_nil_r. split; [by destruct st|]. split; [done|]. split; [done|].
    split; [by intros _ o' ?%elem_of_nil|]. by left. }
  destruct (officer_step_pure company_number profile depth st o)
    as (w1 & O1 & new1 & evs1 & -> & Hsub1 & Hnew1 & Hserv1 & Hids1).
  destruct (IH {| world := w1; scanned_companies := scanned_companies st;
                  scanned_officers := O1;
                  companies_to_scan := companies_to_scan st ++ new1;
                  network := record_appointment company_number profile depth o (network st);
                  trace := trace st ++ evs1 |})
    as (w2 & O2 & new2 & evs2 & -> & Hsub2 & Hnew2 & Hserv2 & Hids2).
  { intros o1 o2 H1 H2. apply Hnames; by apply list_elem_of_further. }
  simpl in *. exists w2, O2, (new1 ++ new2), (evs1 ++ evs2).
  rewrite !app_assoc. split; [done|]. split; [set_solver|].
  assert (forall it : string * Z, it ∈ new1 -> it ∈ new1 ++ new2) as Hl
    by (intros it ?; apply elem_of_app; by left).
  assert (forall it : string * Z, it ∈ new2 -> it ∈ new1 ++ new2) as Hr
    by (intros it ?; apply elem_of_app; by right).
  assert (forall o', o' ∈ l -> officer_id_of o' = officer_id_of o ->
            served (scanned_companies st) depth new1 (name_of o) ->
            served (scanned_companies st) depth (new1 ++ new2) (name_of o')) as Hsame.
  { intros o' Ho' Hid Hs.
    rewrite (Hnames o' o); [|by apply list_elem_of_further|by apply list_elem_of_here|done].
    by eapply served_mono. }
  split; [|split].
  - apply Forall_app. split.
    + eapply Forall_impl; [apply Hnew1|]. intros it (? & ? & ?).
      split; [done|]. split; [done|]. exists o. split; [apply list_elem_of_here|done].
    + eapply Forall_impl; [apply Hnew2|]. intros it (? & ? & o' & ? & ?).
      split; [done|]. split; [done|]. exists o'. split; [by apply list_elem_of_further|done].
  - intros Hd o' [->|Ho']%elem_of_cons.
    + destruct (Hserv1 Hd) as [?|Hs]; [by left|right]. by eapply served_mono.
    + destruct (Hserv2 Hd o' Ho') as [Hin|Hs].
      * destruct (Hids1 _ Hin) as [?|[Hid Hs]]; [by left|right]. by apply Hsame.
      * right. by eapply served_mono.
  - intros id Hin. destruct (Hids2 id Hin) as [Hin1|(o' & Ho' & Hid & Hs)].
    + destruct (Hids1 _ Hin1) as [?|[-> Hs]]; [by left|right].
      exists o. split; [apply list_elem_of_here|]. split; [done|].
      by eapply served_mono.
    + right. exists o'. split; [by apply list_elem_of_further|]. split; [done|].
      by eapply served_mono.
Qed.

Definition same_view {W} (st st' : @ScanState W) : Prop :=
  scanned_companies st' = scanned_companies st /\
  scanned_officers st' = scanned_officers st /\
  companies_to_scan st' = companies_to_scan st /\
  net_companies (network st') = net_companies (network st).

Lemma officers_at_expandable a o :
  o ∈ officers_at reg active_only a -> expandable reg active_only a.
Proof.
  unfold officers_at, expandable.
  destruct (profile_of reg a) as [p|]; [|by intros ?%elem_of_nil].
  destruct (officers_of reg a) as [os|]; [|by intros ?%elem_of_nil].
  destruct active_only; simpl.
  - destruct (status_is_active p) eqn:E; simpl; [|by intros ?%elem_of_nil].
    intros _. by exists p, os.
  - intros _. by exists p, os.
Qed.

Lemma hop_expandable a b : hop reg active_only a b -> expandable reg active_only a.
Proof. intros (o & Ho & _). by eapply officers_at_expandable. Qed.

(** One turn against fixed answers: either nothing but the client's log
    changes (the item is dropped, or the company cannot be recorded), or the
    company is recorded at the depth of the item and the companies its
    officers lead to are appended one level deeper. *)
Lemma turn_pure company_number depth (st : @ScanState unit) :
  let st' := turn api max_depth active_only company_number depth st in
  ((company_number ∈ scanned_companies st \/ max_depth < depth \/
    ~ expandable reg active_only company_number) /\ same_view st st') \/
  ((company_number ∉ scanned_companies st) /\ depth <= max_depth /\
   expandable reg active_only company_number /\
   exists new,
     scanned_companies st' = {[company_number]} ∪ scanned_companies st /\
     companies_to_scan st' = companies_to_scan st ++ new /\
     (forall x, depth_of st' x =
                if decide (x = company_number) then Some depth else depth_of st x) /\
     scanned_officers st ⊆ scanned_officers st' /\
     Forall (fun it => it.2 = depth + 1 /\ depth < max_depth /\
                       hop reg active_only company_number it.1) new /\
     (depth < max_depth ->
      forall o, o ∈ officers_at reg active_only company_number ->
        officer_id_of o ∈ scanned_officers st \/
        served ({[company_number]} ∪ scanned_companies st) depth new (name_of o)) /\
     (forall id, id ∈ scanned_officers st' ->
        id ∈ scanned_officers st \/
        exists o, o ∈ officers_at reg active_only company_number /\
          officer_id_of o = id /\
          served ({[company_number]} ∪ scanned_companies st) depth new (name_of o))).
Proof.
  simpl. unfold turn.
  destruct (bool_decide (company_number ∈ scanned_companies st)) eqn:Hin; simpl.
  { left. apply bool_decide_eq_true in Hin. split; [by left|done]. }
  apply bool_decide_eq_false in Hin.
  destruct (Z.gtb_spec depth max_depth) as [Hgt|Hle].
  { left. split; [right; left; lia|done]. }
  rewrite expand_run. simpl.
  assert (forall (p : Profile) (os : list Officer),
            profile_of reg company_number = Ok p ->
            officers_of reg company_number = Ok os ->
            active_only && negb (status_is_active p) = false ->
            officers_at reg active_only company_number = officers_kept active_only os)
    as Hat.
  { intros p os Hp Ho Hact. unfold officers_at. by rewrite Hp, Ho, Hact. }
  destruct (profile_of reg company_number) as [p|e] eqn:Hp; simpl.
  2:{ left. split; [|done]. right; right. intros (p' & os' & ? & _). congruence. }
  destruct (active_only && negb (status_is_active p)) eqn:Hact; simpl.
  { left. split; [|done]. right; right. intros (p' & os' & Hp' & Hok & _).
    assert (p' = p) as -> by congruence.
    apply andb_true_iff in Hact as [-> Hna]. rewrite Hok in Hna; done. }
  destruct (officers_of reg company_number) as [os|e] eqn:Ho; simpl.
  2:{ left. split; [|done]. right; right. intros (p' & os' & _ & _ & ?). congruence. }
  right. split; [done|]. split; [done|]. split.
  { exists p, os. split; [done|]. split; [|done]. intros ->. simpl in Hact.
    by apply negb_false_iff in Hact. }
  specialize (Hat p os eq_refl eq_refl Hact).
  destruct (officers_fold_pure company_number p depth (officers_kept active_only os)
              (store_company company_number p depth (officers_kept active_only os)
                 (log (EvOfficers company_number true)
                    (set_world (world st)
                       (log (EvProfile company_number true) (set_world (world st) st))))))
    as (w' & O' & new & evs & -> & Hsub & Hnew & Hserv & Hids).
  { intros o1 o2 H1 H2. rewrite <- Hat in H1, H2.
    apply (key_names company_number company_number); done. }
  simpl in *. exists new. split; [done|]. split; [done|]. split.
  { intros x. unfold depth_of. simpl. rewrite record_appointments_companies. simpl.
    destruct (decide (x = company_number)) as [->|Hne].
    - by rewrite dict_get_set_eq.
    - by rewrite dict_get_set_ne. }
  split; [done|]. rewrite Hat. split; [|done].
  eapply Forall_impl; [apply Hnew|]. intros it (? & ? & o & Ho' & Ht).
  split; [done|]. split; [done|]. exists o. by rewrite Hat.
Qed.

(** *** What a breadth-first crawl keeps

    The work list is ordered by depth and spans at most two levels, [L] and
    [L + 1], no company is recorded deeper than [L]; every depth, recorded or
    queued, is the length of a chain of hops from a seed; and whatever a
    recorded company or a visited officer leads to is recorded or queued, one
    level deeper at most. *)

Record bfs_inv (st : @ScanState unit) : Prop := {
  bi_keys : forall c, c ∈ scanned_companies st <-> is_Some (depth_of st c);
  bi_level : exists L,
    (forall c d, depth_of st c = Some d -> d <= L) /\
    Forall (fun it => L <= it.2 <= L + 1) (companies_to_scan st);
  bi_sorted : ordered (companies_to_scan st);
  bi_bound : Forall (fun it => it.2 <= max_depth) (companies_to_scan st);
  bi_sound_q :
    Forall (fun it => exists n : nat,
              it.2 = Z.of_nat n /\ hops reg active_only seed_companies n it.1)
      (companies_to_scan st);
  bi_sound_s : forall c d,
    depth_of st c = Some d ->
    d <= max_depth /\ expandable reg active_only c /\
    exists n : nat, d = Z.of_nat n /\ hops reg active_only seed_companies n c;
  bi_seeds : forall s,
    s ∈ seed_companies -> expandable reg active_only s ->
    (exists d, depth_of st s = Some d /\ d <= 0) \/ (s, 0) ∈ companies_to_scan st;
  bi_edges : forall a da b,
    depth_of st a = Some da -> da < max_depth ->
    hop reg active_only a b -> expandable reg active_only b ->
    (exists db, depth_of st b = Some db /\ db <= da + 1) \/
    (exists d', (b, d') ∈ companies_to_scan st /\ d' <= da + 1);
  bi_officers : forall id,
    id ∈ scanned_officers st ->
    exists o a,
      o ∈ officers_at reg active_only a /\ officer_id_of o = id /\
      forall b, b ∈ officer_targets reg active_only (name_of o) ->
        expandable reg active_only b ->
        b ∈ scanned_companies st \/ b ∈ (companies_to_scan st).*1 }.

Lemma bfs_inv_initial self :
  0 <= max_depth ->
  bfs_inv (initial_state max_depth self seed_companies).
Proof.
  intros Hdepth. split; simpl.
  - intros c. unfold depth_of. simpl. split; [set_solver|]. by intros [? ?].
  - exists 0. split; [done|]. apply Forall_map, Forall_forall. intros; simpl; lia.
  - unfold ordered. induction seed_companies as [|s l IH]; simpl; constructor; [done|].
    apply Forall_map, Forall_forall. intros; simpl; lia.
  - apply Forall_map, Forall_forall. by intros.
  - apply Forall_map, Forall_forall. intros s Hs. exists O. split; [done|].
    by constructor.
  - done.
  - intros s Hs _. right. by apply (list_elem_of_fmap_2 (fun cnum => (cnum, 0))).
  - done.
  - set_solver.
Qed.

Lemma bfs_inv_turn st company_number depth rest :
  bfs_inv st ->
  companies_to_scan st = (company_number, depth) :: rest ->
  bfs_inv (turn api max_depth active_only company_number depth
             (set_companies_to_scan rest st)).
Proof.
  intros [Hkeys (L & HrecL & HqL) Hsorted Hbound Hsq Hss Hseeds Hedges Hoff] Hq.
  unfold ordered in Hsorted. rewrite Hq in *.
  inversion HqL as [|? ? HdL HrestL]; subst.
  inversion Hsorted as [|? ? Hsorted' Hge]; subst.
  inversion Hbound as [|? ? Hdb Hbound']; subst.
  inversion Hsq as [|? ? (n & Hdn & Hhops) Hsq']; subst.
  simpl in HdL, Hdb, Hdn, Hhops.
  assert (Forall (fun it : string * Z => depth <= it.2 <= depth + 1) rest) as Hlevel.
  { rewrite Forall_forall in HrestL, Hge. apply Forall_forall. intros it Hit.
    specialize (HrestL it Hit). specialize (Hge it Hit). simpl in *. lia. }
  assert (forall c d, depth_of st c = Some d -> d <= depth) as Hrec
    by (intros c d Hc; specialize (HrecL c d Hc); lia).
  assert (forall b, b ∈ scanned_companies st ->
            exists db, depth_of st b = Some db /\ db <= depth) as Hvisited.
  { intros b [db Hb]%Hkeys. exists db. split; [done|]. by eapply Hrec. }
  set (st_p := set_companies_to_scan rest st).
  destruct (turn_pure company_number depth st_p)
    as [[Hreason (HS & HO & HQ & HC)]
       |(Hnin & Hle & Hexp & new & HS & HQ & HD & HO & Hnew & Hserv & Hids)];
    simpl in *.
  - (* nothing is recorded *)
    assert (forall x, depth_of (turn api max_depth active_only company_number depth st_p) x =
                      depth_of st x) as HD
      by (intros x; unfold depth_of; by rewrite HC).
    assert (expandable reg active_only company_number ->
            company_number ∈ scanned_companies st) as Hpopped.
    { intros Hexp. destruct Hreason as [?|[?|?]]; [done|lia|done]. }
    split.
    + intros c. rewrite HS, HD. apply Hkeys.
    + exists depth. split; [intros c d; rewrite HD; apply Hrec|by rewrite HQ].
    + by rewrite HQ.
    + by rewrite HQ.
    + by rewrite HQ.
    + intros c d. rewrite HD. apply Hss.
    + intros s Hs Hexp. rewrite HD, HQ.
      destruct (Hseeds s Hs Hexp) as [?|[[= -> <-]|?]%elem_of_cons]; [by left| |by right].
      left. destruct (Hvisited _ (Hpopped Hexp)) as (db & ? & ?). by exists db.
    + intros a da b. rewrite HD, HQ. intros Ha Hlt Hhop Hexp.
      destruct (Hedges a da b Ha Hlt Hhop Hexp)
        as [(db & ? & ?)|(d' & [[= -> ->]|?]%elem_of_cons & ?)].
      * left. exists db. by rewrite HD.
      * left. destruct (Hvisited _ (Hpopped Hexp)) as (db & ? & ?).
        exists db. rewrite HD. split; [done|lia].
      * right. by exists d'.
    + intros id. rewrite HO. intros Hid.
      destruct (Hoff id Hid) as (o & a & Ho & Hoid & Htargets).
      exists o, a. split; [done|]. split; [done|]. intros b Hb Hexp.
      rewrite HS, HQ.
      destruct (Htargets b Hb Hexp) as [?|[->|?]%elem_of_cons]; [by left| |by right].
      left. by apply Hpopped.
  - (* the company is recorded *)
    assert (forall x,
              depth_of (turn api max_depth active_only company_number depth st_p) x =
              if decide (x = company_number) then Some depth else depth_of st x) as HD'
      by apply HD.
    clear HD. rename HD' into HD.
    assert (forall b, b ∈ {[company_number]} ∪ scanned_companies st ->
              exists db,
                depth_of (turn api max_depth active_only company_number depth st_p) b =
                Some db /\ db <= depth) as Hvisited'.
    { intros b Hb. rewrite HD. destruct (decide (b = company_number)) as [->|Hne]; simpl.
      - by exists depth.
      - apply Hvisited. set_solver. }
    assert (forall x dx, depth_of st x = Some dx ->
              depth_of (turn api max_depth active_only company_number depth st_p) x =
              Some dx) as Hold.
    { intros x dx Hx. rewrite HD. destruct (decide (x = company_number)) as [->|Hne];
        simpl; [|done].
      exfalso. apply Hnin, Hkeys. by eexists. }
    split.
    + intros c. rewrite HS, HD. destruct (decide (c = company_number)) as [->|Hne]; simpl.
      * split; [by eexists|set_solver].
      * rewrite <- Hkeys. set_solver.
    + exists depth. split.
      * intros c d. rewrite HD. destruct (decide (c = company_number)); simpl;
          [|apply Hrec].
        intros [= <-]. lia.
      * rewrite HQ. apply Forall_app. split; [done|].
        eapply Forall_impl; [apply Hnew|]. intros it (-> & _). lia.
    + rewrite HQ. unfold ordered.
      assert (forall l : list (string * Z),
                StronglySorted (fun x y : string * Z => x.2 <= y.2) l ->
                Forall (fun it => it.2 <= depth + 1) l ->
                StronglySorted (fun x y : string * Z => x.2 <= y.2) (l ++ new)) as Happ.
      { induction 1 as [|x l Hl IH Hx]; intros Hb; simpl.
        - clear -Hnew. induction Hnew as [|it new (Hit & _) Hnew IH]; constructor; [done|].
          eapply Forall_impl; [apply Hnew|]. intros it' (-> & _). lia.
        - inversion Hb as [|? ? Hxb Hb']; subst. constructor; [by apply IH|].
          apply Forall_app. split; [done|].
          eapply Forall_impl; [apply Hnew|]. intros it' (-> & _). lia. }
      apply Happ; [done|]. eapply Forall_impl; [apply Hlevel|]. intros; simpl in *; lia.
    + rewrite HQ. apply Forall_app. split; [done|].
      eapply Forall_impl; [apply Hnew|]. intros it (-> & ? & _). lia.
    + rewrite HQ. apply Forall_app. split; [done|].
      eapply Forall_impl; [apply Hnew|]. intros it (-> & ? & Hhop).
      exists (S n). split; [lia|]. by eapply hops_step.
    + intros c d. rewrite HD. destruct (decide (c = company_number)) as [->|Hne];
        simpl; [|apply Hss].
      intros [= <-]. split; [done|]. split; [done|]. by exists n.
    + intros s Hs Hexp_s. rewrite HQ.
      destruct (Hseeds s Hs Hexp_s) as [(ds & Hds & ?)|[[= -> <-]|?]%elem_of_cons].
      * left. exists ds. split; [by apply Hold|done].
      * left. exists 0. rewrite HD. by rewrite decide_True.
      * right. apply elem_of_app. by left.
    + intros a da b. rewrite HQ, (HD a). intros Ha Hlt Hhop Hexp_b.
      destruct (decide (a = company_number)) as [->|Hne]; simpl in Ha.
      * injection Ha as <-. destruct Hhop as (o & Ho & Hb).
        assert (b ∈ {[company_number]} ∪ scanned_companies st \/
                b ∈ (rest ++ new).*1) as [Hin|Hin].
        { destruct (Hserv Hlt o Ho) as [Hid|Hs].
          - destruct (Hoff _ Hid) as (o0 & a0 & Ho0 & Hoid & Htargets).
            rewrite <- (key_names _ _ _ _ Ho Ho0) in Htargets by done.
            destruct (Htargets b Hb Hexp_b) as [?|[->|?]%elem_of_cons].
            + left. set_solver.
            + left. set_solver.
            + right. rewrite fmap_app. apply elem_of_app. by left.
          - destruct (Hs b Hb) as [?|Hin]; [by left|right].
            rewrite fmap_app. apply elem_of_app. right.
            by apply (list_elem_of_fmap_2 fst) in Hin. }
        -- left. destruct (Hvisited' b Hin) as (db & ? & ?). exists db.
           split; [done|lia].
        -- right. apply list_elem_of_fmap in Hin as ([b' d'] & -> & Hin). simpl.
           exists d'. split; [done|].
           apply elem_of_app in Hin as [Hin|Hin].
           ++ rewrite Forall_forall in Hlevel. specialize (Hlevel _ Hin). simpl in *. lia.
           ++ rewrite Forall_forall in Hnew. destruct (Hnew _ Hin) as (? & _).
              simpl in *. lia.
      * destruct (Hedges a da b Ha Hlt Hhop Hexp_b)
          as [(db & ? & ?)|(d' & [[= -> ->]|?]%elem_of_cons & ?)].
        -- left. exists db. split; [by apply Hold|done].
        -- left. exists depth. rewrite HD. by rewrite decide_True.
        -- right. exists d'. split; [|done]. apply elem_of_app. by left.
    + intros id Hid. rewrite HS, HQ.
      destruct (Hids id Hid) as [Hin|(o & Ho & Hoid & Hs)].
      * destruct (Hoff id Hin) as (o & a & Ho & Hoid & Htargets).
        exists o, a. split; [done|]. split; [done|]. intros b Hb Hexp_b.
        destruct (Htargets b Hb Hexp_b) as [?|[->|?]%elem_of_cons].
        -- left. set_solver.
        -- left. set_solver.
        -- right. rewrite fmap_app. apply elem_of_app. by left.
      * exists o, company_number. split; [done|]. split; [done|].
        intros b Hb _. destruct (Hs b Hb) as [?|Hin]; [by left|right].
        rewrite fmap_app. apply elem_of_app. right.
        by apply (list_elem_of_fmap_2 fst) in Hin.
Qed.

Lemma bfs_inv_run n self :
  0 <= max_depth ->
  bfs_inv (scan_run api max_depth max_companies active_only n
             (initial_state max_depth self seed_companies)).
Proof.
  intros Hdepth. apply scan_run_invariant; [|by apply bfs_inv_initial].
  intros st Hinv Hc.
  destruct (loop_body_turn api max_depth max_companies active_only st Hc)
    as (c & d & rest & Hq & _ & ->).
  simpl. by apply bfs_inv_turn.
Qed.

(** A company fewer than [bound] hops away, [bound] being below every depth
    in the work list, is recorded no deeper than it is away. *)
Lemma near_companies_recorded st (bound : Z) :
  bfs_inv st ->
  bound <= max_depth ->
  Forall (fun it => bound <= it.2) (companies_to_scan st) ->
  forall k v,
    hops reg active_only seed_companies k v ->
    expandable reg active_only v ->
    Z.of_nat k < bound ->
    exists dv, depth_of st v = Some dv /\ dv <= Z.of_nat k.
Proof.
  intros [_ _ _ _ _ _ Hseeds Hedges _] Hbound Hq.
  rewrite Forall_forall in Hq.
  induction 1 as [s Hs|k a b Hhops IH Hhop]; intros Hexp Hlt.
  - destruct (Hseeds s Hs Hexp) as [(d & ? & ?)|Hin]; [by exists d|].
    specialize (Hq _ Hin). simpl in Hq. lia.
  - destruct IH as (da & Ha & Hda); [by eapply hop_expandable|lia|].
    destruct (Hedges a da b Ha ltac:(lia) Hhop Hexp) as [(db & ? & ?)|(d' & Hin & ?)].
    + exists db. split; [done|lia].
    + specialize (Hq _ Hin). simpl in Hq. lia.
Qed.

Lemma recorded_depth_minimal st c d :
  bfs_inv st -> depth_of st c = Some d -> min_hops reg active_only seed_companies c d.
Proof.
  intros Hinv Hc.
  destruct (bi_sound_s st Hinv c d Hc) as (Hmax & Hexp & n & -> & Hhops).
  exists n. split; [done|]. split; [done|]. intros m Hm.
  destruct (decide (n <= m)%nat) as [|Hlt]; [done|exfalso].
  destruct (bi_level st Hinv) as (L & HrecL & HqL).
  destruct (near_companies_recorded st (Z.of_nat n) Hinv Hmax) with (k := m) (v := c)
    as (dv & Hdv & Hle); [|done|done|lia|].
  - eapply Forall_impl; [apply HqL|]. intros it ?. specialize (HrecL c _ Hc).
    simpl in *. lia.
  - rewrite Hc in Hdv. injection Hdv as <-. lia.
Qed.

(** With a negative [max_depth] every seed is dropped. *)
Lemma nothing_recorded_below_zero n self :
  max_depth < 0 ->
  net_companies
    (network (scan_run api max_depth max_companies active_only n
                (initial_state max_depth self seed_companies))) = [].
Proof.
  intros Hneg.
  enough (let st := scan_run api max_depth max_companies active_only n
                      (initial_state max_depth self seed_companies) in
          net_companies (network st) = [] /\
          Forall (fun it => it.2 = 0) (companies_to_scan st)) as [? _]; [done|].
  apply (scan_run_invariant api max_depth max_companies active_only
           (fun st => net_companies (network st) = [] /\
                      Forall (fun it => it.2 = 0) (companies_to_scan st))).
  - intros st [Hnone Hzero] Hc.
    destruct (loop_body_turn api max_depth max_companies active_only st Hc)
      as (c & d & rest & Hq & _ & ->).
    rewrite Hq in Hzero. inversion Hzero as [|? ? Hd Hrest]; subst. simpl in *. subst d.
    destruct (turn_shape api max_depth active_only c 0 (set_companies_to_scan rest st))
      as [_| | ]; simpl; [done|lia|lia].
  - split; [done|]. simpl. apply Forall_map, Forall_forall. by intros.
Qed.

(** C1, as the code has it. A hop is a step of the scanner's fan-out
    ([hop]): it leads from a company that can be recorded, through an
    officer recorded there whose name is not that of a company, to a company
    that the appointments of the search result taken for that name list and
    that passes the [active_only] filter. Against a registry whose answers
    do not change during the crawl and in which officers recorded under one
    identity key carry one name, every company in the snapshot has as its
    depth the minimum number of hops from a seed company. At every turn the
    work list is in non-decreasing order of depth, so that items are dequeued
    in that order, and a depth once recorded is never changed. *)
Theorem recorded_depth_is_min_hops self :
  let run n :=
    scan_run api max_depth max_companies active_only n
      (initial_state max_depth self seed_companies) in
  returned
    (scan_network api max_depth max_companies active_only self seed_companies)
    (fun net _ _ =>
       forall c node,
         dict_get c (net_companies net) = Some node ->
         min_hops reg active_only seed_companies c (cn_depth node)) /\
  (forall n, ordered (companies_to_scan (run n))) /\
  (forall n k c d,
     depth_of (run n) c = Some d -> depth_of (run (n + k)%nat) c = Some d).
Proof.
  intros run. split; [|split].
  - apply scan_network_returned. intros n st _ c node Hc. simpl in Hc.
    destruct (Z.lt_ge_cases max_depth 0) as [Hneg|Hdepth].
    + subst st. by rewrite (nothing_recorded_below_zero n self Hneg) in Hc.
    + apply (recorded_depth_minimal st); [by apply bfs_inv_run|].
      unfold depth_of. by rewrite Hc.
  - intros n. apply two_levels_run.
  - intros n k c d. apply depth_kept_run.
Qed.

End Bfs.

(** The condition on identity keys is needed: with two officers of the seed
    under one key, the search for the second is skipped, and BB000002, one
    hop away through him, is recorded two hops deep. *)
Lemma colliding_keys_hide_a_hop :
  returned
    (scan_network (client_of Sample.colliding_keys) 2 100 true (new_scanner tt)
       ["AA000001"%string])
    (fun net _ _ =>
       (cn_depth <$> dict_get "BB000002" (net_companies net)) = Some 2 /\
       min_hops Sample.colliding_keys true ["AA000001"%string] "BB000002" 1).
Proof.
  run_scan 10%nat. split; [vm_compute; reflexivity|].
  exists 1%nat. split; [done|]. split.
  - apply (hops_step _ _ _ O "AA000001"%string); [constructor; set_solver|].
    exists (Sample.director "PAT" "X_1").
    split; vm_compute; set_solver.
  - intros m Hm. inversion Hm as [s Hs|]; subst; [|lia].
    apply list_elem_of_singleton in Hs. discriminate.
Qed.

(** The condition holds in a registry whose appointment dates contain no
    underscore: the name is then the part of the key before its last
    underscore. *)
Lemma append_cons c x y : String c x +:+ y = String c (x +:+ y).
Proof. reflexivity. Qed.

Lemma contains_underscore_app x y :
  PyStr.contains "_" (x +:+ String "_" y) = true.
Proof.
  induction x as [|c x IH].
  - change ("" +:+ String "_" y) with (String "_" y). by destruct y.
  - rewrite append_cons. simpl. rewrite IH. apply orb_true_r.
Qed.

Lemma key_determines_name n1 n2 d1 d2 :
  PyStr.contains "_" d1 = false ->
  PyStr.contains "_" d2 = false ->
  n1 +:+ String "_" d1 = n2 +:+ String "_" d2 ->
  n1 = n2.
Proof.
  intros H1 H2. revert n2.
  induction n1 as [|c n1 IH]; intros [|c2 n2] Heq.
  - done.
  - change ("" +:+ String "_" d1) with (String "_" d1) in Heq.
    rewrite append_cons in Heq. injection Heq as _ ->.
    by rewrite contains_underscore_app in H1.
  - change ("" +:+ String "_" d2) with (String "_" d2) in Heq.
    rewrite append_cons in Heq. injection Heq as _ <-.
    by rewrite contains_underscore_app in H2.
  - rewrite !append_cons in Heq. injection Heq as -> Heq. f_equal. by apply IH.
Qed.

Lemma plain_dates_name_officers reg active_only :
  (forall a o, o ∈ officers_at reg active_only a ->
     PyStr.contains "_" (default ""%string (o_appointed_on o)) = false) ->
  keys_name_officers reg active_only.
Proof.
  intros Hdates a b oa ob Ha Hb Hid. unfold officer_id_of in Hid.
  apply (key_determines_name _ _ (default ""%string (o_appointed_on oa))
           (default ""%string (o_appointed_on ob)));
    [by eapply Hdates | by eapply Hdates | exact Hid].
Qed.

Lemma three_companies_keys : keys_name_officers Sample.three_companies true.
Proof.
  assert (forall c o,
            o ∈ officers_at Sample.three_companies true c ->
            o ∈ [Sample.director "ALICE ARCHER" "2010-01-01";
                 Sample.director "ADAM BAKER" "2011-01-01";
                 Sample.director "ADAM BAKER" "2013-01-01";
                 Sample.director "CAROL DOYLE" "2014-01-01"]) as Hall.
  { intros c o. unfold officers_at. simpl.
    destruct (String.eqb c "AA000001"); [vm_compute; set_solver|].
    destruct (String.eqb c "BB000002"); [vm_compute; set_solver|].
    destruct (String.eqb c "CC000003"); [vm_compute; set_solver|].
    simpl. by intros ?%elem_of_nil. }
  intros a b oa ob Ha%Hall Hb%Hall Hid.
  repeat (apply elem_of_cons in Ha as [->|Ha]); [| | | |by apply elem_of_nil in Ha];
    (repeat (apply elem_of_cons in Hb as [->|Hb]); [| | | |by apply elem_of_nil in Hb]);
    first [reflexivity | discriminate Hid].
Qed.

(** A director shared in the snapshot is not a hop. ALICE is recorded on
    the boards of AA000001 and BB000002 under one identity key, so that the
    two companies are adjacent in the snapshot; but the appointments found
    under her name do not list BB000002, no hop leads from the seed to it,
    and it is recorded two hops deep, through ADAM and CAROL. *)
Lemma shared_director_is_not_a_hop :
  returned
    (scan_network (client_of SampleHops.unlisted_seat) 2 100 true (new_scanner tt)
       ["AA000001"%string])
    (fun net _ _ =>
       adjacent (net_connections net) "AA000001" "BB000002" /\
       (cn_depth <$> dict_get "BB000002" (net_companies net)) = Some 2) /\
  ~ hop SampleHops.unlisted_seat true "AA000001" "BB000002".
Proof.
  split.
  - run_scan 10%nat. split; [|vm_compute; reflexivity].
    exists {| c_company_number := "AA000001"; c_company_name := Some "ALPHA"%string;
              c_director_id := "ALICE ARCHER_2010-01-01";
              c_director_name := "ALICE ARCHER"; c_role := "director"; c_depth := 0 |},
           {| c_company_number := "BB000002"; c_company_name := Some "BETA"%string;
              c_director_id := "ALICE ARCHER_2010-01-01";
              c_director_name := "ALICE ARCHER"; c_role := "director"; c_depth := 2 |}.
    vm_compute. repeat split; set_solver.
  - intros (o & Ho & Hb). vm_compute in Ho.
    repeat (apply elem_of_cons in Ho as [->|Ho]); [| |by apply elem_of_nil in Ho];
      vm_compute in Hb; set_solver.
Qed.

Lemma recorded_depth_witness :
  keys_name_officers Sample.three_companies true /\
  returned
    (scan_network (client_of Sample.three_companies) 2 100 true (new_scanner tt)
       ["AA000001"%string])
    (fun net _ _ =>
       forall c node,
         dict_get c (net_companies net) = Some node ->
         min_hops Sample.three_companies true ["AA000001"%string] c (cn_depth node)).
Proof.
  split; [exact three_companies_keys|].
  apply (proj1 (recorded_depth_is_min_hops Sample.three_companies 2 100 true
                  ["AA000001"%string] three_companies_keys (new_scanner tt))).
Defined.

(** * More of the code

    The rest of [NetworkScanner] and of [RateLimiter], the calls of
    [src/api_client.py] that the scanner is served by, and the callers of
    both. The models come first, the properties after them. *)

(** ** Shared directors

    [find_shared_directors], lines 225-256. *)

Record SharedCompany := {
  sc_company_number : string;
  sc_company_name : option string;
  sc_role : string }.

Record SharedDirector := {
  sd_director_id : string;
  sd_director_name : string;
  sd_company_count : nat;
  sd_companies : list SharedCompany }.

(** Lines 239-251: the entry appended for one director. *)
Definition shared_entry (director_id : string) (director_data : Director) : SharedDirector :=
  {| sd_director_id := director_id;
     sd_director_name := d_name director_data;
     sd_company_count := d_company_count director_data;
     sd_companies :=
       map (fun appt =>
              {| sc_company_number := ar_company_number appt;
                 sc_company_name := ar_company_name appt;
                 sc_role := ar_role appt |})
         (d_appointments director_data) |}.

(** Lines 235-251: the entries in the order of the directors map. *)
Definition collect_shared (net : Network) : list SharedDirector :=
  map (fun kv : string * Director => shared_entry kv.1 kv.2)
    (List.filter (fun kv : string * Director => (1 <? d_company_count kv.2)%nat)
       (net_directors net)).

(** [shared.sort(key=lambda x: x['company_count'], reverse=True)]: stable,
    so determined; here by insertion. *)
Fixpoint insert_by_count (entry : SharedDirector) (sorted : list SharedDirector)
    : list SharedDirector :=
  match sorted with
  | [] => [entry]
  | e :: rest =>
      if (sd_company_count entry <? sd_company_count e)%nat
      then e :: insert_by_count entry rest
      else entry :: sorted
  end.

Definition sort_by_count_desc (shared : list SharedDirector) : list SharedDirector :=
  foldr insert_by_count [] shared.

Definition find_shared_directors (net : Network) : list SharedDirector :=
  sort_by_count_desc (collect_shared net).

(** ** The rate limiter: queries and reset

    [get_remaining_requests], [get_reset_time] and [reset] of
    [src/core/rate_limiter.py], on the limiter of [RateLimiter]. *)

Module RateLimiterQueries.
Import RateLimiter.

(** [get_remaining_requests], lines 52-59: the limiter afterwards and the
    value returned. *)
Definition get_remaining_requests (self : t) (clock : Z) : t * Z :=
  let now := clock in
  let requests1 := prune now (period self) (requests self) in
  (set_requests requests1 self, max_requests self - Z.of_nat (length requests1)).

(** [get_reset_time], lines 61-69. *)
Definition get_reset_time (self : t) (clock : Z) : Z :=
  match requests self with
  | [] => 0
  | oldest :: _ =>
      let now := clock in
      let reset_time := oldest + period self - now in
      Z.max 0 reset_time
  end.

(** [reset], lines 71-74. *)
Definition reset (self : t) : t := set_requests [] self.

End RateLimiterQueries.

Module RateLimiterClock.
Import RateLimiter.

(** [acquire], lines 27-50, with both readings of the clock: [clock] at
    line 33 and, when the call sleeps, [clock_after_sleep] at line 46.
    Returned are the limiter, the instant of the grant and the time passed
    to [time.sleep], if any. [RateLimiter.acquire] is the call whose sleep
    ends exactly on time ([acquire_on_time]). *)
Definition acquire_rereading (self : t) (clock clock_after_sleep : Z)
    : result (t * Z * option Z) :=
  let now := clock in
  let requests1 := prune now (period self) (requests self) in
  if Z.of_nat (length requests1) >=? max_requests self then
    match requests1 with
    | [] => Raise IndexError
    | oldest :: _ =>
        let sleep_time := oldest + period self - now in
        if sleep_time >? 0 then
          let now := clock_after_sleep in
          let requests2 := prune now (period self) requests1 in
          Ok (set_requests (requests2 ++ [now]) self, now, Some sleep_time)
        else Ok (set_requests (requests1 ++ [now]) self, now, None)
    end
  else Ok (set_requests (requests1 ++ [now]) self, now, None).

End RateLimiterClock.

(** ** The API client: paged requests and the profile cache

    [src/api_client.py]. [request_json] stands for
    [self._make_request(url, ...).json()]: the decoded body of the response,
    or the exception raised on the way. The query parameters are part of the
    request, absent when the call passes none. *)

Record Params := {
  pa_q : option string;
  pa_items_per_page : Z;
  pa_start_index : Z }.

Record Request := {
  rq_url : string;
  rq_params : option Params }.

(** The body of a list response; a field is [None] when the key is absent. *)
Record Page (A : Type) := {
  pg_items : option (list A);
  pg_total_results : option Z }.
Arguments pg_items {A} _.
Arguments pg_total_results {A} _.

Module CompaniesHouseClient.
Section Client.
Context {W A : Type}.
Variable request_json : Request -> W -> result (Page A) * W.
Variable base_url : string.

Definition officers_url (company_number : string) : string :=
  base_url +:+ "/company/" +:+ company_number +:+ "/officers".

(** [get_officers], lines 199-234: the [while True] loop, at most [fuel]
    turns of it ([None] when that is not enough). The dictionary [params] of
    lines 218-221 is built and not passed on (line 223). *)
Fixpoint get_officers_loop (fuel : nat) (company_number : string) (items_per_page : Z)
    (all_officers : list A) (start_index : Z) (w : W) : option (result (list A) * W) :=
  match fuel with
  | O => None
  | S fuel' =>
      match request_json
              {| rq_url := officers_url company_number; rq_params := None |} w with
      | (Raise e, w') => Some (Raise e, w')
      | (Ok data, w') =>
          let items := default [] (pg_items data) in
          let all_officers := all_officers ++ items in
          let total := default 0 (pg_total_results data) in
          if start_index + Z.of_nat (length items) >=? total
          then Some (Ok all_officers, w')
          else get_officers_loop fuel' company_number items_per_page all_officers
                 (start_index + items_per_page) w'
      end
  end.

Definition get_officers (fuel : nat) (company_number : string) (items_per_page : Z)
    (w : W) : option (result (list A) * W) :=
  get_officers_loop fuel company_number items_per_page [] 0 w.

Definition search_url : string := base_url +:+ "/search/officers".

(** [search_officers], lines 291-327. *)
Fixpoint search_officers_loop (fuel : nat) (officer_name : string) (items_per_page : Z)
    (all_results : list A) (start_index : Z) (w : W) : option (result (list A) * W) :=
  match fuel with
  | O => None
  | S fuel' =>
      match request_json
              {| rq_url := search_url;
                 rq_params := Some {| pa_q := Some officer_name;
                                      pa_items_per_page := items_per_page;
                                      pa_start_index := start_index |} |} w with
      | (Raise e, w') => Some (Raise e, w')
      | (Ok data, w') =>
          let items := default [] (pg_items data) in
          let all_results := all_results ++ items in
          let total := default 0 (pg_total_results data) in
          if (start_index + Z.of_nat (length items) >=? total) || (start_index >=? 200)
          then Some (Ok all_results, w')
          else search_officers_loop fuel' officer_name items_per_page all_results
                 (start_index + items_per_page) w'
      end
  end.

Definition search_officers (fuel : nat) (officer_name : string) (items_per_page : Z)
    (w : W) : option (result (list A) * W) :=
  search_officers_loop fuel officer_name items_per_page [] 0 w.

End Client.

Section Cache.
Context {W P : Type}.
Variable request_json : Request -> W -> result P * W.
Variable base_url : string.

(** [Config.CACHE_DIR / f"profile_{company_number}.json"], the directory
    apart. *)
Definition cache_file (company_number : string) : string :=
  "profile_" +:+ company_number +:+ ".json".

(** [get_company_profile], lines 78-103. The cache directory is a map from
    the names of its files to their decoded content: what [json.load] reads
    is what [json.dump] wrote. *)
Definition get_company_profile (company_number : string) (st : gmap string P * W)
    : result P * (gmap string P * W) :=
  match st.1 !! cache_file company_number with
  | Some data => (Ok data, st)
  | None =>
      match request_json
              {| rq_url := base_url +:+ "/company/" +:+ company_number;
                 rq_params := None |} st.2 with
      | (Raise e, w') => (Raise e, (st.1, w'))
      | (Ok data, w') => (Ok data, (<[cache_file company_number := data]> st.1, w'))
      end
  end.

End Cache.
End CompaniesHouseClient.

(** *** The status of the limiter, as the client reports it *)

(** [get_rate_limit_status], [src/api_client.py] lines 366-379: the limiter
    afterwards and the dictionary returned. The two readings of the clock
    are [clock1], inside [get_remaining_requests], and [clock2], inside
    [get_reset_time]. *)
Record RateLimitStatus := {
  st_remaining_requests : Z;
  st_reset_time_seconds : Z;
  st_max_requests : Z;
  st_period_seconds : Z }.

Definition get_rate_limit_status (rate_limiter : RateLimiter.t) (clock1 clock2 : Z)
    : RateLimiter.t * RateLimitStatus :=
  let '(rate_limiter1, remaining) :=
    RateLimiterQueries.get_remaining_requests rate_limiter clock1 in
  (rate_limiter1,
   {| st_remaining_requests := remaining;
      st_reset_time_seconds := RateLimiterQueries.get_reset_time rate_limiter1 clock2;
      st_max_requests := RateLimiter.max_requests rate_limiter1;
      st_period_seconds := RateLimiter.period rate_limiter1 |}).

(** ** The batch processor *)

(** The part of [results] that the network stage of
    [BatchProcessor.process_companies] writes. *)
Record BatchResults := {
  r_network : option Network;
  r_errors : list string }.

Section BatchStage.
Context {W : Type} {U : StrUpper}.
Variable api_client : AnyException.Client W.

(** [src/core/batch_processor.py], lines 110-129, the progress callback
    apart: [scan_network] is called with its default [max_companies]; an
    exception derived from [Exception] is turned into an entry of
    [results['errors']], any other is raised to the caller of
    [process_companies]. [fuel] is the number of turns allowed to the loop
    of [scan_network]. *)
Definition network_stage (fuel : nat) (scan_network_flag : bool) (network_depth : Z)
    (active_only : bool) (network_scanner : NetworkScanner) (company_numbers : list string)
    (results : BatchResults) : option (outcome BatchResults * NetworkScanner) :=
  if scan_network_flag then
    match AnyException.scan_network api_client network_depth 100 active_only fuel
            network_scanner company_numbers with
    | Some (Returns network, network_scanner', _) =>
        Some (Returns {| r_network := Some network; r_errors := r_errors results |},
              network_scanner')
    | Some (Raises (OfException e), network_scanner', _) =>
        Some (Returns {| r_network := r_network results;
                         r_errors := r_errors results ++ ["network_scan_error"%string] |},
              network_scanner')
    | Some (Raises (OfBaseException b), network_scanner', _) =>
        Some (Raises (OfBaseException b), network_scanner')
    | None => None
    end
  else Some (Returns results, network_scanner).

End BatchStage.


(** ** The snapshot of a scan, for any client *)

(** The calls an officer's fan-out may issue at [depth]: a search for a name
    that carries no corporate keyword, and an appointment lookup, both below
    [max_depth] only. *)
Definition lookup_event {U : StrUpper} (max_depth depth : Z) (e : event) : Prop :=
  match e with
  | EvSearch _ officer_name _ =>
      is_corporate_officer officer_name = false /\ depth < max_depth
  | EvAppointments _ _ => depth < max_depth
  | _ => False
  end.

Section Snapshot.
Context {W : Type} {U : StrUpper}.
Variables (api_client : Facade W) (max_depth max_companies : Z) (active_only : bool).

Lemma officer_step_detail company_number profile depth (st : @ScanState W) officer :
  let st' :=
    officer_step api_client max_depth active_only company_number profile depth st officer in
  scanned_companies st' = scanned_companies st /\
  network st' = record_appointment company_number profile depth officer (network st) /\
  scanned_officers st ⊆ scanned_officers st' /\
  scanned_officers st' ⊆ {[officer_id_of officer]} ∪ scanned_officers st /\
  exists new evs,
    companies_to_scan st' = companies_to_scan st ++ new /\
    Forall (fun it : string * Z => it.2 = depth + 1 /\ depth < max_depth) new /\
    trace st' = trace st ++ evs /\
    Forall (lookup_event max_depth depth) evs.
Proof.
  unfold officer_step.
  destruct (depth <? max_depth) eqn:Hd; simpl;
    [apply Z.ltb_lt in Hd|];
    [destruct (bool_decide (officer_id_of officer ∈ scanned_officers st)); simpl|];
    [| rewrite fan_out_run |].
  - repeat split; [set_solver|set_solver|]. exists [], []. by rewrite !app_nil_r.
  - destruct (is_corporate_officer _) eqn:Hcorp; simpl.
    { repeat split; [set_solver|set_solver|]. exists [], []. by rewrite !app_nil_r. }
    destruct (search_officers _ _ _) as [[results|e] w]; simpl.
    2:{ repeat split; [set_solver|set_solver|].
        exists [],
          [EvSearch (officer_id_of officer) (default ""%string (o_name officer)) false].
        rewrite !app_nil_r. repeat split; by repeat constructor. }
    destruct (plan_of _ results) as [| |aid]; simpl.
    + repeat split; [set_solver|set_solver|].
      exists [],
        [EvSearch (officer_id_of officer) (default ""%string (o_name officer)) true].
      rewrite !app_nil_r. repeat split; by repeat constructor.
    + repeat split; [set_solver|set_solver|].
      exists [],
        [EvSearch (officer_id_of officer) (default ""%string (o_name officer)) true].
      rewrite !app_nil_r. repeat split; by repeat constructor.
    + destruct (get_officer_appointments _ _ _) as [[appts|e] w']; simpl.
      * rewrite enqueue_appointments_eq. simpl.
        repeat split; [set_solver|set_solver|].
        exists (new_items active_only depth (scanned_companies st) appts),
          [EvSearch (officer_id_of officer) (default ""%string (o_name officer)) true;
           EvAppointments aid true].
        split; [done|]. split.
        { unfold new_items. apply Forall_map, Forall_forall. by intros. }
        split; [by rewrite <- app_assoc|]. by repeat constructor.
      * repeat split; [set_solver|set_solver|].
        exists [], [EvSearch (officer_id_of officer) (default ""%string (o_name officer)) true;
           EvAppointments aid false].
        rewrite !app_nil_r. split; [done|]. split; [done|].
        split; [by rewrite <- app_assoc|]. by repeat constructor.
  - repeat split; [set_solver|set_solver|]. exists [], []. by rewrite !app_nil_r.
Qed.

Lemma officers_fold_detail company_number profile depth officers (st : @ScanState W) :
  let st' :=
    fold_left (officer_step api_client max_depth active_only company_number profile depth)
      officers st in
  scanned_companies st' = scanned_companies st /\
  network st' = record_appointments company_number profile depth officers (network st) /\
  scanned_officers st ⊆ scanned_officers st' /\
  (forall officer_id, officer_id ∈ scanned_officers st' ->
     officer_id ∈ scanned_officers st \/ officer_id ∈ map officer_id_of officers) /\
  exists new evs,
    companies_to_scan st' = companies_to_scan st ++ new /\
    Forall (fun it : string * Z => it.2 = depth + 1 /\ depth < max_depth) new /\
    trace st' = trace st ++ evs /\
    Forall (lookup_event max_depth depth) evs.
Proof.
  revert st. induction officers as [|o l IH]; intros st; simpl.
  - repeat split; [done|by left|]. exists [], []. by rewrite !app_nil_r.
  - destruct (officer_step_detail company_number profile depth st o)
      as (Hc1 & Hn1 & Hlo1 & Hup1 & new1 & evs1 & Hq1 & Hnew1 & Ht1 & Hev1).
    destruct (IH (officer_step api_client max_depth active_only company_number profile depth st o))
      as (Hc2 & Hn2 & Hlo2 & Hup2 & new2 & evs2 & Hq2 & Hnew2 & Ht2 & Hev2).
    simpl in *. split; [congruence|]. split; [by rewrite Hn2, Hn1|].
    split; [set_solver|]. split.
    + intros officer_id Hin. destruct (Hup2 officer_id Hin) as [Hin1|Hin2].
      * apply Hup1 in Hin1. apply elem_of_union in Hin1 as [->%elem_of_singleton|?];
          [right; apply list_elem_of_here | by left].
      * right. by apply list_elem_of_further.
    + exists (new1 ++ new2), (evs1 ++ evs2).
      rewrite Hq2, Hq1, Ht2, Ht1, !app_assoc.
      repeat split; by apply Forall_app.
Qed.

(** The events of a turn that records nothing: the fetches of its company. *)
Definition fetch_event (company_number : string) (e : event) : Prop :=
  e = EvProfile company_number false \/
  e = EvProfile company_number true \/
  e = EvOfficers company_number false.

(** One turn of the loop, the item already popped: either nothing is written
    but the log of the fetches, or the company is recorded with the profile
    and the officers fetched for it, filtered as [active_only] asks. *)
Lemma turn_detail company_number depth (st : @ScanState W) :
  let st' := turn api_client max_depth active_only company_number depth st in
  (network st' = network st /\
   scanned_companies st' = scanned_companies st /\
   scanned_officers st' = scanned_officers st /\
   companies_to_scan st' = companies_to_scan st /\
   exists evs, trace st' = trace st ++ evs /\ Forall (fetch_event company_number) evs)
  \/
  (exists profile fetched new evs,
     let officers := officers_kept active_only fetched in
     (company_number ∉ scanned_companies st) /\
     depth <= max_depth /\
     (active_only = true -> status_is_active profile = true) /\
     network st' =
       record_appointments company_number profile depth officers
         (store_node company_number profile depth officers (network st)) /\
     scanned_companies st' = {[company_number]} ∪ scanned_companies st /\
     scanned_officers st ⊆ scanned_officers st' /\
     (forall officer_id, officer_id ∈ scanned_officers st' ->
        officer_id ∈ scanned_officers st \/ officer_id ∈ map officer_id_of officers) /\
     companies_to_scan st' = companies_to_scan st ++ new /\
     Forall (fun it : string * Z => it.2 = depth + 1 /\ depth < max_depth) new /\
     trace st' =
       trace st ++
       [EvProfile company_number true; EvOfficers company_number true;
        EvRecord company_number depth] ++ evs /\
     Forall (lookup_event max_depth depth) evs).
Proof.
  unfold turn.
  destruct (bool_decide (company_number ∈ scanned_companies st)) eqn:Hin; simpl.
  { left. repeat split. exists []. by rewrite app_nil_r. }
  apply bool_decide_eq_false in Hin.
  destruct (depth >? max_depth) eqn:Hd.
  { left. repeat split. exists []. by rewrite app_nil_r. }
  assert (depth <= max_depth) as Hle.
  { destruct (Z.gtb_spec depth max_depth); [done|lia]. }
  rewrite expand_run.
  destruct (get_company_profile _ _ _) as [[profile|e] w]; simpl.
  2:{ left. repeat split. exists [EvProfile company_number false].
      split; [done|]. by repeat (constructor; [unfold fetch_event; auto|]). }
  destruct (active_only && negb (status_is_active profile)) eqn:Hact; simpl.
  { left. repeat split. exists [EvProfile company_number true].
    split; [done|]. by repeat (constructor; [unfold fetch_event; auto|]). }
  destruct (get_officers _ _ _) as [[fetched|e] w']; simpl.
  2:{ left. repeat split.
      exists [EvProfile company_number true; EvOfficers company_number false].
      split; [by rewrite <- app_assoc|].
      by repeat (constructor; [unfold fetch_event; auto|]). }
  right.
  destruct (officers_fold_detail company_number profile depth (officers_kept active_only fetched)
              (store_company company_number profile depth (officers_kept active_only fetched)
                 (log (EvOfficers company_number true)
                    (set_world w' (log (EvProfile company_number true) (set_world w st))))))
    as (Hc & Hn & Hlo & Hup & new & evs & Hq & Hnew & Ht & Hev).
  exists profile, fetched, new, evs. simpl in *.
  split; [done|]. split; [done|]. split.
  { intros ->. simpl in Hact. by destruct (status_is_active profile). }
  split; [done|]. split; [done|]. split; [done|]. split; [done|].
  split; [done|]. split; [done|]. split; [|done].
  rewrite Ht. by rewrite <- !app_assoc.
Qed.

End Snapshot.

(** *** Dictionaries, continued *)

Section DictFacts.
Context {V : Type}.

Lemma dict_get_set k k' (v : V) d :
  dict_get k' (dict_set k v d) = if String.eqb k k' then Some v else dict_get k' d.
Proof.
  destruct (String.eqb_spec k k') as [->|Hne].
  - apply dict_get_set_eq.
  - by apply dict_get_set_ne.
Qed.

Lemma dict_set_fresh k (v : V) d :
  dict_get k d = None -> dict_set k v d = d ++ [(k, v)].
Proof.
  induction d as [|[k' v'] d IH]; simpl; [done|].
  destruct (String.eqb k k'); [done|]. intros H. by rewrite IH.
Qed.

Lemma dict_set_set k (v1 v2 : V) d :
  dict_set k v2 (dict_set k v1 d) = dict_set k v2 d.
Proof.
  induction d as [|[k' v'] d IH]; simpl.
  - by rewrite String.eqb_refl.
  - destruct (String.eqb k k') eqn:E; simpl.
    + by rewrite String.eqb_refl.
    + by rewrite E, IH.
Qed.

Lemma dict_get_Some_keys k (v : V) d : dict_get k d = Some v -> k ∈ dict_keys d.
Proof.
  intros H. destruct (decide (k ∈ dict_keys d)) as [|Hn]; [done|].
  apply dict_get_None in Hn. congruence.
Qed.

Lemma dict_get_elem_of k (v : V) d : dict_get k d = Some v -> (k, v) ∈ d.
Proof.
  induction d as [|[k' v'] d IH]; simpl; [done|].
  destruct (String.eqb_spec k k') as [->|Hne].
  - intros [= ->]. apply list_elem_of_here.
  - intros H. apply list_elem_of_further. by apply IH.
Qed.

Lemma dict_get_of_elem k (v : V) d :
  NoDup (dict_keys d) -> (k, v) ∈ d -> dict_get k d = Some v.
Proof.
  induction d as [|[k' v'] d IH]; simpl; [by intros _ ?%elem_of_nil|].
  intros [Hk Hnd]%NoDup_cons [[= -> ->]|Hin]%elem_of_cons.
  - by rewrite String.eqb_refl.
  - destruct (String.eqb_spec k k') as [->|Hne]; [|by apply IH].
    exfalso. apply Hk. unfold dict_keys.
    change k' with (fst (k', v)). apply list_elem_of_fmap_2. done.
Qed.

End DictFacts.

(** *** What [record_appointment] writes *)

(** The appointment lines 119-129 build for an officer. *)
Definition appointment_of (company_number : string) (profile : Profile)
    (officer : Officer) : AppointmentRec :=
  {| ar_company_number := company_number;
     ar_company_name := p_company_name profile;
     ar_role := default ""%string (o_officer_role officer);
     ar_appointed_on := o_appointed_on officer;
     ar_resigned_on := o_resigned_on officer;
     ar_date_of_birth := o_date_of_birth officer |}.

(** The director entry after one more appointment of [officer]. *)
Definition director_with (company_number : string) (profile : Profile)
    (officer : Officer) (before : option Director) : Director :=
  let appointments :=
    match before with
    | Some d => d_appointments d
    | None => []
    end ++ [appointment_of company_number profile officer] in
  {| d_name :=
       match before with
       | Some d => d_name d
       | None => default ""%string (o_name officer)
       end;
     d_appointments := appointments;
     d_company_count := length appointments |}.

Lemma record_appointment_directors company_number profile depth officer net :
  net_directors (record_appointment company_number profile depth officer net) =
  dict_set (officer_id_of officer)
    (director_with company_number profile officer
       (dict_get (officer_id_of officer) (net_directors net)))
    (net_directors net).
Proof.
  unfold record_appointment, director_with, appointment_of. simpl.
  destruct (dict_get (officer_id_of officer) (net_directors net)) as [d|] eqn:Hget.
  - by rewrite Hget.
  - by rewrite dict_get_set_eq, dict_set_set.
Qed.

Lemma record_appointment_connections company_number profile depth officer net :
  net_connections (record_appointment company_number profile depth officer net) =
  net_connections net ++ [connection_of company_number profile depth officer].
Proof. done. Qed.

Lemma record_appointment_companies company_number profile depth officer net :
  net_companies (record_appointment company_number profile depth officer net) =
  net_companies net.
Proof. done. Qed.

Lemma dict_keys_set_present {V} k (v v0 : V) d :
  dict_get k d = Some v0 -> dict_keys (dict_set k v d) = dict_keys d.
Proof.
  induction d as [|[k' v'] d IH]; simpl; [done|].
  destruct (String.eqb_spec k k') as [->|Hne]; simpl; [done|].
  intros H. by rewrite IH.
Qed.

Lemma dict_set_NoDup {V} k (v : V) d :
  NoDup (dict_keys d) -> NoDup (dict_keys (dict_set k v d)).
Proof.
  intros Hnd. destruct (dict_get k d) as [v0|] eqn:Hget.
  - by rewrite (dict_keys_set_present k v v0).
  - apply dict_get_None in Hget. rewrite dict_keys_set_fresh by done.
    apply NoDup_app. split; [done|]. split; [|apply NoDup_singleton].
    intros x Hx ->%list_elem_of_singleton. done.
Qed.

Lemma dict_set_sum {V} (f : V -> nat) k (v : V) d :
  (sum_list_with (fun kv : string * V => f kv.2) (dict_set k v d) +
   match dict_get k d with Some v0 => f v0 | None => O end =
   sum_list_with (fun kv : string * V => f kv.2) d + f v)%nat.
Proof.
  induction d as [|[k' v'] d IH]; simpl; [lia|].
  destruct (String.eqb k k'); simpl; lia.
Qed.

(** ** Directors and connections *)

Definition names_director (director_id : string) (c : Connection) : bool :=
  String.eqb (c_director_id c) director_id.

Definition names_company (company_number : string) (c : Connection) : bool :=
  String.eqb (c_company_number c) company_number.

(** The company, its name and the role, as an appointment and as a connection
    carry them. *)
Definition appointment_view (a : AppointmentRec) : string * option string * string :=
  (ar_company_number a, ar_company_name a, ar_role a).

Definition connection_view (c : Connection) : string * option string * string :=
  (c_company_number c, c_company_name c, c_role c).

(** The directors map is the connection list grouped by director identity. *)
Record directors_inv (net : Network) : Prop := {
  dirs_nodup : NoDup (dict_keys (net_directors net));
  dirs_count : forall director_id d,
    dict_get director_id (net_directors net) = Some d ->
    d_company_count d = length (d_appointments d);
  dirs_appointments : forall director_id d,
    dict_get director_id (net_directors net) = Some d ->
    map appointment_view (d_appointments d) =
    map connection_view (List.filter (names_director director_id) (net_connections net));
  dirs_name : forall director_id d,
    dict_get director_id (net_directors net) = Some d ->
    c_director_name <$> head (List.filter (names_director director_id) (net_connections net)) =
    Some (d_name d);
  dirs_keys : forall director_id,
    dict_get director_id (net_directors net) = None ->
    List.filter (names_director director_id) (net_connections net) = [];
  dirs_total :
    sum_list_with (fun kv : string * Director => d_company_count kv.2) (net_directors net) =
    length (net_connections net) }.

Lemma directors_inv_record company_number profile depth officer net :
  directors_inv net ->
  directors_inv (record_appointment company_number profile depth officer net).
Proof.
  intros [Hnd Hcount Happ Hname Hkeys Htotal].
  assert (forall director_id,
    List.filter (names_director director_id)
      (net_connections (record_appointment company_number profile depth officer net)) =
    List.filter (names_director director_id) (net_connections net) ++
    if String.eqb (officer_id_of officer) director_id
    then [connection_of company_number profile depth officer] else []) as Hfilter.
  { intros director_id. rewrite record_appointment_connections, List.filter_app. done. }
  split.
  - rewrite record_appointment_directors. by apply dict_set_NoDup.
  - intros director_id d. rewrite record_appointment_directors, dict_get_set.
    destruct (String.eqb_spec (officer_id_of officer) director_id) as [<-|Hne];
      [|apply Hcount].
    by intros [= <-].
  - intros director_id d. rewrite record_appointment_directors, dict_get_set, Hfilter.
    destruct (String.eqb_spec (officer_id_of officer) director_id) as [<-|Hne].
    + intros [= <-]. unfold director_with. simpl. rewrite !map_app. simpl. f_equal.
      destruct (dict_get (officer_id_of officer) (net_directors net)) as [d|] eqn:Hget.
      * by apply Happ.
      * by rewrite Hkeys.
    + rewrite app_nil_r. apply Happ.
  - intros director_id d. rewrite record_appointment_directors, dict_get_set, Hfilter.
    destruct (String.eqb_spec (officer_id_of officer) director_id) as [<-|Hne].
    + intros [= <-]. unfold director_with. simpl.
      destruct (dict_get (officer_id_of officer) (net_directors net)) as [d|] eqn:Hget.
      * specialize (Hname _ _ Hget).
        destruct (List.filter _ (net_connections net)); [done|]. done.
      * by rewrite Hkeys.
    + rewrite app_nil_r. apply Hname.
  - intros director_id. rewrite record_appointment_directors, dict_get_set, Hfilter.
    destruct (String.eqb_spec (officer_id_of officer) director_id) as [<-|Hne]; [done|].
    rewrite app_nil_r. apply Hkeys.
  - rewrite record_appointment_directors, record_appointment_connections, length_app. simpl.
    pose proof (dict_set_sum d_company_count (officer_id_of officer)
                  (director_with company_number profile officer
                     (dict_get (officer_id_of officer) (net_directors net)))
                  (net_directors net)) as Hsum.
    unfold director_with in Hsum at 2. simpl in Hsum. rewrite length_app in Hsum. simpl in Hsum.
    destruct (dict_get (officer_id_of officer) (net_directors net)) as [d|] eqn:Hget.
    + rewrite (Hcount _ _ Hget) in Hsum. lia.
    + simpl in Hsum. lia.
Qed.

Lemma directors_inv_records company_number profile depth officers net :
  directors_inv net ->
  directors_inv (record_appointments company_number profile depth officers net).
Proof.
  unfold record_appointments. revert net.
  induction officers as [|o l IH]; intros net Hinv; simpl; [done|].
  by apply IH, directors_inv_record.
Qed.

Lemma directors_inv_store company_number profile depth officers net :
  directors_inv net -> directors_inv (store_node company_number profile depth officers net).
Proof. by intros []. Qed.

Lemma directors_inv_update net :
  directors_inv net -> directors_inv (update_statistics net).
Proof. by intros []. Qed.

Lemma dict_keys_set_elem {V} k k' (v : V) d :
  k' ∈ dict_keys (dict_set k v d) <-> k' = k \/ k' ∈ dict_keys d.
Proof.
  destruct (dict_get k d) as [v0|] eqn:Hget.
  - rewrite (dict_keys_set_present k v v0) by done.
    apply dict_get_Some_keys in Hget. split; [by right|]. by intros [->|?].
  - apply dict_get_None in Hget. rewrite dict_keys_set_fresh by done.
    rewrite elem_of_app, list_elem_of_singleton. tauto.
Qed.

Lemma record_appointments_keys company_number profile depth officers net director_id :
  director_id ∈ dict_keys (net_directors
    (record_appointments company_number profile depth officers net)) <->
  director_id ∈ dict_keys (net_directors net) \/
  director_id ∈ map officer_id_of officers.
Proof.
  unfold record_appointments. revert net.
  induction officers as [|o l IH]; intros net; simpl.
  - split; [by left|]. by intros [?|?%elem_of_nil].
  - rewrite IH, record_appointment_directors, dict_keys_set_elem, elem_of_cons. tauto.
Qed.

Section SnapshotInvariants.
Context {W : Type} {U : StrUpper}.
Variables (api_client : Facade W) (max_depth max_companies : Z) (active_only : bool).

Local Abbreviation run n self seed_companies :=
  (scan_run api_client max_depth max_companies active_only n
     (initial_state max_depth self seed_companies)).

(** The directors map and the visited officers. *)
Definition officers_inv (st : @ScanState W) : Prop :=
  directors_inv (network st) /\
  forall officer_id,
    officer_id ∈ scanned_officers st ->
    officer_id ∈ dict_keys (net_directors (network st)).

Lemma officers_inv_turn company_number depth (st : @ScanState W) :
  officers_inv st ->
  officers_inv (turn api_client max_depth active_only company_number depth st).
Proof.
  intros [Hdirs Hvisited].
  destruct (turn_detail api_client max_depth active_only company_number depth st)
    as [(Hn & _ & Ho & _)
       |(profile & fetched & new & evs & _ & _ & _ & Hn & _ & _ & Hup & _)];
    simpl in *; unfold officers_inv.
  - split; [by rewrite Hn|]. intros officer_id. rewrite Ho, Hn. apply Hvisited.
  - rewrite Hn. split.
    + by apply directors_inv_records, directors_inv_store.
    + intros officer_id Hin. apply record_appointments_keys.
      destruct (Hup officer_id Hin) as [Hold|Hnew]; [left|by right].
      by apply Hvisited.
Qed.

Lemma officers_inv_run n self seed_companies :
  officers_inv (run n self seed_companies).
Proof.
  apply scan_run_invariant.
  - intros st Hinv Hc.
    destruct (loop_body_turn api_client max_depth max_companies active_only st Hc)
      as (c & d & rest & _ & _ & ->).
    simpl. apply officers_inv_turn. by destruct Hinv.
  - split; [|set_solver]. split; simpl; try done. constructor.
Qed.

End SnapshotInvariants.

Lemma StronglySorted_append {A} (R : A -> A -> Prop) (l1 l2 : list A) :
  (forall x1 x2, x1 ∈ l1 -> x2 ∈ l2 -> R x1 x2) ->
  StronglySorted R l1 -> StronglySorted R l2 -> StronglySorted R (l1 ++ l2).
Proof.
  intros Hcross H1 H2. induction H1 as [|x l Hl IH Hx]; simpl; [done|].
  constructor.
  - apply IH. intros x1 x2 Hx1 Hx2. apply Hcross; [by apply list_elem_of_further|done].
  - apply Forall_app. split; [done|]. apply Forall_forall. intros x2 Hx2.
    apply Hcross; [apply list_elem_of_here|done].
Qed.

Section Depths.
Context {W : Type} {U : StrUpper}.
Variables (api_client : Facade W) (max_depth max_companies : Z) (active_only : bool).

Local Abbreviation run n self seed_companies :=
  (scan_run api_client max_depth max_companies active_only n
     (initial_state max_depth self seed_companies)).

(** No item of the work list is less deep than [x]. *)
Definition below_queue (q : list (string * Z)) (x : Z) : Prop :=
  Forall (fun it : string * Z => x <= it.2) q.

Record depths_inv (seed_companies : list string) (st : @ScanState W) : Prop := {
  dep_scan : scan_inv max_companies st;
  dep_levels : two_levels (companies_to_scan st);
  dep_queue :
    Forall (fun it : string * Z => 0 <= it.2 /\ (it.2 = 0 -> it.1 ∈ seed_companies))
      (companies_to_scan st);
  dep_nodes :
    Forall (fun kv : string * CompanyNode =>
              0 <= cn_depth kv.2 <= max_depth /\
              cn_depth kv.2 <= depth_reached (net_statistics (network st)) /\
              (cn_depth kv.2 = 0 -> kv.1 ∈ seed_companies) /\
              below_queue (companies_to_scan st) (cn_depth kv.2))
      (net_companies (network st));
  dep_sorted :
    StronglySorted (fun a b : string * CompanyNode => cn_depth a.2 <= cn_depth b.2)
      (net_companies (network st));
  dep_reached :
    match net_companies (network st) with
    | [] => depth_reached (net_statistics (network st)) = 0
    | _ :: _ =>
        exists kv, kv ∈ net_companies (network st) /\
                   cn_depth kv.2 = depth_reached (net_statistics (network st))
    end;
  dep_connections :
    Forall (fun conn => below_queue (companies_to_scan st) (c_depth conn))
      (net_connections (network st));
  dep_connections_sorted :
    StronglySorted (fun a b => c_depth a <= c_depth b) (net_connections (network st)) }.

Lemma below_queue_app q new x depth :
  below_queue q x -> x <= depth -> Forall (fun it : string * Z => it.2 = depth + 1) new ->
  below_queue (q ++ new) x.
Proof.
  intros Hq Hx Hnew. apply Forall_app. split; [done|].
  eapply Forall_impl; [apply Hnew|]. intros it Hit. simpl in *. lia.
Qed.

Lemma depths_inv_turn seed_companies (st : @ScanState W) company_number depth rest :
  depths_inv seed_companies st ->
  Z.of_nat (size (scanned_companies st)) < max_companies ->
  companies_to_scan st = (company_number, depth) :: rest ->
  depths_inv seed_companies
    (turn api_client max_depth active_only company_number depth
       (set_companies_to_scan rest st)).
Proof.
  intros [Hscan Hlevels Hqueue Hnodes Hsorted Hreached Hconn Hcsorted] Hlt Hq.
  pose proof (two_levels_turn api_client max_depth active_only st company_number depth rest
                Hlevels Hq) as Hlevels'.
  pose proof (scan_inv_turn api_client max_depth max_companies active_only company_number depth
                (set_companies_to_scan rest st) (scan_inv_pop _ _ _ Hscan) Hlt) as Hscan'.
  rewrite Hq in Hqueue, Hnodes, Hconn. unfold below_queue in Hnodes, Hconn.
  apply Forall_cons in Hqueue as [[Hd0 Hseed] Hqueue].
  assert (below_queue rest depth) as Hrest.
  { destruct Hlevels as [Hord _]. rewrite Hq in Hord. unfold ordered in Hord.
    by inversion Hord. }
  destruct (turn_detail api_client max_depth active_only company_number depth
              (set_companies_to_scan rest st))
    as [(Hn & _ & _ & Hq' & _)
       |(profile & fetched & new & evs & Hfresh & Hle & _ & Hn & _ & _ & _ & Hq' & Hnew & _)];
    simpl in *.
  - split; try done; rewrite ?Hn, ?Hq'; simpl; try done.
    + eapply Forall_impl; [apply Hnodes|]. intros kv (? & ? & ? & Hb).
      repeat split; try done; try lia. by apply Forall_cons in Hb as [_ ?].
    + eapply Forall_impl; [apply Hconn|]. intros conn Hb. by apply Forall_cons in Hb as [_ ?].
  - set (officers := officers_kept active_only fetched) in *.
    assert (dict_get company_number (net_companies (network st)) = None) as Hnone.
    { apply dict_get_None. by rewrite (inv_keys _ _ Hscan). }
    assert (Forall (fun it : string * Z => it.2 = depth + 1) new) as Hnew1.
    { eapply Forall_impl; [apply Hnew|]. by intros it [? _]. }
    split; try done; rewrite ?Hn, ?Hq', ?record_appointments_companies,
      ?record_appointments_statistics, ?record_appointments_connections; simpl;
      rewrite ?dict_set_fresh by done.
    + apply Forall_app. split; [done|].
      eapply Forall_impl; [apply Hnew|]. intros it [Hit _]. split; lia.
    + apply Forall_app. split.
      * eapply Forall_impl; [apply Hnodes|]. intros kv (? & ? & ? & Hb).
        apply Forall_cons in Hb as [Hb1 Hb]. simpl in Hb1.
        repeat split; try done; try lia.
        by apply (below_queue_app _ _ _ depth).
      * repeat constructor; simpl; try lia; try done.
        by apply (below_queue_app _ _ _ depth).
    + apply StronglySorted_append; [|done|by repeat constructor].
      intros kv1 kv2 Hin1 ->%list_elem_of_singleton. simpl.
      rewrite Forall_forall in Hnodes. destruct (Hnodes kv1 Hin1) as (_ & _ & _ & Hb).
      by apply Forall_cons in Hb as [Hb1 _].
    + destruct (net_companies (network st)) as [|kv0 comps] eqn:Hcomps; simpl.
      * eexists. split; [apply list_elem_of_here|]. simpl. lia.
      * destruct Hreached as (kv & Hin & Hkv).
        destruct (Z.le_gt_cases depth (depth_reached (net_statistics (network st)))).
        -- exists kv. split; [|simpl; lia].
           change (kv ∈ (kv0 :: comps) ++ [(company_number,
             {| cn_company_number := company_number;
                cn_company_name := p_company_name profile;
                cn_company_status := p_company_status profile;
                cn_company_type := p_type profile;
                cn_incorporation_date := p_date_of_creation profile;
                cn_depth := depth; cn_officer_count := length officers |})]).
           apply elem_of_app. by left.
        -- eexists. split.
           { apply list_elem_of_further, elem_of_app. right. apply list_elem_of_here. }
           simpl. lia.
    + apply Forall_app. split.
      * eapply Forall_impl; [apply Hconn|]. intros conn Hb.
        apply Forall_cons in Hb as [Hb1 Hb]. by apply (below_queue_app _ _ _ depth).
      * apply Forall_map, Forall_forall. intros o _. simpl.
        by apply (below_queue_app _ _ _ depth).
    + apply StronglySorted_append; [|done|].
      * intros c1 c2 Hin1 (o & -> & _)%list_elem_of_fmap. simpl.
        rewrite Forall_forall in Hconn. specialize (Hconn c1 Hin1).
        by apply Forall_cons in Hconn as [Hb1 _].
      * clear. induction officers as [|o l IH]; simpl; constructor; [done|].
        apply Forall_map, Forall_forall. by intros.
Qed.

Lemma depths_inv_run n self seed_companies :
  depths_inv seed_companies (run n self seed_companies).
Proof.
  apply scan_run_invariant.
  - intros st Hinv Hc.
    destruct (loop_body_turn api_client max_depth max_companies active_only st Hc)
      as (c & d & rest & Hq & Hlt & ->).
    simpl. by apply depths_inv_turn.
  - split; simpl; try by constructor.
    + apply scan_inv_initial.
    + apply (two_levels_run api_client max_depth max_companies active_only O self
               seed_companies).
    + apply Forall_map, Forall_forall. intros s Hs. simpl. split; [lia|done].
Qed.

End Depths.

(** ** Companies and connections *)

Lemma filter_names_company_map c company_number profile depth officers :
  List.filter (names_company c) (map (connection_of company_number profile depth) officers) =
  if String.eqb company_number c
  then map (connection_of company_number profile depth) officers else [].
Proof.
  induction officers as [|o l IH]; simpl; [by destruct (String.eqb _ _)|].
  unfold names_company at 1. simpl. rewrite IH. by destruct (String.eqb company_number c).
Qed.

Lemma filter_none {A} (f : A -> bool) (l : list A) :
  Forall (fun x => f x = false) l -> List.filter f l = [].
Proof. induction 1 as [|x l Hx _ IH]; simpl; [done|]. by rewrite Hx. Qed.

Section Companies.
Context {W : Type} {U : StrUpper}.
Variables (api_client : Facade W) (max_depth max_companies : Z) (active_only : bool).

Local Abbreviation run n self seed_companies :=
  (scan_run api_client max_depth max_companies active_only n
     (initial_state max_depth self seed_companies)).

Record companies_inv (st : @ScanState W) : Prop := {
  comp_scan : scan_inv max_companies st;
  comp_number : forall c node,
    dict_get c (net_companies (network st)) = Some node -> cn_company_number node = c;
  comp_officers : forall c node,
    dict_get c (net_companies (network st)) = Some node ->
    cn_officer_count node =
    length (List.filter (names_company c) (net_connections (network st)));
  comp_names :
    Forall (fun conn =>
              exists node,
                dict_get (c_company_number conn) (net_companies (network st)) = Some node /\
                cn_company_name node = c_company_name conn)
      (net_connections (network st));
  comp_total :
    sum_list_with (fun kv : string * CompanyNode => cn_officer_count kv.2)
      (net_companies (network st)) =
    length (net_connections (network st)) }.

Lemma companies_inv_turn (st : @ScanState W) company_number depth :
  companies_inv st ->
  Z.of_nat (size (scanned_companies st)) < max_companies ->
  companies_inv (turn api_client max_depth active_only company_number depth st).
Proof.
  intros [Hscan Hnumber Hofficers Hnames Htotal] Hlt.
  pose proof (scan_inv_turn api_client max_depth max_companies active_only company_number depth
                st Hscan Hlt) as Hscan'.
  destruct (turn_detail api_client max_depth active_only company_number depth st)
    as [(Hn & _)
       |(profile & fetched & new & evs & Hfresh & _ & _ & Hn & _)];
    simpl in *.
  - split; try done; by rewrite Hn.
  - set (officers := officers_kept active_only fetched) in *.
    assert (dict_get company_number (net_companies (network st)) = None) as Hnone.
    { apply dict_get_None. by rewrite (inv_keys _ _ Hscan). }
    assert (List.filter (names_company company_number) (net_connections (network st)) = [])
      as Hnoconn.
    { apply filter_none. eapply Forall_impl; [apply Hnames|].
      intros conn (node & Hget & _).
      unfold names_company. apply String.eqb_neq. congruence. }
    split; try done; rewrite Hn, ?record_appointments_companies,
      ?record_appointments_connections; simpl.
    + intros c node. rewrite dict_get_set.
      destruct (String.eqb_spec company_number c) as [<-|Hne]; [|apply Hnumber].
      by intros [= <-].
    + intros c node. rewrite dict_get_set, List.filter_app, filter_names_company_map, length_app.
      destruct (String.eqb_spec company_number c) as [<-|Hne].
      * intros [= <-]. simpl. by rewrite Hnoconn, length_map.
      * intros Hget. simpl. rewrite Nat.add_0_r. by apply Hofficers.
    + apply Forall_app. split.
      * eapply Forall_impl; [apply Hnames|]. intros conn (node & Hget & Hname).
        exists node. split; [|done]. rewrite dict_get_set_ne; [done|]. congruence.
      * apply Forall_map, Forall_forall. intros o _. simpl.
        eexists. split; [apply dict_get_set_eq|done].
    + rewrite dict_set_fresh by done.
      rewrite sum_list_with_app, length_app, length_map. simpl. lia.
Qed.

Lemma companies_inv_run n self seed_companies :
  companies_inv (run n self seed_companies).
Proof.
  apply scan_run_invariant.
  - intros st Hinv Hc.
    destruct (loop_body_turn api_client max_depth max_companies active_only st Hc)
      as (c & d & rest & Hq & Hlt & ->).
    simpl. apply companies_inv_turn; [|done].
    destruct Hinv. split; try done. by apply scan_inv_pop.
  - split; simpl; try done. apply scan_inv_initial.
Qed.

(** The events of a scan that issues a search or an appointment lookup. *)
Definition trace_inv (st : @ScanState W) : Prop :=
  Forall (fun e =>
            match e with
            | EvSearch _ officer_name _ =>
                is_corporate_officer officer_name = false /\ 0 < max_depth
            | EvAppointments _ _ => 0 < max_depth
            | _ => True
            end) (trace st).

Lemma trace_inv_turn (st : @ScanState W) company_number depth :
  trace_inv st -> 0 <= depth ->
  trace_inv (turn api_client max_depth active_only company_number depth st).
Proof.
  intros Htrace Hd. unfold trace_inv.
  destruct (turn_detail api_client max_depth active_only company_number depth st)
    as [(_ & _ & _ & _ & evs & -> & Hev)
       |(profile & fetched & new & evs & _ & _ & _ & _ & _ & _ & _ & _ & _ & -> & Hev)];
    simpl in *.
  - apply Forall_app. split; [done|].
    eapply Forall_impl; [apply Hev|]. by intros e [->|[->| ->]].
  - apply Forall_app. split; [done|]. repeat (constructor; [done|]).
    eapply Forall_impl; [apply Hev|]. intros [] He; simpl in *; try done.
    + split; [tauto|lia].
    + lia.
Qed.

Lemma trace_inv_run n self seed_companies :
  trace_inv (run n self seed_companies).
Proof.
  enough (depths_inv max_depth max_companies seed_companies (run n self seed_companies) /\
          trace_inv (run n self seed_companies)) as [_ ?]; [done|].
  apply (scan_run_invariant api_client max_depth max_companies active_only
           (fun st => depths_inv max_depth max_companies seed_companies st /\ trace_inv st)).
  - intros st [Hdep Htrace] Hc.
    destruct (loop_body_turn api_client max_depth max_companies active_only st Hc)
      as (c & d & rest & Hq & Hlt & ->).
    simpl. split; [by apply depths_inv_turn|].
    apply trace_inv_turn; [done|].
    pose proof (dep_queue _ _ _ _ Hdep) as Hqueue. rewrite Hq in Hqueue.
    by apply Forall_cons in Hqueue as [[? _] _].
  - split; [apply (depths_inv_run api_client max_depth max_companies active_only O)|].
    constructor.
Qed.

End Companies.

(** ** What [active_only] keeps out *)

Definition active_inv (net : Network) : Prop :=
  (forall c node,
     dict_get c (net_companies net) = Some node ->
     cn_company_status node = Some "active"%string) /\
  (forall director_id d,
     dict_get director_id (net_directors net) = Some d ->
     Forall (fun a => PyStr.truthy (ar_resigned_on a) = false) (d_appointments d)).

Lemma active_inv_records company_number profile depth officers net :
  Forall (fun o => PyStr.truthy (o_resigned_on o) = false) officers ->
  active_inv net ->
  active_inv (record_appointments company_number profile depth officers net).
Proof.
  unfold record_appointments. intros Hoff. revert net.
  induction Hoff as [|o l Ho _ IH]; intros net Hinv; simpl; [done|].
  apply IH. destruct Hinv as [Hcomp Hdirs]. split; [done|].
  intros director_id d. rewrite record_appointment_directors, dict_get_set.
  destruct (String.eqb_spec (officer_id_of o) director_id) as [<-|Hne]; [|apply Hdirs].
  intros [= <-]. unfold director_with. simpl. apply Forall_app. split.
  - destruct (dict_get (officer_id_of o) (net_directors net)) as [d|] eqn:Hget; [|done].
    by apply (Hdirs _ _ Hget).
  - by repeat constructor.
Qed.

Lemma officers_kept_active officers :
  Forall (fun o => PyStr.truthy (o_resigned_on o) = false) (officers_kept true officers).
Proof.
  unfold officers_kept. apply Forall_forall. intros o Hin%list_elem_of_In.
  apply List.filter_In in Hin as [_ Hin]. by apply negb_true_iff in Hin.
Qed.

Section Active.
Context {W : Type} {U : StrUpper}.
Variables (api_client : Facade W) (max_depth max_companies : Z).

Lemma active_inv_turn (st : @ScanState W) company_number depth :
  active_inv (network st) ->
  active_inv (network (turn api_client max_depth true company_number depth st)).
Proof.
  intros Hinv.
  destruct (turn_detail api_client max_depth true company_number depth st)
    as [(-> & _)
       |(profile & fetched & new & evs & _ & _ & Hact & -> & _)];
    simpl in *; [done|].
  apply active_inv_records; [apply officers_kept_active|].
  destruct Hinv as [Hcomp Hdirs]. split; [|done].
  intros c node. simpl. rewrite dict_get_set.
  destruct (String.eqb_spec company_number c) as [<-|Hne]; [|apply Hcomp].
  intros [= <-]. simpl. specialize (Hact eq_refl).
  unfold status_is_active in Hact. by apply bool_decide_eq_true in Hact.
Qed.

Lemma active_inv_run n self seed_companies :
  active_inv (network (scan_run api_client max_depth max_companies true n
                         (initial_state max_depth self seed_companies))).
Proof.
  apply (scan_run_invariant api_client max_depth max_companies true
           (fun st => active_inv (network st))).
  - intros st Hinv Hc.
    destruct (loop_body_turn api_client max_depth max_companies true st Hc)
      as (c & d & rest & Hq & Hlt & ->).
    simpl. by apply active_inv_turn.
  - by split.
Qed.

End Active.

Lemma record_appointments_header company_number profile depth officers net :
  net_seed_companies (record_appointments company_number profile depth officers net) =
  net_seed_companies net /\
  net_max_depth (record_appointments company_number profile depth officers net) =
  net_max_depth net.
Proof.
  unfold record_appointments. revert net.
  induction officers as [|o l IH]; intros net; simpl; [done|].
  by rewrite !(proj1 (IH _)), !(proj2 (IH _)).
Qed.

(** A search or an appointment lookup. *)
Definition is_lookup (e : event) : bool :=
  match e with
  | EvSearch _ _ _ | EvAppointments _ _ => true
  | _ => false
  end.

(** ** Properties of every snapshot *)

Section SnapshotFacts.
Context {W : Type} {U : StrUpper}.
Variables (api_client : Facade W) (max_depth max_companies : Z) (active_only : bool).

Local Abbreviation run n self seed_companies :=
  (scan_run api_client max_depth max_companies active_only n
     (initial_state max_depth self seed_companies)).

Lemma header_run n self seed_companies :
  net_seed_companies (network (run n self seed_companies)) = seed_companies /\
  net_max_depth (network (run n self seed_companies)) = max_depth.
Proof.
  apply (scan_run_invariant api_client max_depth max_companies active_only
           (fun st => net_seed_companies (network st) = seed_companies /\
                      net_max_depth (network st) = max_depth)); [|done].
  intros st [Hs Hm] Hc.
  destruct (loop_body_turn api_client max_depth max_companies active_only st Hc)
    as (c & d & rest & Hq & Hlt & ->).
  simpl.
  destruct (turn_detail api_client max_depth active_only c d (set_companies_to_scan rest st))
    as [(-> & _)
       |(profile & fetched & new & evs & _ & _ & _ & -> & _)];
    simpl in *; [done|].
  destruct (record_appointments_header c profile d (officers_kept active_only fetched)
              (store_node c profile d (officers_kept active_only fetched) (network st)))
    as [-> ->]. done.
Qed.

(** X1. Every company of the snapshot is recorded at a depth between 0 and
    [max_depth], and so is every connection; [depth_reached] is the largest
    depth recorded, and 0 when no company is recorded. *)
Theorem recorded_depths_within_bounds self seed_companies :
  returned
    (scan_network api_client max_depth max_companies active_only self seed_companies)
    (fun net _ _ =>
       (forall c node,
          dict_get c (net_companies net) = Some node ->
          0 <= cn_depth node <= max_depth /\
          cn_depth node <= depth_reached (net_statistics net)) /\
       (net_companies net = [] -> depth_reached (net_statistics net) = 0) /\
       (net_companies net <> [] ->
        exists c node,
          dict_get c (net_companies net) = Some node /\
          cn_depth node = depth_reached (net_statistics net)) /\
       Forall (fun conn => 0 <= c_depth conn <= max_depth) (net_connections net)).
Proof.
  apply scan_network_returned. intros n st _. subst st. simpl.
  pose proof (depths_inv_run api_client max_depth max_companies active_only n self
                seed_companies) as [Hscan _ _ Hnodes _ Hreached _ _].
  rewrite Forall_forall in Hnodes.
  assert (forall c node,
    dict_get c (net_companies (network (run n self seed_companies))) = Some node ->
    0 <= cn_depth node <= max_depth /\
    cn_depth node <= depth_reached (net_statistics (network (run n self seed_companies))))
    as Hbound.
  { intros c node Hget%dict_get_elem_of. destruct (Hnodes _ Hget) as (? & ? & _). done. }
  split; [done|]. split; [|split].
  - intros Hnil. by rewrite Hnil in Hreached.
  - intros Hne. destruct (net_companies _) as [|kv0 comps] eqn:Hcomps; [done|].
    destruct Hreached as ([c node] & Hin & Hd). exists c, node. split; [|done].
    rewrite <- Hcomps in Hin. rewrite <- Hcomps. apply dict_get_of_elem; [|done].
    apply (inv_keys_nodup _ _ Hscan).
  - eapply Forall_impl; [apply (inv_connections _ _ Hscan)|].
    intros conn (node & Hget & <-). by apply (Hbound _ _ Hget).
Qed.

(** X2. The snapshot is in breadth-first order: the companies map lists the
    companies in non-decreasing order of depth, and so does the connection
    list; a company recorded at depth 0 is a seed. *)
Theorem snapshot_in_breadth_first_order self seed_companies :
  returned
    (scan_network api_client max_depth max_companies active_only self seed_companies)
    (fun net _ _ =>
       StronglySorted (fun a b : string * CompanyNode => cn_depth a.2 <= cn_depth b.2)
         (net_companies net) /\
       StronglySorted (fun a b => c_depth a <= c_depth b) (net_connections net) /\
       forall c node,
         dict_get c (net_companies net) = Some node -> cn_depth node = 0 ->
         c ∈ seed_companies).
Proof.
  apply scan_network_returned. intros n st _. subst st. simpl.
  pose proof (depths_inv_run api_client max_depth max_companies active_only n self
                seed_companies) as [_ _ _ Hnodes Hsorted _ _ Hcsorted].
  split; [done|]. split; [done|].
  intros c node Hget%dict_get_elem_of Hd. rewrite Forall_forall in Hnodes.
  destruct (Hnodes _ Hget) as (_ & _ & Hseed & _). by apply Hseed.
Qed.

(** X3. The statistics of the snapshot: [total_companies] is the size of the
    visited-company set the call leaves on the instance, [total_directors]
    the number of director entries, and [total_connections] is both the sum
    of [officer_count] over the companies and the sum of [company_count]
    over the directors; the snapshot carries the seed list and [max_depth]
    it was called with. *)
Theorem statistics_count_the_snapshot self seed_companies :
  returned
    (scan_network api_client max_depth max_companies active_only self seed_companies)
    (fun net self' _ =>
       total_companies (net_statistics net) = size (self_scanned_companies self') /\
       total_directors (net_statistics net) = length (net_directors net) /\
       total_connections (net_statistics net) =
         sum_list_with (fun kv : string * CompanyNode => cn_officer_count kv.2)
           (net_companies net) /\
       total_connections (net_statistics net) =
         sum_list_with (fun kv : string * Director => d_company_count kv.2)
           (net_directors net) /\
       net_seed_companies net = seed_companies /\
       net_max_depth net = max_depth).
Proof.
  apply scan_network_returned. intros n st _. subst st. simpl.
  pose proof (companies_inv_run api_client max_depth max_companies active_only n self
                seed_companies) as [Hscan _ _ _ Htotal].
  pose proof (officers_inv_run api_client max_depth max_companies active_only n self
                seed_companies) as [[_ _ _ _ _ Hdtotal] _].
  destruct (header_run n self seed_companies) as [Hs Hm].
  split; [by apply scan_inv_length in Hscan|]. done.
Qed.

(** X4. The directors map groups the connection list by director identity:
    the appointments of an entry are, in order, the companies, company names
    and roles of the connections that carry its key; [company_count] is
    their number, at least 1; the entry's name is the name on the first of
    these connections; and the director of every connection has an entry. *)
Theorem directors_group_the_connections self seed_companies :
  returned
    (scan_network api_client max_depth max_companies active_only self seed_companies)
    (fun net _ _ =>
       (forall director_id d,
          dict_get director_id (net_directors net) = Some d ->
          let named := List.filter (names_director director_id) (net_connections net) in
          map appointment_view (d_appointments d) = map connection_view named /\
          map ar_company_number (d_appointments d) =
            related_companies (net_connections net) director_id /\
          d_company_count d = length named /\
          (1 <= d_company_count d)%nat /\
          c_director_name <$> head named = Some (d_name d)) /\
       (forall conn,
          conn ∈ net_connections net ->
          c_director_id conn ∈ dict_keys (net_directors net))).
Proof.
  apply scan_network_returned. intros n st _. subst st. simpl.
  pose proof (officers_inv_run api_client max_depth max_companies active_only n self
                seed_companies) as [[_ Hcount Happ Hname Hkeys _] _].
  split.
  - intros director_id d Hget.
    specialize (Hcount _ _ Hget). specialize (Happ _ _ Hget). specialize (Hname _ _ Hget).
    assert (length (d_appointments d) =
            length (List.filter (names_director director_id)
                      (net_connections (network (run n self seed_companies))))) as Hlen.
    { by rewrite <- (length_map appointment_view), Happ, length_map. }
    split; [done|]. split; [|split; [congruence|split; [|done]]].
    + unfold related_companies.
      change (List.filter (fun c => String.eqb (c_director_id c) director_id))
        with (List.filter (names_director director_id)).
      apply (f_equal (map (fun v : string * option string * string => v.1.1))) in Happ.
      by rewrite !map_map in Happ.
    + rewrite Hcount, Hlen.
      destruct (List.filter _ _); [done|simpl; lia].
  - intros conn Hin.
    destruct (decide (c_director_id conn ∈
                dict_keys (net_directors (network (run n self seed_companies)))))
      as [|Hnot]; [done|].
    apply dict_get_None, Hkeys in Hnot.
    assert (conn ∈ List.filter (names_director (c_director_id conn))
                     (net_connections (network (run n self seed_companies)))) as Hconn.
    { apply list_elem_of_In, List.filter_In. split; [by apply list_elem_of_In|].
      apply String.eqb_refl. }
    rewrite Hnot in Hconn. by apply elem_of_nil in Hconn.
Qed.

(** X5. Every node of the companies map is stored under its own company
    number, and its [officer_count] is the number of connections of that
    company; every connection carries the company name stored in the node of
    its company. *)
Theorem officer_count_counts_connections self seed_companies :
  returned
    (scan_network api_client max_depth max_companies active_only self seed_companies)
    (fun net _ _ =>
       (forall c node,
          dict_get c (net_companies net) = Some node ->
          cn_company_number node = c /\
          cn_officer_count node =
            length (List.filter (names_company c) (net_connections net))) /\
       Forall (fun conn =>
                 exists node,
                   dict_get (c_company_number conn) (net_companies net) = Some node /\
                   cn_company_name node = c_company_name conn)
         (net_connections net)).
Proof.
  apply scan_network_returned. intros n st _. subst st. simpl.
  pose proof (companies_inv_run api_client max_depth max_companies active_only n self
                seed_companies) as [_ Hnumber Hofficers Hnames _].
  split; [|done]. intros c node Hget. split; [by apply Hnumber|by apply Hofficers].
Qed.

(** X6. When the call returns, the visited-company set of the instance is
    the key set of the companies map, whose keys are pairwise distinct, and
    every visited officer identity is a key of the directors map. *)
Theorem visited_sets_match_snapshot self seed_companies :
  returned
    (scan_network api_client max_depth max_companies active_only self seed_companies)
    (fun net self' _ =>
       (forall c, c ∈ self_scanned_companies self' <-> c ∈ dict_keys (net_companies net)) /\
       NoDup (dict_keys (net_companies net)) /\
       NoDup (dict_keys (net_directors net)) /\
       forall officer_id,
         officer_id ∈ self_scanned_officers self' ->
         officer_id ∈ dict_keys (net_directors net)).
Proof.
  apply scan_network_returned. intros n st _. subst st. simpl.
  pose proof (scan_inv_run api_client max_depth max_companies active_only n self
                seed_companies) as [Hnd Hkeys _ _ _ _ _].
  pose proof (officers_inv_run api_client max_depth max_companies active_only n self
                seed_companies) as [[Hdnd _ _ _ _ _] Hvisited].
  split; [intros c; by rewrite Hkeys|]. done.
Qed.

(** X7. The scanner never searches for an officer whose name carries one of
    the corporate keywords, and it issues a search or an appointment lookup
    only when [max_depth] is positive. *)
Theorem corporate_officers_never_searched self seed_companies :
  returned
    (scan_network api_client max_depth max_companies active_only self seed_companies)
    (fun _ _ tr =>
       (forall officer_id officer_name ok,
          EvSearch officer_id officer_name ok ∈ tr ->
          is_corporate_officer officer_name = false) /\
       (forall e, e ∈ tr -> is_lookup e = true -> 0 < max_depth)).
Proof.
  apply scan_network_returned. intros n st _. subst st. simpl.
  pose proof (trace_inv_run api_client max_depth max_companies active_only n self
                seed_companies) as Htrace.
  unfold trace_inv in Htrace. rewrite Forall_forall in Htrace. split.
  - intros officer_id officer_name ok Hin. by destruct (Htrace _ Hin).
  - intros e Hin He. specialize (Htrace _ Hin). destruct e; try done; tauto.
Qed.

End SnapshotFacts.

Section SnapshotEdges.
Context {W : Type} {U : StrUpper}.
Variables (api_client : Facade W) (max_depth max_companies : Z) (active_only : bool).

Local Abbreviation run n self seed_companies :=
  (scan_run api_client max_depth max_companies active_only n
     (initial_state max_depth self seed_companies)).

Lemma turn_below_zero (st : @ScanState W) company_number depth :
  max_depth < 0 -> 0 <= depth ->
  turn api_client max_depth active_only company_number depth st = st.
Proof.
  intros Hm Hd. unfold turn.
  assert ((depth >? max_depth) = true) as -> by (apply Z.gtb_lt; lia).
  by rewrite orb_true_r.
Qed.

Lemma quiet_run n self seed_companies :
  max_depth < 0 -> trace (run n self seed_companies) = [].
Proof.
  intros Hm.
  enough (depths_inv max_depth max_companies seed_companies (run n self seed_companies) /\
          trace (run n self seed_companies) = []) as [_ ?]; [done|].
  apply (scan_run_invariant api_client max_depth max_companies active_only
           (fun st => depths_inv max_depth max_companies seed_companies st /\ trace st = [])).
  - intros st [Hdep Htrace] Hc.
    destruct (loop_body_turn api_client max_depth max_companies active_only st Hc)
      as (c & d & rest & Hq & Hlt & ->).
    simpl. split; [by apply depths_inv_turn|].
    rewrite turn_below_zero; [done|done|].
    pose proof (dep_queue _ _ _ _ Hdep) as Hqueue. rewrite Hq in Hqueue.
    by apply Forall_cons in Hqueue as [[? _] _].
  - split; [apply (depths_inv_run api_client max_depth max_companies active_only O)|done].
Qed.

(** X8. With [max_depth] 0 or less the scan stays at the seeds: every
    company it records is a seed, recorded at depth 0, and it issues no
    officer search and no appointment lookup; with a negative [max_depth] it
    records no company and calls the client not at all. *)
Theorem shallow_scan_stays_at_the_seeds self seed_companies :
  max_depth <= 0 ->
  returned
    (scan_network api_client max_depth max_companies active_only self seed_companies)
    (fun net _ tr =>
       (forall c node,
          dict_get c (net_companies net) = Some node ->
          c ∈ seed_companies /\ cn_depth node = 0) /\
       Forall (fun e => is_lookup e = false) tr /\
       (max_depth < 0 -> net_companies net = [] /\ tr = [])).
Proof.
  intros Hm. apply scan_network_returned. intros n st _. subst st. simpl.
  pose proof (depths_inv_run api_client max_depth max_companies active_only n self
                seed_companies) as [_ _ _ Hnodes _ _ _ _].
  pose proof (trace_inv_run api_client max_depth max_companies active_only n self
                seed_companies) as Htrace.
  split; [|split].
  - intros c node Hget%dict_get_elem_of. rewrite Forall_forall in Hnodes.
    destruct (Hnodes _ Hget) as (Hd & _ & Hseed & _). simpl in *.
    assert (cn_depth node = 0) as H0 by lia. split; [by apply Hseed|done].
  - eapply Forall_impl; [apply Htrace|]. intros [] He; simpl in *; try done; lia.
  - intros Hneg. split; [|by apply quiet_run].
    destruct (net_companies _) as [|kv comps]; [done|].
    apply Forall_cons in Hnodes as [(Hd & _) _]. lia.
Qed.

(** X9. With an empty seed list, or with [max_companies] 0 or less, the
    call returns the empty snapshot at once: no company, no director, no
    connection, zero statistics, both visited sets empty, and the client
    is not called. *)
Theorem nothing_to_scan self seed_companies :
  seed_companies = [] \/ max_companies <= 0 ->
  scan_network api_client max_depth max_companies active_only self seed_companies =
  (Ok (initial_network max_depth seed_companies),
   {| self_world := self_world self;
      self_scanned_companies := ∅;
      self_scanned_officers := ∅ |},
   []).
Proof.
  intros Hnone. rewrite (scan_network_at _ _ _ _ O); [done|].
  simpl. unfold loop_cond. simpl.
  destruct Hnone as [->|Hcap]; [done|].
  destruct (map _ seed_companies); [done|].
  apply Z.ltb_ge. change (max_companies <= Z.of_nat (size (∅ : gset string))).
  rewrite size_empty. lia.
Qed.

End SnapshotEdges.

(** X10. With [active_only] set, every company of the snapshot has the
    status "active", and no appointment recorded for a director carries a
    resignation date. *)
Theorem active_only_records_active_only {W} {U : StrUpper} (api_client : Facade W)
    (max_depth max_companies : Z) self seed_companies :
  returned
    (scan_network api_client max_depth max_companies true self seed_companies)
    (fun net _ _ =>
       (forall c node,
          dict_get c (net_companies net) = Some node ->
          cn_company_status node = Some "active"%string) /\
       (forall director_id d,
          dict_get director_id (net_directors net) = Some d ->
          Forall (fun a => PyStr.truthy (ar_resigned_on a) = false) (d_appointments d))).
Proof.
  apply scan_network_returned. intros n st _. subst st. simpl.
  apply (active_inv_run api_client max_depth max_companies n self seed_companies).
Qed.

Lemma shallow_scan_witness :
  returned
    (scan_network (client_of Sample.three_companies) 0 100 true (new_scanner tt)
       ["AA000001"%string])
    (fun net _ tr =>
       (forall c node,
          dict_get c (net_companies net) = Some node ->
          c ∈ ["AA000001"%string] /\ cn_depth node = 0) /\
       Forall (fun e => is_lookup e = false) tr /\
       (0 < 0 -> net_companies net = [] /\ tr = [])).
Proof.
  apply (shallow_scan_stays_at_the_seeds (client_of Sample.three_companies) 0 100 true
           (new_scanner tt) ["AA000001"%string]).
  lia.
Defined.

Lemma nothing_to_scan_witness :
  scan_network (client_of Sample.three_companies) 2 0 true (new_scanner tt)
    ["AA000001"%string] =
  (Ok (initial_network 2 ["AA000001"%string]), new_scanner tt, []).
Proof.
  apply (nothing_to_scan (client_of Sample.three_companies) 2 0 true (new_scanner tt)
           ["AA000001"%string]).
  right. lia.
Defined.

(** ** The requests a scan issues *)

Definition is_search (e : event) : bool :=
  match e with
  | EvSearch _ _ _ => true
  | _ => false
  end.

Definition is_search_returned (e : event) : bool :=
  match e with
  | EvSearch _ _ true => true
  | _ => false
  end.

Definition is_appointments (e : event) : bool :=
  match e with
  | EvAppointments _ _ => true
  | _ => false
  end.

Definition is_officers_returned (e : event) : bool :=
  match e with
  | EvOfficers _ true => true
  | _ => false
  end.

(** In the log every appointment lookup comes right after an officer search
    that returned. *)
Definition lookups_follow_searches (tr : list event) : Prop :=
  forall i officer_api_id ok,
    tr !! i = Some (EvAppointments officer_api_id ok) ->
    exists j officer_id officer_name,
      i = S j /\ tr !! j = Some (EvSearch officer_id officer_name true).

Lemma lookups_follow_searches_app tr1 tr2 :
  lookups_follow_searches tr1 -> lookups_follow_searches tr2 ->
  lookups_follow_searches (tr1 ++ tr2).
Proof.
  intros H1 H2 i aid ok Hi.
  apply lookup_app_Some in Hi as [Hi|[Hlen Hi]].
  - destruct (H1 i aid ok Hi) as (j & oid & name & -> & Hj).
    exists j, oid, name. split; [done|]. by apply lookup_app_l_Some.
  - destruct (H2 _ aid ok Hi) as (j & oid & name & Hij & Hj).
    exists (length tr1 + j)%nat, oid, name. split; [lia|].
    rewrite lookup_app_r by lia.
    by replace (length tr1 + j - length tr1)%nat with j by lia.
Qed.

Lemma lookups_follow_searches_none tr :
  count is_appointments tr = O -> lookups_follow_searches tr.
Proof.
  intros Hnone i aid ok Hi. exfalso.
  apply list_elem_of_lookup_2 in Hi.
  assert (EvAppointments aid ok ∈ List.filter is_appointments tr) as Hin
    by (apply list_elem_of_In, List.filter_In; split; [by apply list_elem_of_In|done]).
  unfold count in Hnone. destruct (List.filter is_appointments tr); [|done].
  by apply elem_of_nil in Hin.
Qed.

(** What a list of events adds to the requests counted. *)
Record within_budget (officers : nat) (evs : list event) : Prop := {
  wb_search : (count is_search evs <= officers)%nat;
  wb_appointments : (count is_appointments evs <= count is_search_returned evs)%nat;
  wb_officers : count is_officers_returned evs = O;
  wb_order : lookups_follow_searches evs }.

Lemma within_budget_app n1 n2 evs1 evs2 :
  within_budget n1 evs1 -> within_budget n2 evs2 ->
  within_budget (n1 + n2) (evs1 ++ evs2).
Proof.
  intros [] []. split; rewrite ?count_app; try lia.
  by apply lookups_follow_searches_app.
Qed.

Lemma lookup_after_search officer_id officer_name officer_api_id ok :
  lookups_follow_searches
    [EvSearch officer_id officer_name true; EvAppointments officer_api_id ok].
Proof.
  intros [|[|i]] aid ok' Hi; [done| |done].
  exists O, officer_id, officer_name. by split.
Qed.

Ltac budget :=
  split;
  [unfold count; simpl; lia .. |
   first [apply lookup_after_search
         |apply lookups_follow_searches_none; reflexivity]].

Section Budget.
Context {W : Type} {U : StrUpper}.
Variables (api_client : Facade W) (max_depth max_companies : Z) (active_only : bool).

Lemma officer_step_budget company_number profile depth (st : @ScanState W) officer :
  exists evs,
    trace (officer_step api_client max_depth active_only company_number profile depth st
             officer) = trace st ++ evs /\
    within_budget 1 evs.
Proof.
  unfold officer_step.
  destruct ((depth <? max_depth) && _); simpl.
  2:{ exists []. rewrite app_nil_r. split; [done|budget]. }
  rewrite fan_out_run.
  destruct (is_corporate_officer _); simpl.
  { exists []. rewrite app_nil_r. split; [done|budget]. }
  destruct (search_officers _ _ _) as [[results|e] w]; simpl.
  2:{ eexists [_]. split; [done|budget]. }
  destruct (plan_of _ results) as [| |aid]; simpl.
  - eexists [_]. split; [done|budget].
  - eexists [_]. split; [done|budget].
  - destruct (get_officer_appointments _ _ _) as [[appts|e] w']; simpl.
    + rewrite enqueue_appointments_eq. simpl.
      eexists [_; _]. split; [by rewrite <- app_assoc|budget].
    + eexists [_; _]. split; [by rewrite <- app_assoc|budget].
Qed.

Lemma officers_fold_budget company_number profile depth officers (st : @ScanState W) :
  exists evs,
    trace (fold_left
             (officer_step api_client max_depth active_only company_number profile depth)
             officers st) = trace st ++ evs /\
    within_budget (length officers) evs.
Proof.
  revert st. induction officers as [|o l IH]; intros st; simpl.
  - exists []. rewrite app_nil_r. split; [done|budget].
  - destruct (officer_step_budget company_number profile depth st o) as (evs1 & Ht1 & Hb1).
    destruct (IH (officer_step api_client max_depth active_only company_number profile depth
                    st o)) as (evs2 & -> & Hb2).
    exists (evs1 ++ evs2). rewrite Ht1, app_assoc. split; [done|].
    by apply (within_budget_app 1 (length l)).
Qed.

Record budget_inv (st : @ScanState W) : Prop := {
  bud_scan : scan_inv max_companies st;
  bud_officers :
    count is_officers_returned (trace st) = length (net_companies (network st));
  bud_search :
    (count is_search (trace st) <= length (net_connections (network st)))%nat;
  bud_appointments :
    (count is_appointments (trace st) <= count is_search_returned (trace st))%nat;
  bud_order : lookups_follow_searches (trace st) }.

Ltac budget_kept Hord :=
  split; simpl;
  [rewrite ?count_app; unfold count in *; simpl; try done; lia .. |
   repeat (apply lookups_follow_searches_app;
           [|apply lookups_follow_searches_none; reflexivity]);
   exact Hord].

Lemma budget_inv_turn (st : @ScanState W) company_number depth :
  budget_inv st ->
  Z.of_nat (size (scanned_companies st)) < max_companies ->
  budget_inv (turn api_client max_depth active_only company_number depth st).
Proof.
  intros [Hscan Hoff Hsearch Happ Hord] Hlt.
  pose proof (scan_inv_turn api_client max_depth max_companies active_only company_number depth
                st Hscan Hlt) as Hscan'.
  unfold turn in *.
  destruct (bool_decide (company_number ∈ scanned_companies st)) eqn:Hin; simpl in *;
    [by split|].
  apply bool_decide_eq_false in Hin.
  destruct (depth >? max_depth); [by split|].
  rewrite expand_run in *.
  destruct (get_company_profile _ _ _) as [[profile|e] w]; simpl in *.
  2:{ budget_kept Hord. }
  destruct (active_only && negb (status_is_active profile)); simpl in *.
  { budget_kept Hord. }
  destruct (get_officers _ _ _) as [[fetched|e] w']; simpl in *.
  2:{ budget_kept Hord. }
  destruct (officers_fold_budget company_number profile depth
              (officers_kept active_only fetched)
              (store_company company_number profile depth (officers_kept active_only fetched)
                 (log (EvOfficers company_number true)
                    (set_world w' (log (EvProfile company_number true) (set_world w st))))))
    as (evs & Ht & [Hb1 Hb2 Hb3 Hb4]).
  destruct (officers_fold_detail api_client max_depth active_only company_number profile depth
              (officers_kept active_only fetched)
              (store_company company_number profile depth (officers_kept active_only fetched)
                 (log (EvOfficers company_number true)
                    (set_world w' (log (EvProfile company_number true) (set_world w st))))))
    as (_ & Hn & _).
  assert (dict_get company_number (net_companies (network st)) = None) as Hnone.
  { apply dict_get_None. by rewrite (inv_keys _ _ Hscan). }
  split; [done| | | |].
  4:{ rewrite Ht. simpl. apply lookups_follow_searches_app; [|done].
      repeat (apply lookups_follow_searches_app;
              [|apply lookups_follow_searches_none; reflexivity]).
      exact Hord. }
  all: rewrite ?Ht, ?Hn, ?record_appointments_companies,
    ?record_appointments_connections; simpl;
    rewrite ?dict_set_fresh by done; rewrite !count_app, ?length_app, ?length_map;
    unfold count in *; simpl; lia.
Qed.

Lemma budget_inv_run n self seed_companies :
  budget_inv (scan_run api_client max_depth max_companies active_only n
                (initial_state max_depth self seed_companies)).
Proof.
  apply scan_run_invariant.
  - intros st Hinv Hc.
    destruct (loop_body_turn api_client max_depth max_companies active_only st Hc)
      as (c & d & rest & Hq & Hlt & ->).
    simpl. apply budget_inv_turn; [|done].
    destruct Hinv. split; try done. by apply scan_inv_pop.
  - split; simpl; try done. apply scan_inv_initial.
Qed.

(** X29. The requests of a scan stay within a budget: the officers of a
    company are listed successfully once for each company recorded, so at
    most [max_companies] times; at most one officer search is issued for
    each connection recorded; and an appointment lookup is issued only
    right after a search that returned, so at most once for each. *)
Theorem requests_stay_within_budget self seed_companies :
  returned
    (scan_network api_client max_depth max_companies active_only self seed_companies)
    (fun net _ tr =>
       count is_officers_returned tr = total_companies (net_statistics net) /\
       Z.of_nat (count is_officers_returned tr) <= Z.max 0 max_companies /\
       (count is_search tr <= total_connections (net_statistics net))%nat /\
       (count is_appointments tr <= count is_search_returned tr)%nat /\
       lookups_follow_searches tr).
Proof.
  apply scan_network_returned. intros n st _. subst st. simpl.
  destruct (budget_inv_run n self seed_companies) as [Hscan Hoff Hsearch Happ Hord].
  split; [done|]. split; [|done].
  rewrite Hoff, (scan_inv_length _ _ Hscan). by destruct Hscan.
Qed.

End Budget.

(** ** Shared directors *)

Definition more_connected_first (a b : SharedDirector) : Prop :=
  (sd_company_count b <= sd_company_count a)%nat.

Definition has_count (k : nat) (entry : SharedDirector) : bool :=
  Nat.eqb (sd_company_count entry) k.

Lemma insert_by_count_perm entry sorted :
  insert_by_count entry sorted ≡ₚ entry :: sorted.
Proof.
  induction sorted as [|e rest IH]; simpl; [done|].
  destruct (sd_company_count entry <? sd_company_count e)%nat; [|done].
  rewrite IH. apply Permutation_swap.
Qed.

Lemma sort_by_count_desc_perm shared : sort_by_count_desc shared ≡ₚ shared.
Proof.
  induction shared as [|e l IH]; simpl; [done|].
  by rewrite insert_by_count_perm, IH.
Qed.

Lemma insert_by_count_sorted entry sorted :
  StronglySorted more_connected_first sorted ->
  StronglySorted more_connected_first (insert_by_count entry sorted).
Proof.
  induction 1 as [|e rest Hrest IH He]; simpl.
  - by repeat constructor.
  - destruct (Nat.ltb_spec (sd_company_count entry) (sd_company_count e)) as [Hlt|Hge].
    + constructor; [done|]. rewrite insert_by_count_perm.
      constructor; [unfold more_connected_first; lia | done].
    + constructor; [by constructor|].
      constructor; [done|].
      eapply Forall_impl; [apply He|]. unfold more_connected_first. intros; simpl in *; lia.
Qed.

Lemma sort_by_count_desc_sorted shared :
  StronglySorted more_connected_first (sort_by_count_desc shared).
Proof.
  induction shared as [|e l IH]; simpl; [constructor|].
  by apply insert_by_count_sorted.
Qed.

Lemma insert_by_count_stable k entry sorted :
  List.filter (has_count k) (insert_by_count entry sorted) =
  List.filter (has_count k) (entry :: sorted).
Proof.
  induction sorted as [|e rest IH]; simpl; [done|].
  destruct (Nat.ltb_spec (sd_company_count entry) (sd_company_count e)) as [Hlt|Hge]; [|done].
  simpl. rewrite IH. simpl. unfold has_count.
  destruct (Nat.eqb_spec (sd_company_count entry) k), (Nat.eqb_spec (sd_company_count e) k);
    try done; lia.
Qed.

Lemma sort_by_count_desc_stable k shared :
  List.filter (has_count k) (sort_by_count_desc shared) =
  List.filter (has_count k) shared.
Proof.
  induction shared as [|e l IH]; simpl; [done|].
  rewrite insert_by_count_stable. simpl. by rewrite IH.
Qed.

Lemma collect_shared_elem net entry :
  entry ∈ collect_shared net <->
  exists director_id d,
    (director_id, d) ∈ net_directors net /\
    (1 < d_company_count d)%nat /\
    entry = shared_entry director_id d.
Proof.
  unfold collect_shared. rewrite list_elem_of_fmap. split.
  - intros ([director_id d] & -> & Hin%list_elem_of_In). apply List.filter_In in Hin as [Hin Hc].
    exists director_id, d. simpl in *. split; [by apply list_elem_of_In|].
    split; [by apply Nat.ltb_lt|done].
  - intros (director_id & d & Hin & Hc & ->). exists (director_id, d). split; [done|].
    apply list_elem_of_In, List.filter_In. split; [by apply list_elem_of_In|].
    by apply Nat.ltb_lt.
Qed.

(** X11. [find_shared_directors] returns one entry for every director of
    the map whose [company_count] is above 1 and no other entry; the entries
    come with the largest [company_count] first, and entries with the same
    count keep the order of the directors map. *)
Theorem shared_directors_most_connected_first net :
  find_shared_directors net ≡ₚ collect_shared net /\
  (forall entry,
     entry ∈ find_shared_directors net <->
     exists director_id d,
       (director_id, d) ∈ net_directors net /\
       (1 < d_company_count d)%nat /\
       entry = shared_entry director_id d) /\
  StronglySorted more_connected_first (find_shared_directors net) /\
  (forall k,
     List.filter (has_count k) (find_shared_directors net) =
     List.filter (has_count k) (collect_shared net)).
Proof.
  unfold find_shared_directors. split; [apply sort_by_count_desc_perm|].
  split; [|split].
  - intros entry. rewrite sort_by_count_desc_perm. apply collect_shared_elem.
  - apply sort_by_count_desc_sorted.
  - intros k. apply sort_by_count_desc_stable.
Qed.

(** X12. On the snapshot a scan returns, every entry of
    [find_shared_directors] stands for a director identity that at least
    two connections carry: its [company_count] is the number of these
    connections and the length of its company list, which holds their
    companies, company names and roles in the order of the connection list.
    (Two officers of one company recorded under one identity key count
    twice.) *)
Theorem shared_directors_of_a_scan {W} {U : StrUpper} (api_client : Facade W)
    (max_depth max_companies : Z) (active_only : bool) self seed_companies :
  returned
    (scan_network api_client max_depth max_companies active_only self seed_companies)
    (fun net _ _ =>
       Forall (fun entry =>
                 let named :=
                   List.filter (names_director (sd_director_id entry))
                     (net_connections net) in
                 (2 <= sd_company_count entry)%nat /\
                 sd_company_count entry = length named /\
                 sd_company_count entry = length (sd_companies entry) /\
                 map (fun sc => (sc_company_number sc, sc_company_name sc, sc_role sc))
                   (sd_companies entry) =
                 map connection_view named)
         (find_shared_directors net) /\
       (length (find_shared_directors net) <= total_directors (net_statistics net))%nat).
Proof.
  apply scan_network_returned. intros n st _. subst st. simpl.
  pose proof (officers_inv_run api_client max_depth max_companies active_only n self
                seed_companies) as [[Hnd Hcount Happ _ _ _] _].
  set (net := network _) in *.
  assert (net_directors (update_statistics net) = net_directors net) as Hdirs by done.
  split.
  - apply Forall_forall. intros entry Hin.
    unfold find_shared_directors in Hin. rewrite sort_by_count_desc_perm in Hin.
    apply collect_shared_elem in Hin as (director_id & d & Hin & Hc & ->).
    rewrite Hdirs in Hin. apply dict_get_of_elem in Hin; [|done].
    specialize (Hcount _ _ Hin). specialize (Happ _ _ Hin). simpl.
    assert (length (d_appointments d) =
            length (List.filter (names_director director_id) (net_connections net))) as Hlen.
    { by rewrite <- (length_map appointment_view), Happ, length_map. }
    split; [lia|]. split; [congruence|]. split; [by rewrite length_map|].
    rewrite map_map. simpl. exact Happ.
  - unfold find_shared_directors. rewrite sort_by_count_desc_perm.
    unfold collect_shared. rewrite length_map. apply List.filter_length_le.
Qed.


Lemma filter_every {A} (f : A -> bool) (l : list A) :
  Forall (fun x => f x = true) l -> List.filter f l = l.
Proof. induction 1 as [|x l Hx _ IH]; simpl; [done|]. by rewrite Hx, IH. Qed.

Section LimiterFacts.
Import RateLimiter RateLimiterQueries.

Lemma prune_split now period requests :
  exists dropped,
    requests = dropped ++ prune now period requests /\
    Forall (fun r => r < now - period) dropped.
Proof.
  induction requests as [|r l IH]; simpl.
  - by exists [].
  - destruct (Z.ltb_spec r (now - period)) as [Hlt|Hge].
    + destruct IH as (dropped & Hl & Hd). exists (r :: dropped). simpl.
      split; [by rewrite <- Hl|by constructor].
    + by exists [].
Qed.

Lemma prune_head now period requests oldest rest :
  prune now period requests = oldest :: rest -> now - period <= oldest.
Proof.
  induction requests as [|r l IH]; simpl; [done|].
  destruct (Z.ltb_spec r (now - period)) as [Hlt|Hge]; [done|].
  intros [= -> ->]. done.
Qed.

Lemma prune_fresh now period oldest rest :
  now - period <= oldest -> prune now period (oldest :: rest) = oldest :: rest.
Proof. intros H. simpl. by destruct (Z.ltb_spec oldest (now - period)); [lia|]. Qed.

Lemma prune_again now now' period requests :
  now <= now' ->
  prune now' period (prune now period requests) = prune now' period requests.
Proof.
  intros Hle. induction requests as [|r l IH]; simpl; [done|].
  destruct (Z.ltb_spec r (now - period)) as [Hlt|Hge].
  - rewrite IH. by destruct (Z.ltb_spec r (now' - period)); [|lia].
  - done.
Qed.

Lemma prune_sorted now period requests :
  StronglySorted Z.le requests ->
  prune now period requests = List.filter (fun r => now - period <=? r) requests.
Proof.
  induction 1 as [|r l Hl IH Hr]; simpl; [done|].
  destruct (Z.ltb_spec r (now - period)) as [Hlt|Hge].
  - rewrite IH. by destruct (Z.leb_spec (now - period) r); [lia|].
  - destruct (Z.leb_spec (now - period) r); [|lia]. f_equal.
    symmetry. apply filter_every. eapply Forall_impl; [apply Hr|].
    intros x Hx. simpl in *. apply Z.leb_le. lia.
Qed.

End LimiterFacts.

Section LimiterTheorems.
Import RateLimiter RateLimiterQueries.

(** What [acquire] returns, in one equation per outcome. *)
Lemma acquire_outcome self clock :
  let requests1 := prune clock (period self) (requests self) in
  let remaining := max_requests self - Z.of_nat (length requests1) in
  let now :=
    if 0 <? remaining then clock
    else clock + get_reset_time (set_requests requests1 self) clock in
  acquire self clock =
  if (remaining <=? 0) && bool_decide (requests1 = []) then Raise IndexError
  else Ok (set_requests (prune now (period self) (requests self) ++ [now]) self, now).
Proof.
  unfold acquire, get_reset_time. cbv zeta.
  remember (prune clock (period self) (requests self)) as requests1 eqn:Hprune.
  symmetry in Hprune.
  change (requests (set_requests requests1 self)) with requests1.
  change (period (set_requests requests1 self)) with (period self).
  destruct (Z.geb_spec (Z.of_nat (length requests1)) (max_requests self)) as [Hge|Hlt];
    destruct (Z.leb_spec (max_requests self - Z.of_nat (length requests1)) 0); try lia;
    destruct (Z.ltb_spec 0 (max_requests self - Z.of_nat (length requests1))); try lia.
  - destruct requests1 as [|oldest rest]; [done|].
    rewrite andb_false_r.
    destruct (Z.gtb_spec (oldest + period self - clock) 0) as [Hs|Hs].
    + rewrite Z.max_r by lia.
      rewrite <- Hprune. by rewrite prune_again by lia.
    + rewrite Z.max_l by lia. rewrite Z.add_0_r. by rewrite Hprune.
  - simpl. by rewrite Hprune.
Qed.

Lemma acquire_raises self clock :
  max_requests self <= 0 /\ prune clock (period self) (requests self) = [] ->
  acquire self clock = Raise IndexError.
Proof.
  intros [Hm Hnil]. rewrite acquire_outcome, Hnil.
  change (Z.of_nat (length (@nil Z))) with 0.
  by assert ((max_requests self - 0 <=? 0) = true) as -> by (apply Z.leb_le; lia).
Qed.

(** X13. [acquire] raises in one case only: [max_requests] is 0 or less and
    no request of the last period is on record, so that [self.requests[0]]
    is read from an empty queue; the exception is [IndexError]. *)
Theorem acquire_raises_only_without_capacity self clock e :
  acquire self clock = Raise e <->
  e = IndexError /\
  max_requests self <= 0 /\
  prune clock (period self) (requests self) = [].
Proof.
  rewrite acquire_outcome.
  destruct (Z.leb_spec (max_requests self -
              Z.of_nat (length (prune clock (period self) (requests self)))) 0) as [Hle|Hgt];
    simpl.
  - destruct (prune clock (period self) (requests self)) as [|oldest rest] eqn:Hprune; simpl.
    + simpl in Hle. split; [intros [= <-]; split; [done|split; [lia|done]] | by intros (-> & _)].
    + split; [done|]. by intros (_ & _ & ?).
  - split; [done|]. intros (_ & Hm & Hnil). rewrite Hnil in Hgt. simpl in Hgt. lia.
Qed.

Lemma acquire_returns self clock self' now :
  acquire self clock = Ok (self', now) ->
  now =
    (if 0 <? (get_remaining_requests self clock).2 then clock
     else clock + get_reset_time (get_remaining_requests self clock).1 clock) /\
  clock <= now /\
  self' = set_requests (prune now (period self) (requests self) ++ [now]) self.
Proof.
  rewrite acquire_outcome. unfold get_remaining_requests. simpl.
  destruct (_ && _); [done|]. intros [= <- Hnow]. split; [done|]. split; [|by rewrite Hnow].
  rewrite <- Hnow. destruct (0 <? _); [lia|].
  unfold get_reset_time. simpl. destruct (prune _ _ _); lia.
Qed.

End LimiterTheorems.

Section LimiterClock.
Import RateLimiter RateLimiterQueries RateLimiterClock.

Lemma prune_twice now period requests :
  prune now period (prune now period requests) = prune now period requests.
Proof.
  destruct (prune now period requests) as [|oldest rest] eqn:Hprune; [done|].
  apply prune_head in Hprune. by apply prune_fresh.
Qed.

(** What [acquire_rereading] returns, in one equation per outcome. *)
Lemma acquire_rereading_outcome self clock clock_after_sleep :
  let pruned := (get_remaining_requests self clock).1 in
  let remaining := (get_remaining_requests self clock).2 in
  let slept :=
    if (remaining <=? 0) && (0 <? get_reset_time pruned clock)
    then Some (get_reset_time pruned clock) else None in
  let now := match slept with Some _ => clock_after_sleep | None => clock end in
  acquire_rereading self clock clock_after_sleep =
  if (remaining <=? 0) && bool_decide (requests pruned = []) then Raise IndexError
  else Ok (set_requests (prune now (period self) (requests pruned) ++ [now]) self,
           now, slept).
Proof.
  unfold acquire_rereading, get_remaining_requests, get_reset_time. cbv zeta. simpl.
  remember (prune clock (period self) (requests self)) as requests1 eqn:Hprune.
  destruct (Z.geb_spec (Z.of_nat (length requests1)) (max_requests self)) as [Hge|Hlt];
    destruct (Z.leb_spec (max_requests self - Z.of_nat (length requests1)) 0); try lia;
    simpl.
  - destruct requests1 as [|oldest rest]; [done|]. simpl.
    destruct (Z.gtb_spec (oldest + period self - clock) 0) as [Hs|Hs].
    + rewrite Z.max_r by lia.
      by destruct (Z.ltb_spec 0 (oldest + period self - clock)); [|lia].
    + rewrite Z.max_l by lia. simpl.
      symmetry in Hprune. apply prune_head in Hprune.
      by destruct (Z.ltb_spec oldest (clock - period self)); [lia|].
  - by rewrite Hprune, prune_twice.
Qed.

(** [RateLimiter.acquire] is [acquire_rereading] when the clock, read after
    the sleep, has advanced by exactly the time slept. *)
Lemma acquire_on_time self clock :
  acquire self clock =
  match acquire_rereading self clock
          (clock + get_reset_time (get_remaining_requests self clock).1 clock) with
  | Ok (self', now, _) => Ok (self', now)
  | Raise e => Raise e
  end.
Proof.
  unfold acquire, acquire_rereading, get_remaining_requests, get_reset_time. cbv zeta. simpl.
  destruct (_ >=? _); [|done].
  destruct (prune clock (period self) (requests self)) as [|oldest rest]; [done|]. simpl.
  destruct (Z.gtb_spec (oldest + period self - clock) 0) as [Hs|Hs]; [|done].
  by rewrite Z.max_r by lia.
Qed.

Lemma acquire_rereading_returns self clock clock_after_sleep self' now slept :
  acquire_rereading self clock clock_after_sleep = Ok (self', now, slept) ->
  let pruned := (get_remaining_requests self clock).1 in
  let remaining := (get_remaining_requests self clock).2 in
  slept =
    (if (remaining <=? 0) && (0 <? get_reset_time pruned clock)
     then Some (get_reset_time pruned clock) else None) /\
  now = (match slept with Some _ => clock_after_sleep | None => clock end) /\
  self' = set_requests (prune now (period self) (requests pruned) ++ [now]) self.
Proof.
  rewrite acquire_rereading_outcome. cbv zeta.
  destruct (_ && bool_decide _); [done|]. by intros [= <- <- <-].
Qed.

(** X14. A call of [acquire] sleeps when [get_remaining_requests] leaves
    nothing and [get_reset_time], read on the pruned queue at the same
    instant, is positive; the time it passes to [time.sleep] is then
    exactly that reset time. The grant carries the reading of the clock
    taken after the sleep, or the first reading when the call does not
    sleep, and the queue afterwards is the queue pruned at both readings,
    with the grant appended. *)
Theorem acquire_waits_for_the_reset_time self clock clock_after_sleep self' now slept :
  acquire_rereading self clock clock_after_sleep = Ok (self', now, slept) ->
  let pruned := (get_remaining_requests self clock).1 in
  let remaining := (get_remaining_requests self clock).2 in
  slept =
    (if (remaining <=? 0) && (0 <? get_reset_time pruned clock)
     then Some (get_reset_time pruned clock) else None) /\
  now = (match slept with Some _ => clock_after_sleep | None => clock end) /\
  self' = set_requests (prune now (period self) (requests pruned) ++ [now]) self.
Proof. apply acquire_rereading_returns. Qed.

Lemma prune_keeps_the_grant now period requests :
  0 <= period ->
  prune now period (prune now period requests ++ [now]) = prune now period requests ++ [now].
Proof.
  intros Hp. destruct (prune now period requests) as [|oldest rest] eqn:Hprune.
  - simpl. by destruct (Z.ltb_spec now (now - period)); [lia|].
  - simpl. apply prune_head in Hprune.
    by destruct (Z.ltb_spec oldest (now - period)); [lia|].
Qed.

(** X15. Every grant uses up one request: with a period that is not
    negative and a clock that does not run backwards,
    [get_remaining_requests] read at the instant of a grant is one less
    than it would be without the grant, whether the call slept or not. *)
Theorem grant_uses_one_request self clock clock_after_sleep self' now slept :
  0 <= period self ->
  clock <= clock_after_sleep ->
  acquire_rereading self clock clock_after_sleep = Ok (self', now, slept) ->
  (get_remaining_requests self' now).2 = (get_remaining_requests self now).2 - 1.
Proof.
  intros Hp Hclock Hacq.
  destruct (acquire_rereading_returns self clock clock_after_sleep self' now slept Hacq)
    as (_ & Hnow & ->).
  unfold get_remaining_requests. simpl.
  assert (clock <= now) as Hle by (rewrite Hnow; destruct slept; lia).
  rewrite (prune_again clock now) by done.
  rewrite prune_keeps_the_grant by done. rewrite length_app. simpl. lia.
Qed.

End LimiterClock.

Section LimiterRuns.
Import RateLimiter RateLimiterQueries.

Lemma prune_length now period requests :
  (length (prune now period requests) <= length requests)%nat.
Proof.
  destruct (prune_split now period requests) as (dropped & Heq & _).
  rewrite Heq at 2. rewrite length_app. lia.
Qed.

(** X16. Reading [get_remaining_requests] does not change what the limiter
    does next: a later [acquire], and a later reading, give what they would
    have given without it; and the reading never exceeds [max_requests]. *)
Theorem reading_does_not_disturb self now now' :
  now <= now' ->
  acquire (get_remaining_requests self now).1 now' = acquire self now' /\
  get_remaining_requests (get_remaining_requests self now).1 now' =
    get_remaining_requests self now' /\
  (get_remaining_requests self now).2 <= max_requests self.
Proof.
  intros Hle. unfold get_remaining_requests, acquire. simpl.
  rewrite prune_again by done. split; [done|]. split; [done|lia].
Qed.

Lemma calls_snoc self start arrivals arrival :
  calls self start (arrivals ++ [arrival]) = call (calls self start arrivals) arrival.
Proof. unfold calls. by rewrite fold_left_app. Qed.

Lemma call_raise e arrivals : fold_left call arrivals (Raise e) = Raise e.
Proof. induction arrivals as [|a l IH]; simpl; [done|apply IH]. Qed.

(** One call that returns. *)
Lemma call_outcome r arrival run :
  call (Ok r) arrival = Ok run ->
  let c := Z.max (clock r) arrival in
  let requests1 := prune c (period (limiter r)) (requests (limiter r)) in
  let remaining := max_requests (limiter r) - Z.of_nat (length requests1) in
  c <= clock run /\
  clock run = (if 0 <? remaining then c
               else c + get_reset_time (set_requests requests1 (limiter r)) c) /\
  ~ (remaining <= 0 /\ requests1 = []) /\
  limiter run =
    set_requests (prune (clock run) (period (limiter r)) (requests (limiter r)) ++ [clock run])
      (limiter r) /\
  granted run = granted r ++ [clock run].
Proof.
  unfold call.
  destruct (acquire (limiter r) (Z.max (clock r) arrival)) as [[self' now]|e] eqn:Hacq; [|done].
  intros [= <-]. simpl.
  destruct (acquire_returns _ _ _ _ Hacq) as (Hnow & Hle & ->).
  split; [done|]. split; [done|]. split; [|done].
  intros [Hrem Hnil].
  assert (acquire (limiter r) (Z.max (clock r) arrival) = Raise IndexError) as Hraise.
  { apply acquire_raises. rewrite Hnil in Hrem. simpl in Hrem.
    split; [lia|done]. }
  congruence.
Qed.

Record run_inv (m p start : Z) (r : Run) : Prop := {
  ri_max : max_requests (limiter r) = m;
  ri_period : period (limiter r) = p;
  ri_sorted : StronglySorted Z.le (granted r);
  ri_range : Forall (fun g => start <= g <= clock r) (granted r);
  ri_start : start <= clock r;
  ri_queue :
    exists dropped,
      granted r = dropped ++ requests (limiter r) /\
      Forall (fun g => g < clock r - p) dropped }.

Lemma run_inv_call m p start r arrival run :
  run_inv m p start r ->
  call (Ok r) arrival = Ok run ->
  run_inv m p start run.
Proof.
  intros [Hm Hp Hsorted Hrange Hstart (dropped & Hqueue & Hdropped)] Hcall.
  destruct (call_outcome r arrival run Hcall) as (Hle & _ & _ & Hlim & Hgr).
  simpl in *.
  assert (clock r <= clock run) as Hmono by lia.
  split.
  - by rewrite Hlim.
  - by rewrite Hlim.
  - rewrite Hgr. apply StronglySorted_append; [|done|by repeat constructor].
    intros g1 g2 Hg1 ->%list_elem_of_singleton.
    rewrite Forall_forall in Hrange. specialize (Hrange g1 Hg1). lia.
  - rewrite Hgr. apply Forall_app. split.
    + eapply Forall_impl; [apply Hrange|]. intros g Hg. simpl in *. lia.
    + repeat constructor; lia.
  - lia.
  - destruct (prune_split (clock run) p (requests (limiter r))) as (dropped1 & Hsplit & Hd1).
    exists (dropped ++ dropped1). rewrite Hgr, Hlim, Hqueue. simpl. rewrite Hp. split.
    + rewrite Hsplit at 1. by rewrite <- !app_assoc.
    + apply Forall_app. split; [|done].
      eapply Forall_impl; [apply Hdropped|]. intros g Hg. simpl in *. lia.
Qed.

Lemma run_inv_calls self start arrivals run :
  requests self = [] ->
  calls self start arrivals = Ok run ->
  run_inv (max_requests self) (period self) start run /\
  length (granted run) = length arrivals.
Proof.
  intros Hempty. revert run.
  induction arrivals as [|a l IH] using rev_ind; intros run.
  - intros [= <-]. split; [|done]. split; simpl; try done; try lia; try constructor.
    exists []. by rewrite Hempty.
  - rewrite calls_snoc. destruct (calls self start l) as [r|e] eqn:Hcalls; [|done].
    intros Hcall. destruct (IH r eq_refl) as [Hinv Hlen].
    split; [by apply (run_inv_call _ _ _ r a)|].
    destruct (call_outcome r a run Hcall) as (_ & _ & _ & _ & ->).
    rewrite !length_app. simpl. lia.
Qed.

(** X17. In a run that starts with an empty queue every call that returns
    is granted once; the grants come in non-decreasing order, none before
    the start of the run; and the queue is the tail of the list of grants:
    what it has lost are grants made more than a period before the last
    one. *)
Theorem queue_holds_the_latest_grants self start arrivals run :
  requests self = [] ->
  calls self start arrivals = Ok run ->
  length (granted run) = length arrivals /\
  StronglySorted Z.le (granted run) /\
  Forall (fun g => start <= g <= clock run) (granted run) /\
  (exists dropped,
     granted run = dropped ++ requests (limiter run) /\
     Forall (fun g => g < clock run - period self) dropped) /\
  max_requests (limiter run) = max_requests self /\
  period (limiter run) = period self.
Proof.
  intros Hempty Hcalls.
  destruct (run_inv_calls self start arrivals run Hempty Hcalls) as [[] Hlen]. done.
Qed.

Lemma calls_below_limit r arrivals :
  StronglySorted Z.le (clock r :: arrivals) ->
  Z.of_nat (length (requests (limiter r))) + Z.of_nat (length arrivals) <=
    max_requests (limiter r) ->
  exists run,
    fold_left call arrivals (Ok r) = Ok run /\
    granted run = granted r ++ arrivals.
Proof.
  revert r. induction arrivals as [|a l IH]; intros r Hsorted Hroom.
  - exists r. by rewrite app_nil_r.
  - apply StronglySorted_inv in Hsorted as [Hsorted Hfirst].
    apply Forall_cons in Hfirst as [Ha Hfirst].
    simpl in Hroom.
    change (fold_left call (a :: l) (Ok r)) with (fold_left call l (call (Ok r) a)).
    assert (Z.max (clock r) a = a) as Hclock by lia.
    pose proof (prune_length a (period (limiter r)) (requests (limiter r))) as Hlen.
    assert (call (Ok r) a =
            Ok {| limiter :=
                    set_requests (prune a (period (limiter r)) (requests (limiter r)) ++ [a])
                      (limiter r);
                  clock := a;
                  granted := granted r ++ [a] |}) as ->.
    { unfold call. rewrite Hclock, acquire_outcome.
      assert ((0 <? max_requests (limiter r) -
                 Z.of_nat (length (prune a (period (limiter r)) (requests (limiter r))))) = true)
        as -> by (apply Z.ltb_lt; lia).
      assert ((max_requests (limiter r) -
                 Z.of_nat (length (prune a (period (limiter r)) (requests (limiter r)))) <=? 0)
              = false) as -> by (apply Z.leb_gt; lia).
      done. }
    destruct (IH {| limiter :=
                      set_requests (prune a (period (limiter r)) (requests (limiter r)) ++ [a])
                        (limiter r);
                    clock := a;
                    granted := granted r ++ [a] |})
      as (run & -> & Hgr).
    + simpl. by apply StronglySorted_inv in Hsorted as [? ?]; constructor.
    + simpl. rewrite length_app. simpl. lia.
    + exists run. split; [done|]. rewrite Hgr. simpl. by rewrite <- app_assoc.
Qed.

(** X18. [reset] empties the queue whatever it held: afterwards
    [get_remaining_requests] is [max_requests], [get_reset_time] is 0, and
    the next [max_requests] calls, arriving in order, are each granted on
    arrival. *)
Theorem reset_limiter_grants_on_arrival self start arrivals :
  StronglySorted Z.le (start :: arrivals) ->
  Z.of_nat (length arrivals) <= max_requests self ->
  (get_remaining_requests (reset self) start).2 = max_requests self /\
  get_reset_time (reset self) start = 0 /\
  exists run,
    calls (reset self) start arrivals = Ok run /\
    granted run = arrivals.
Proof.
  intros Hsorted Hroom. split; [unfold get_remaining_requests; simpl; lia|]. split; [done|].
  destruct (calls_below_limit {| limiter := reset self; clock := start; granted := [] |}
              arrivals) as (run & Hrun & Hgr); [done|simpl; lia|].
  by exists run.
Qed.

End LimiterRuns.

(** *** The limiter on sample runs *)

Module SampleLimiter.
Import RateLimiter.

(** One request per ten seconds, with a grant on record at 1000. *)
Definition busy : t := {| max_requests := 1; period := 10; requests := [1000] |}.

(** What [acquire] leaves of [busy] when called at 1005: it returns at
    1010. *)
Definition busy_after : t := {| max_requests := 1; period := 10; requests := [1000; 1010] |}.

(** Two requests per ten seconds, nothing on record. *)
Definition two_per_ten : t := {| max_requests := 2; period := 10; requests := [] |}.

(** What [acquire] leaves of [busy] when called at 1005 and woken at 1011,
    a second late: the request of 1000 is pruned. *)
Definition busy_late : t := {| max_requests := 1; period := 10; requests := [1011] |}.

(** [two_per_ten] after callers at 0, 1 and 5: the third waits until 10. *)
Definition after_three : Run :=
  {| limiter := {| max_requests := 2; period := 10; requests := [0; 1; 10] |};
     clock := 10;
     granted := [0; 1; 10] |}.

End SampleLimiter.

Section LimiterWitnesses.
Import RateLimiter RateLimiterQueries RateLimiterClock SampleLimiter.

Lemma acquire_waits_witness :
  Some 5 =
    (if ((get_remaining_requests busy 1005).2 <=? 0) &&
        (0 <? get_reset_time (get_remaining_requests busy 1005).1 1005)
     then Some (get_reset_time (get_remaining_requests busy 1005).1 1005) else None) /\
  1011 = 1011 /\
  busy_late =
    set_requests
      (prune 1011 (period busy) (requests (get_remaining_requests busy 1005).1) ++ [1011])
      busy.
Proof.
  apply (acquire_waits_for_the_reset_time busy 1005 1011 busy_late 1011 (Some 5)).
  reflexivity.
Defined.

Lemma grant_uses_one_request_witness :
  (get_remaining_requests busy_late 1011).2 = (get_remaining_requests busy 1011).2 - 1.
Proof.
  apply (grant_uses_one_request busy 1005 1011 busy_late 1011 (Some 5)).
  - simpl. lia.
  - lia.
  - reflexivity.
Defined.

Lemma reading_does_not_disturb_witness :
  acquire (get_remaining_requests busy 1005).1 1012 = acquire busy 1012 /\
  get_remaining_requests (get_remaining_requests busy 1005).1 1012 =
    get_remaining_requests busy 1012 /\
  (get_remaining_requests busy 1005).2 <= max_requests busy.
Proof.
  apply (reading_does_not_disturb busy 1005 1012). lia.
Defined.

Lemma queue_holds_the_latest_grants_witness :
  length (granted after_three) = length [0; 1; 5] /\
  StronglySorted Z.le (granted after_three) /\
  Forall (fun g => 0 <= g <= clock after_three) (granted after_three) /\
  (exists dropped,
     granted after_three = dropped ++ requests (limiter after_three) /\
     Forall (fun g => g < clock after_three - period two_per_ten) dropped) /\
  max_requests (limiter after_three) = max_requests two_per_ten /\
  period (limiter after_three) = period two_per_ten.
Proof.
  apply (queue_holds_the_latest_grants two_per_ten 0 [0; 1; 5] after_three); reflexivity.
Defined.

Lemma reset_limiter_witness :
  (get_remaining_requests (reset busy_after) 2000).2 = max_requests busy_after /\
  get_reset_time (reset busy_after) 2000 = 0 /\
  exists run,
    calls (reset busy_after) 2000 [2003] = Ok run /\
    granted run = [2003].
Proof.
  apply (reset_limiter_grants_on_arrival busy_after 2000 [2003]).
  - repeat constructor. lia.
  - simpl. lia.
Defined.

End LimiterWitnesses.

(** ** Clusters are whole components *)

Section ClusterComponents.
Variable set_iter : gset string -> list string.
Hypothesis set_iter_sound : forall s x, x ∈ set_iter s -> x ∈ s.
Hypothesis set_iter_complete : forall s x, x ∈ s -> x ∈ set_iter s.

(** The adjacency list holds, for each company, the other companies that
    share a director identity with it. *)
Definition graph_exact (connections : list Connection)
    (graph : gmap string (gset string)) : Prop :=
  forall a b, b ∈ graph !!! a <-> adjacent connections a b /\ a <> b.

Lemma add_related_elem company graph related a b :
  b ∈ add_related company graph related !!! a <->
  b ∈ graph !!! a \/ (a = company /\ b = related /\ related <> company).
Proof.
  unfold add_related. destruct (String.eqb_spec related company) as [->|Hne]; simpl.
  - split; [by left|]. by intros [?|(_ & _ & ?)].
  - destruct (decide (company = a)) as [<-|Hna].
    + rewrite lookup_total_insert_eq, elem_of_union, elem_of_singleton. split.
      * intros [->|?]; [by right|by left].
      * intros [?|(_ & -> & _)]; [by right|by left].
    + rewrite lookup_total_insert_ne by done. split; [by left|].
      intros [?|(-> & _)]; done.
Qed.

Lemma add_related_fold_elem company related graph a b :
  b ∈ fold_left (add_related company) related graph !!! a <->
  b ∈ graph !!! a \/ (a = company /\ b ∈ related /\ b <> company).
Proof.
  revert graph. induction related as [|r l IH]; intros graph; simpl.
  - split; [by left|]. by intros [?|(_ & ?%elem_of_nil & _)].
  - rewrite IH, add_related_elem, elem_of_cons. split.
    + intros [[?|(-> & -> & ?)]|(-> & ? & ?)]; [by left|right|right]; by auto.
    + intros [?|(-> & [->|?] & ?)]; [by left; left|left; right|right]; by auto.
Qed.

Lemma related_companies_elem connections director r :
  r ∈ related_companies connections director <->
  exists c, c ∈ connections /\ c_company_number c = r /\ c_director_id c = director.
Proof.
  unfold related_companies. rewrite list_elem_of_fmap. split.
  - intros (c & -> & Hc). apply list_elem_of_In, List.filter_In in Hc as [Hin Heq].
    exists c. split; [by apply list_elem_of_In|]. split; [done|]. by apply String.eqb_eq.
  - intros (c & Hin & <- & <-). exists c. split; [done|].
    apply list_elem_of_In, List.filter_In. split; [by apply list_elem_of_In|].
    apply String.eqb_refl.
Qed.

Lemma build_graph_exact connections :
  graph_exact connections (build_graph connections).
Proof.
  unfold build_graph.
  assert (forall l graph a b,
    b ∈ fold_left
          (fun graph connection =>
             fold_left (add_related (c_company_number connection))
               (related_companies connections (c_director_id connection)) graph)
          l graph !!! a <->
    b ∈ graph !!! a \/
    exists c1, c1 ∈ l /\ c_company_number c1 = a /\
               b ∈ related_companies connections (c_director_id c1) /\ b <> a) as Hfold.
  { intros l. induction l as [|c l IH]; intros graph a b; simpl.
    - split; [by left|]. by intros [?|(c1 & ?%elem_of_nil & _)].
    - rewrite IH, add_related_fold_elem. split.
      + intros [[?|(-> & ? & ?)]|(c1 & ? & ? & ? & ?)]; [by left|right|right].
        * exists c. split; [apply list_elem_of_here|done].
        * exists c1. split; [by apply list_elem_of_further|done].
      + intros [?|(c1 & [->|?]%elem_of_cons & <- & ? & ?)]; [by left; left|left; right|right].
        * done.
        * by exists c1. }
  intros a b. rewrite Hfold, lookup_total_empty. split.
  - intros [?%elem_of_empty|(c1 & Hc1 & <- & Hb & Hne)]; [done|].
    apply related_companies_elem in Hb as (c2 & Hc2 & <- & Hdir).
    split; [by exists c1, c2|done].
  - intros [(c1 & c2 & Hc1 & Hc2 & <- & <- & Hdir) Hne]. right.
    exists c1. split; [done|]. split; [done|]. split; [|done].
    apply related_companies_elem. by exists c2.
Qed.

(** The visit of [dfs]: the step of its loop over the neighbours. *)
Definition dfs_step (graph : gmap string (gset string)) (fuel : nat)
    (acc : option (gset string * list string)) (neighbor : string)
    : option (gset string * list string) :=
  match acc with
  | None => None
  | Some (visited, cluster) =>
      if bool_decide (neighbor ∈ visited) then Some (visited, cluster)
      else dfs set_iter graph fuel neighbor (visited, cluster)
  end.

Lemma dfs_step_none graph fuel l : fold_left (dfs_step graph fuel) l None = None.
Proof. induction l as [|x l IH]; simpl; [done|apply IH]. Qed.

(** [dfs] from an unvisited node appends the node and companies not yet
    visited, each once, and visits every neighbour of what it appends. *)
Lemma dfs_complete graph fuel :
  forall node visited cluster visited' cluster',
    node ∉ visited ->
    dfs set_iter graph fuel node (visited, cluster) = Some (visited', cluster') ->
    exists new,
      cluster' = cluster ++ node :: new /\
      (forall x, x ∈ visited' <-> x ∈ visited \/ x ∈ node :: new) /\
      NoDup (node :: new) /\
      (forall x, x ∈ node :: new -> x ∉ visited) /\
      (forall x y, x ∈ node :: new -> y ∈ graph !!! x -> y ∈ visited').
Proof.
  induction fuel as [|fuel IH]; intros node visited cluster visited' cluster' Hfresh; [done|].
  simpl. change (fold_left _ ?l ?a) with (fold_left (dfs_step graph fuel) l a).
  assert (forall l new0 v c,
    c = cluster ++ node :: new0 ->
    (forall x, x ∈ v <-> x ∈ visited \/ x ∈ node :: new0) ->
    NoDup (node :: new0) ->
    (forall x, x ∈ node :: new0 -> x ∉ visited) ->
    (forall x y, x ∈ new0 -> y ∈ graph !!! x -> y ∈ v) ->
    fold_left (dfs_step graph fuel) l (Some (v, c)) = Some (visited', cluster') ->
    exists new,
      cluster' = cluster ++ node :: new /\
      (forall x, x ∈ visited' <-> x ∈ visited \/ x ∈ node :: new) /\
      NoDup (node :: new) /\
      (forall x, x ∈ node :: new -> x ∉ visited) /\
      (forall x y, x ∈ new -> y ∈ graph !!! x -> y ∈ visited') /\
      (forall x, x ∈ v -> x ∈ visited') /\
      (forall x, x ∈ l -> x ∈ visited')) as Hfold.
  { intros l. induction l as [|nb l IHl]; intros new0 v c Hc Hv Hnd Hnew Hclosed; simpl.
    - intros [= <- <-]. exists new0. repeat split; try done; try apply Hv.
      by intros x ?%elem_of_nil.
    - destruct (bool_decide (nb ∈ v)) eqn:Hnb.
      + apply bool_decide_eq_true in Hnb. intros Hrest.
        destruct (IHl new0 v c Hc Hv Hnd Hnew Hclosed Hrest)
          as (new & HC & HV & Hnd' & Hnew' & Hclosed' & Hmono & Hall).
        exists new. repeat split; try done; try apply HV.
        intros x [->|?]%elem_of_cons; [by apply Hmono|by apply Hall].
      + apply bool_decide_eq_false in Hnb.
        destruct (dfs set_iter graph fuel nb (v, c)) as [[v1 c1]|] eqn:Hdfs;
          [|by rewrite dfs_step_none].
        intros Hrest.
        destruct (IH nb v c v1 c1 Hnb Hdfs) as (new1 & Hc1 & Hv1 & Hnd1 & Hnew1 & Hclosed1).
        destruct (IHl (new0 ++ nb :: new1) v1 c1) as
          (new & HC & HV & Hnd' & Hnew' & Hclosed' & Hmono & Hall); try done.
        * rewrite Hc1, Hc. by rewrite <- app_assoc.
        * intros x. rewrite Hv1, Hv, !elem_of_cons, elem_of_app, elem_of_cons. tauto.
        * rewrite app_comm_cons. apply NoDup_app. split; [done|]. split; [|done].
          intros x Hx Hx1. apply (Hnew1 x Hx1). apply Hv. by right.
        * intros x. rewrite app_comm_cons, elem_of_app. intros [Hx|Hx]; [by apply Hnew|].
          intros Hin. apply (Hnew1 x Hx). apply Hv. by left.
        * intros x y [Hx|Hx]%elem_of_app Hy.
          -- apply Hv1. left. by apply (Hclosed x y).
          -- by apply (Hclosed1 x y).
        * exists new. repeat split; try done; try apply HV.
          -- intros x Hx. apply Hmono, Hv1. by left.
          -- intros x [->|?]%elem_of_cons; [|by apply Hall].
             apply Hmono, Hv1. right. apply list_elem_of_here. }
  intros Hrun.
  destruct (Hfold (set_iter (graph !!! node)) [] ({[node]} ∪ visited) (cluster ++ [node]))
    as (new & HC & HV & Hnd & Hnew & Hclosed & Hmono & Hall); try done.
  - intros x. rewrite elem_of_union, elem_of_singleton, list_elem_of_singleton. tauto.
  - apply NoDup_singleton.
  - by intros x ->%list_elem_of_singleton.
  - by intros x y ?%elem_of_nil.
  - exists new. repeat split; try done; try apply HV.
    intros x y [->|Hx]%elem_of_cons Hy; [|by apply (Hclosed x y)].
    by apply Hall, set_iter_complete.
Qed.

(** Lines 297-302: the step of the loop over the companies. *)
Definition discover_step (graph : gmap string (gset string)) (fuel : nat)
    (acc : option (gset string * list (list string))) (company : string)
    : option (gset string * list (list string)) :=
  match acc with
  | None => None
  | Some (visited, clusters) =>
      if bool_decide (company ∈ visited) then Some (visited, clusters)
      else
        match dfs set_iter graph fuel company (visited, []) with
        | None => None
        | Some (visited', cluster) =>
            Some (visited',
                  if (1 <? length cluster)%nat then clusters ++ [cluster]
                  else clusters)
        end
  end.

Lemma discover_step_none graph fuel l : fold_left (discover_step graph fuel) l None = None.
Proof. induction l as [|x l IH]; simpl; [done|apply IH]. Qed.

Record components_inv (keys : list string) (graph : gmap string (gset string))
    (visited : gset string) (clusters : list (list string)) : Prop := {
  ci_closed : forall x y, x ∈ visited -> y ∈ graph !!! x -> y ∈ visited;
  ci_visited : forall cluster x, cluster ∈ clusters -> x ∈ cluster -> x ∈ visited;
  ci_nodup : Forall (fun cluster => NoDup cluster) clusters;
  ci_disjoint : forall cl1 cl2 x,
    cl1 ∈ clusters -> cl2 ∈ clusters -> x ∈ cl1 -> x ∈ cl2 -> cl1 = cl2;
  ci_whole : forall cluster x y,
    cluster ∈ clusters -> x ∈ cluster -> y ∈ graph !!! x -> y ∈ cluster;
  ci_covered : forall x y,
    x ∈ visited -> y ∈ graph !!! x -> exists cluster, cluster ∈ clusters /\ x ∈ cluster;
  ci_head : forall cluster,
    cluster ∈ clusters -> exists k rest, cluster = k :: rest /\ k ∈ keys }.

Lemma discover_fold keys graph fuel :
  (forall a b, b ∈ graph !!! a -> a ∈ graph !!! b) ->
  (forall a, a ∉ graph !!! a) ->
  forall l visited clusters visited' clusters',
    components_inv keys graph visited clusters ->
    (forall k, k ∈ l -> k ∈ keys) ->
    fold_left (discover_step graph fuel) l (Some (visited, clusters)) =
      Some (visited', clusters') ->
    components_inv keys graph visited' clusters' /\
    (forall x, x ∈ visited -> x ∈ visited') /\
    (forall k, k ∈ l -> k ∈ visited').
Proof.
  intros Hsym Hirr l.
  induction l as [|company l IH]; intros visited clusters visited' clusters' Hinv Hkeys; simpl.
  - intros [= <- <-]. split; [done|]. split; [done|]. by intros k ?%elem_of_nil.
  - destruct (bool_decide (company ∈ visited)) eqn:Hin.
    + apply bool_decide_eq_true in Hin. intros Hrest.
      destruct (IH _ _ _ _ Hinv ltac:(intros; apply Hkeys; by apply list_elem_of_further) Hrest)
        as (Hinv' & Hmono & Hall).
      split; [done|]. split; [done|].
      intros k [->|?]%elem_of_cons; [by apply Hmono|by apply Hall].
    + apply bool_decide_eq_false in Hin.
      destruct (dfs set_iter graph fuel company (visited, [])) as [[v1 cluster]|] eqn:Hdfs;
        [|by rewrite discover_step_none].
      intros Hrest.
      destruct (dfs_complete graph fuel company visited [] v1 cluster Hin Hdfs)
        as (new & Hc & Hv1 & Hnd & Hnew & Hclosed).
      simpl in Hc. subst cluster.
      destruct Hinv as [Hcl Hvis Hnodup Hdisj Hwhole Hcov Hhead].
      (* a neighbour of a new company is new *)
      assert (forall x y, x ∈ company :: new -> y ∈ graph !!! x -> y ∈ company :: new)
        as Hnew_whole.
      { intros x y Hx Hy. destruct (proj1 (Hv1 y) (Hclosed x y Hx Hy)) as [Hold|?]; [|done].
        exfalso. apply (Hnew x Hx). apply (Hcl y x Hold). by apply Hsym. }
      destruct (IH v1 (if (1 <? length (company :: new))%nat
                      then clusters ++ [company :: new] else clusters)
                  visited' clusters') as (Hinv' & Hmono & Hall); [| |done|].
      * destruct (1 <? length (company :: new))%nat eqn:Hlen.
        -- split.
           ++ intros x y [Hx|Hx]%Hv1 Hy; apply Hv1; [left; by apply (Hcl x y)|].
              right. by apply (Hnew_whole x y).
           ++ intros cl x [Hcl1| ->%list_elem_of_singleton]%elem_of_app Hx; apply Hv1;
                [left; by apply (Hvis cl)|by right].
           ++ apply Forall_app. split; [done|]. constructor; [done|constructor].
           ++ intros cl1 cl2 x [H1| ->%list_elem_of_singleton]%elem_of_app
                [H2| ->%list_elem_of_singleton]%elem_of_app Hx1 Hx2.
              ** by apply (Hdisj cl1 cl2 x).
              ** exfalso. apply (Hnew x Hx2). by apply (Hvis cl1).
              ** exfalso. apply (Hnew x Hx1). by apply (Hvis cl2).
              ** done.
           ++ intros cl x y [H1| ->%list_elem_of_singleton]%elem_of_app Hx Hy;
                [by apply (Hwhole cl x y)|by apply (Hnew_whole x y)].
           ++ intros x y [Hx|Hx]%Hv1 Hy.
              ** destruct (Hcov x y Hx Hy) as (cl & Hcl1 & Hxcl). exists cl.
                 split; [apply elem_of_app; by left|done].
              ** exists (company :: new). split; [|done].
                 apply elem_of_app. right. apply list_elem_of_here.
           ++ intros cl [H1| ->%list_elem_of_singleton]%elem_of_app; [by apply Hhead|].
              exists company, new. split; [done|]. apply Hkeys, list_elem_of_here.
        -- (* the company stands alone: it has no neighbour *)
           assert (new = []) as ->.
           { destruct new; [done|]. simpl in Hlen. done. }
           split; try done.
           ++ intros x y [Hx|Hx]%Hv1 Hy; apply Hv1; [left; by apply (Hcl x y)|].
              right. by apply (Hnew_whole x y).
           ++ intros cl x Hcl1 Hx. apply Hv1. left. by apply (Hvis cl).
           ++ intros x y [Hx|Hx]%Hv1 Hy; [by apply (Hcov x y)|].
              apply list_elem_of_singleton in Hx as ->.
              pose proof (Hnew_whole company y ltac:(apply list_elem_of_here) Hy) as Hy'.
              apply list_elem_of_singleton in Hy' as ->. by apply Hirr in Hy.
      * intros k Hk. by apply Hkeys, list_elem_of_further.
      * split; [done|]. split.
        -- intros x Hx. apply Hmono, Hv1. by left.
        -- intros k [->|?]%elem_of_cons; [|by apply Hall].
           apply Hmono, Hv1. right. apply list_elem_of_here.
Qed.

Lemma discover_clusters_components net discovered :
  discover_clusters set_iter net = Some discovered ->
  exists visited,
    components_inv (dict_keys (net_companies net)) (build_graph (net_connections net))
      visited discovered /\
    forall k, k ∈ dict_keys (net_companies net) -> k ∈ visited.
Proof.
  intros Hd.
  pose proof (build_graph_exact (net_connections net)) as Hexact.
  unfold discover_clusters in Hd.
  change (fold_left _ ?l ?a) with
    (fold_left (discover_step (build_graph (net_connections net))
                  (S (length (named_companies net)))) l a) in Hd.
  destruct (fold_left _ _ _) as [[visited' clusters']|] eqn:Hfold; [|done].
  injection Hd as <-. exists visited'.
  destruct (discover_fold (dict_keys (net_companies net))
              (build_graph (net_connections net)) (S (length (named_companies net))))
    with (l := dict_keys (net_companies net)) (visited := (∅ : gset string))
         (clusters := @nil (list string)) (visited' := visited') (clusters' := clusters')
    as (Hinv & _ & Hall); try done.
  - intros a b [Hadj Hne]%Hexact. apply Hexact. split; [by apply adjacent_sym|done].
  - intros a [_ Hne]%Hexact. done.
  - split; try done; try set_solver; constructor.
Qed.

(** X20. The clusters [find_company_clusters] returns are whole connected
    components: no company is listed twice in a cluster or in two clusters;
    a company that shares a director identity with a company of a cluster
    is in that cluster; every company of the companies map that shares a
    director identity with another company is in a cluster; and every
    cluster starts with a company of the companies map. *)
Theorem clusters_are_whole_components net :
  exists clusters,
    find_company_clusters set_iter net = Some clusters /\
    Forall (fun cluster => NoDup cluster) clusters /\
    (forall cl1 cl2 x,
       cl1 ∈ clusters -> cl2 ∈ clusters -> x ∈ cl1 -> x ∈ cl2 -> cl1 = cl2) /\
    (forall cluster x y,
       cluster ∈ clusters -> x ∈ cluster ->
       adjacent (net_connections net) x y -> y ∈ cluster) /\
    (forall c b,
       c ∈ dict_keys (net_companies net) ->
       adjacent (net_connections net) c b -> b <> c ->
       exists cluster, cluster ∈ clusters /\ c ∈ cluster) /\
    (forall cluster,
       cluster ∈ clusters ->
       exists k rest, cluster = k :: rest /\ k ∈ dict_keys (net_companies net)).
Proof.
  destruct (discover_clusters_ok set_iter set_iter_sound net) as (discovered & Hd & _).
  exists (sort_by_len_desc discovered).
  split; [unfold find_company_clusters; by rewrite Hd|].
  pose proof (build_graph_exact (net_connections net)) as Hexact.
  destruct (discover_clusters_components net discovered Hd)
    as (visited' & [Hcl Hvis Hnodup Hdisj Hwhole Hcov Hhead] & Hall).
  split; [by rewrite sort_by_len_desc_perm|].
  split; [|split; [|split]].
  - intros cl1 cl2 x. rewrite !sort_by_len_desc_perm. apply Hdisj.
  - intros cl x y. rewrite sort_by_len_desc_perm. intros Hin Hx Hadj.
    destruct (decide (x = y)) as [<-|Hne]; [done|].
    apply (Hwhole cl x y Hin Hx). by apply Hexact.
  - intros c b Hc Hadj Hne.
    destruct (Hcov c b) as (cl & Hin & Hx); [by apply Hall|apply Hexact; by split|].
    exists cl. by rewrite sort_by_len_desc_perm.
  - intros cl. rewrite sort_by_len_desc_perm. apply Hhead.
Qed.

Lemma adjacent_recorded net a b :
  Forall (connection_recorded net) (net_connections net) ->
  adjacent (net_connections net) a b ->
  exists node, dict_get b (net_companies net) = Some node.
Proof.
  intros Hrec (c1 & c2 & _ & Hc2 & _ & <- & _).
  rewrite Forall_forall in Hrec. destruct (Hrec c2 Hc2) as (node & Hnode & _). eauto.
Qed.

Lemma clusters_hold_recorded_companies net :
  Forall (connection_recorded net) (net_connections net) ->
  exists clusters,
    find_company_clusters set_iter net = Some clusters /\
    forall cluster x,
      cluster ∈ clusters -> x ∈ cluster ->
      exists node, dict_get x (net_companies net) = Some node.
Proof.
  intros Hrec.
  destruct (discover_clusters_ok set_iter set_iter_sound net) as (discovered & Hd & Hok).
  exists (sort_by_len_desc discovered).
  split; [unfold find_company_clusters; by rewrite Hd|].
  destruct (discover_clusters_components net discovered Hd) as (visited' & Hinv & _).
  intros cl x. rewrite sort_by_len_desc_perm. intros Hin Hx.
  destruct (ci_head _ _ _ _ Hinv cl Hin) as (k & rest & -> & Hk).
  rewrite Forall_forall in Hok. destruct (Hok _ Hin) as [_ Hreach].
  specialize (Hreach k x ltac:(apply list_elem_of_here) Hx).
  assert (exists node, dict_get k (net_companies net) = Some node) as Hnode.
  { destruct (dict_get k (net_companies net)) as [node|] eqn:E; [by eauto|].
    by apply dict_get_None in E. }
  clear Hin Hx Hk. induction Hreach as [|a b c Hab _ IH]; [done|].
  apply IH. by apply (adjacent_recorded net a b).
Qed.

(** X30. The clusters [find_company_clusters] returns for the snapshot of a
    scan are made of recorded companies: every company of every cluster is a
    key of the companies map of the snapshot, so the lookup of a cluster
    member in that map finds its node. *)
Theorem clusters_of_a_scan_are_recorded {W} {U : StrUpper} (api_client : Facade W)
    (max_depth max_companies : Z) (active_only : bool) self seed_companies :
  returned
    (scan_network api_client max_depth max_companies active_only self seed_companies)
    (fun net _ _ =>
       exists clusters,
         find_company_clusters set_iter net = Some clusters /\
         forall cluster x,
           cluster ∈ clusters -> x ∈ cluster ->
           exists node, dict_get x (net_companies net) = Some node).
Proof.
  apply scan_network_returned. intros n st _. subst st.
  apply clusters_hold_recorded_companies. simpl.
  apply (inv_connections _ _ (scan_inv_run api_client max_depth max_companies active_only n
                                self seed_companies)).
Qed.

End ClusterComponents.

Lemma clusters_components_witness :
  exists clusters,
    find_company_clusters elements SampleNetwork.six_companies = Some clusters /\
    Forall (fun cluster => NoDup cluster) clusters /\
    (forall cl1 cl2 x,
       cl1 ∈ clusters -> cl2 ∈ clusters -> x ∈ cl1 -> x ∈ cl2 -> cl1 = cl2) /\
    (forall cluster x y,
       cluster ∈ clusters -> x ∈ cluster ->
       adjacent (net_connections SampleNetwork.six_companies) x y -> y ∈ cluster) /\
    (forall c b,
       c ∈ dict_keys (net_companies SampleNetwork.six_companies) ->
       adjacent (net_connections SampleNetwork.six_companies) c b -> b <> c ->
       exists cluster, cluster ∈ clusters /\ c ∈ cluster) /\
    (forall cluster,
       cluster ∈ clusters ->
       exists k rest,
         cluster = k :: rest /\ k ∈ dict_keys (net_companies SampleNetwork.six_companies)).
Proof.
  apply (clusters_are_whole_components elements).
  - intros s x Hx. by apply elem_of_elements in Hx.
  - intros s x Hx. by apply elem_of_elements.
Defined.

Lemma clusters_of_a_scan_witness :
  returned
    (scan_network (client_of Sample.three_companies) 2 100 true (new_scanner tt)
       ["AA000001"%string])
    (fun net _ _ =>
       exists clusters,
         find_company_clusters elements net = Some clusters /\
         forall cluster x,
           cluster ∈ clusters -> x ∈ cluster ->
           exists node, dict_get x (net_companies net) = Some node).
Proof.
  apply (clusters_of_a_scan_are_recorded elements).
  - intros s x Hx. by apply elem_of_elements in Hx.
  - intros s x Hx. by apply elem_of_elements.
Defined.

(** ** Names and links *)

Lemma upper_app a b : PyStr.upper (a +:+ b) = PyStr.upper a +:+ PyStr.upper b.
Proof.
  induction a as [|c a IH]; [done|].
  rewrite !append_cons. simpl. by rewrite IH, append_cons.
Qed.

Lemma prefix_app kw rest : String.prefix kw (kw +:+ rest) = true.
Proof.
  induction kw as [|c kw IH]; simpl; [by destruct rest|].
  destruct (Ascii.ascii_dec c c); [apply IH|done].
Qed.

Lemma contains_unfold kw s :
  PyStr.contains kw s =
  String.prefix kw s ||
  match s with
  | EmptyString => false
  | String _ s' => PyStr.contains kw s'
  end.
Proof. by destruct s. Qed.

Lemma contains_app kw pre post : PyStr.contains kw (pre +:+ kw +:+ post) = true.
Proof.
  induction pre as [|c pre IH].
  - change ("" +:+ kw +:+ post)%string with (kw +:+ post).
    by rewrite contains_unfold, prefix_app.
  - rewrite append_cons. simpl. rewrite IH. apply orb_true_r.
Qed.

(** X21. An officer is taken for a company, and never searched, as soon as
    the name contains one of the keywords LIMITED, LTD, PLC, LLP, COMPANY,
    CORPORATE anywhere, in any letter case: the test is on substrings of
    the upper-cased name, not on words. (With the case mapping of ASCII.) *)
Theorem keyword_anywhere_makes_an_officer_corporate pre k post keyword :
  keyword ∈ corporate_keywords ->
  PyStr.upper k = keyword ->
  is_corporate_officer (U := ascii_case) (pre +:+ k +:+ post) = true.
Proof.
  intros Hin Hk. unfold is_corporate_officer. apply existsb_exists.
  exists keyword. split; [by apply list_elem_of_In|].
  rewrite !upper_app, Hk. apply contains_app.
Qed.

Lemma keyword_anywhere_witness :
  is_corporate_officer (U := ascii_case) ("EVE BA" +:+ "ltd" +:+ "ORF") = true.
Proof.
  apply (keyword_anywhere_makes_an_officer_corporate "EVE BA" "ltd" "ORF" "LTD").
  - set_solver.
  - reflexivity.
Defined.

Lemma split_nonempty sep s : PyStr.split sep s <> [].
Proof.
  induction s as [|c s IH]; simpl; [done|].
  destruct (Ascii.eqb c sep); [done|]. by destruct (PyStr.split sep s).
Qed.

Lemma split_app_sep sep a b :
  PyStr.split sep (a +:+ String sep b) = PyStr.split sep a ++ PyStr.split sep b.
Proof.
  induction a as [|c a IH].
  - change ("" +:+ String sep b)%string with (String sep b). simpl.
    by rewrite Ascii.eqb_refl.
  - rewrite append_cons. simpl. rewrite IH.
    destruct (Ascii.eqb c sep); [done|].
    pose proof (split_nonempty sep a). by destruct (PyStr.split sep a).
Qed.

Lemma contains_char sep c s :
  PyStr.contains (String sep "") (String c s) =
  Ascii.eqb sep c || PyStr.contains (String sep "") s.
Proof.
  simpl. destruct (Ascii.ascii_dec sep c) as [->|Hne].
  - rewrite Ascii.eqb_refl. by destruct s.
  - apply Ascii.eqb_neq in Hne. rewrite Hne. by destruct s.
Qed.

Lemma split_no_sep sep s :
  PyStr.contains (String sep "") s = false -> PyStr.split sep s = [s].
Proof.
  induction s as [|c s IH]; [done|].
  rewrite contains_char. intros [Hc Hs]%orb_false_elim.
  simpl. rewrite Ascii.eqb_sym, Hc. by rewrite IH.
Qed.

(** X22. The officer id is the last but one segment of the link: from a
    link that ends in [/id/tail], with no slash in [id] or [tail], the
    scanner takes [id], whatever precedes; a link without a slash makes
    [split('/')[-2]] raise [IndexError]. *)
Theorem officer_id_is_the_segment_before_last :
  (forall pre officer_api_id tail,
     PyStr.contains "/" officer_api_id = false ->
     PyStr.contains "/" tail = false ->
     index_from_end
       (PyStr.split "/" (pre +:+ "/" +:+ officer_api_id +:+ "/" +:+ tail)) 2 =
     Ok officer_api_id) /\
  (forall link,
     PyStr.contains "/" link = false ->
     index_from_end (PyStr.split "/" link) 2 = Raise IndexError).
Proof.
  split.
  - intros pre officer_api_id tail Hid Htail.
    change ("/" +:+ officer_api_id +:+ "/" +:+ tail)%string
      with (String "/" (officer_api_id +:+ String "/" tail)).
    rewrite !split_app_sep, (split_no_sep _ _ Hid), (split_no_sep _ _ Htail).
    unfold index_from_end. rewrite !rev_app_distr. done.
  - intros link Hlink. by rewrite (split_no_sep _ _ Hlink).
Qed.


(** A client that counts the requests it sends. *)
Definition counted {W B} (request_json : Request -> W -> result B * W)
    (r : Request) (wn : W * nat) : result B * (W * nat) :=
  let '(out, w') := request_json r wn.1 in (out, (w', S wn.2)).

(** A registry that serves the pages of one result list. *)
Definition serve_page {A} (results : list A) (p : Params) : Page A :=
  {| pg_items :=
       Some (take (Z.to_nat (pa_items_per_page p))
               (drop (Z.to_nat (pa_start_index p)) results));
     pg_total_results := Some (Z.of_nat (length results)) |}.

Section Paging.
Context {W A : Type}.
Variable request_json : Request -> W -> result (Page A) * W.
Variable base_url : string.

Lemma get_officers_loop_turn fuel company_number items_per_page all_officers start_index w :
  CompaniesHouseClient.get_officers_loop request_json base_url (S fuel) company_number
    items_per_page all_officers start_index w =
  match request_json
          {| rq_url := CompaniesHouseClient.officers_url base_url company_number;
             rq_params := None |} w with
  | (Raise e, w') => Some (Raise e, w')
  | (Ok data, w') =>
      if start_index + Z.of_nat (length (default [] (pg_items data))) >=?
         default 0 (pg_total_results data)
      then Some (Ok (all_officers ++ default [] (pg_items data)), w')
      else CompaniesHouseClient.get_officers_loop request_json base_url fuel company_number
             items_per_page (all_officers ++ default [] (pg_items data))
             (start_index + items_per_page) w'
  end.
Proof. done. Qed.

Lemma search_officers_loop_turn {W'} (request : Request -> W' -> result (Page A) * W')
    fuel officer_name items_per_page all_results start_index w :
  CompaniesHouseClient.search_officers_loop request base_url (S fuel) officer_name
    items_per_page all_results start_index w =
  match request
          {| rq_url := CompaniesHouseClient.search_url base_url;
             rq_params := Some {| pa_q := Some officer_name;
                                  pa_items_per_page := items_per_page;
                                  pa_start_index := start_index |} |} w with
  | (Raise e, w') => Some (Raise e, w')
  | (Ok data, w') =>
      if (start_index + Z.of_nat (length (default [] (pg_items data))) >=?
          default 0 (pg_total_results data)) || (start_index >=? 200)
      then Some (Ok (all_results ++ default [] (pg_items data)), w')
      else CompaniesHouseClient.search_officers_loop request base_url fuel officer_name
             items_per_page (all_results ++ default [] (pg_items data))
             (start_index + items_per_page) w'
  end.
Proof. done. Qed.

Lemma get_officers_loop_fixed company_number items_per_page (page : Page A) :
  (forall w,
     request_json
       {| rq_url := CompaniesHouseClient.officers_url base_url company_number;
          rq_params := None |} w = (Ok page, w)) ->
  0 < items_per_page ->
  forall (m : nat) start_index all_officers w,
    default 0 (pg_total_results page) -
    Z.of_nat (length (default [] (pg_items page))) - start_index <= Z.of_nat m ->
    exists k : nat,
      CompaniesHouseClient.get_officers_loop request_json base_url (S m) company_number
        items_per_page all_officers start_index w =
      Some (Ok (all_officers ++ concat (replicate k (default [] (pg_items page)))),
            w) /\
      (1 <= k)%nat /\
      default 0 (pg_total_results page) <=
        start_index + (Z.of_nat k - 1) * items_per_page +
        Z.of_nat (length (default [] (pg_items page))) /\
      ((2 <= k)%nat ->
       start_index + (Z.of_nat k - 2) * items_per_page +
       Z.of_nat (length (default [] (pg_items page))) <
       default 0 (pg_total_results page)).
Proof.
  intros Hserver Hipp.
  set (its := default [] (pg_items page)).
  set (total := default 0 (pg_total_results page)).
  induction m as [|m IH]; intros start_index all_officers w Hm.
  - exists 1%nat. rewrite get_officers_loop_turn, Hserver.
    fold its total.
    destruct (Z.geb_spec (start_index + Z.of_nat (length its)) total); [|lia].
    simpl. rewrite app_nil_r. repeat split; try lia.
  - rewrite get_officers_loop_turn, Hserver. fold its total.
    destruct (Z.geb_spec (start_index + Z.of_nat (length its)) total) as [Hge|Hlt].
    + exists 1%nat. simpl. rewrite app_nil_r. repeat split; try lia.
    + destruct (IH (start_index + items_per_page) (all_officers ++ its) w) as
        (k & Hrun & Hk & Hup & Hlow); [lia|].
      exists (S k). rewrite Hrun. simpl. rewrite <- app_assoc.
      repeat split; try lia.
      intros _. destruct (decide (k = 1%nat)) as [->|Hk2]; [lia|].
      specialize (Hlow ltac:(lia)). lia.
Qed.

(** X23. [get_officers] never sends [start_index]: every turn of its loop
    requests the same URL without parameters. Against a registry that
    answers this request alike each time, the call returns the first page
    once when the page holds [total_results] items or more, and otherwise
    the first page repeated, [k] times over, until
    [(k - 1) * items_per_page + len(items)] reaches [total_results]; no
    later page is ever fetched. *)
Theorem get_officers_repeats_the_first_page company_number items_per_page
    (page : Page A) w :
  (forall w,
     request_json
       {| rq_url := CompaniesHouseClient.officers_url base_url company_number;
          rq_params := None |} w = (Ok page, w)) ->
  0 < items_per_page ->
  exists (k fuel : nat),
    CompaniesHouseClient.get_officers request_json base_url fuel company_number
      items_per_page w =
    Some (Ok (concat (replicate k (default [] (pg_items page)))), w) /\
    (1 <= k)%nat /\
    default 0 (pg_total_results page) <=
      (Z.of_nat k - 1) * items_per_page +
      Z.of_nat (length (default [] (pg_items page))) /\
    ((2 <= k)%nat ->
     (Z.of_nat k - 2) * items_per_page +
     Z.of_nat (length (default [] (pg_items page))) <
     default 0 (pg_total_results page)) /\
    (default 0 (pg_total_results page) <=
       Z.of_nat (length (default [] (pg_items page))) ->
     k = 1%nat) /\
    (Z.of_nat (length (default [] (pg_items page))) <
       default 0 (pg_total_results page) ->
     (2 <= k)%nat).
Proof.
  intros Hserver Hipp.
  set (m := Z.to_nat (default 0 (pg_total_results page) -
                      Z.of_nat (length (default [] (pg_items page))))).
  destruct (get_officers_loop_fixed company_number items_per_page page Hserver Hipp
              m 0 [] w) as (k & Hrun & Hk & Hup & Hlow); [lia|].
  exists k, (S m). split; [exact Hrun|]. split; [done|]. split; [lia|].
  split; [intros Hk2; specialize (Hlow Hk2); lia|]. split.
  - intros Hall. destruct (decide (2 <= k)%nat) as [Hk2|]; [|lia].
    specialize (Hlow Hk2). nia.
  - intros Hmore. destruct (decide (k = 1%nat)) as [->|]; [lia|lia].
Qed.

Lemma search_officers_loop_bounded officer_name items_per_page :
  0 < items_per_page ->
  forall (m : nat) start_index all_results w n,
    200 - start_index <= Z.of_nat m * items_per_page ->
    exists out w' n',
      CompaniesHouseClient.search_officers_loop (counted request_json) base_url (S m)
        officer_name items_per_page all_results start_index (w, n) =
      Some (out, (w', n')) /\
      (n < n' <= n + S m)%nat.
Proof.
  intros Hipp. induction m as [|m IH]; intros start_index all_results w n Hm;
    rewrite search_officers_loop_turn; unfold counted at 1; cbn [fst snd];
    destruct (request_json _ w) as [[data|e] w'].
  - assert ((start_index >=? 200) = true) as -> by (apply Z.geb_le; lia).
    rewrite orb_true_r. eexists _, _, _. split; [done|lia].
  - eexists _, _, _. split; [done|lia].
  - destruct (_ || _).
    + eexists _, _, _. split; [done|lia].
    + destruct (IH (start_index + items_per_page)
                  (all_results ++ default [] (pg_items data)) w' (S n))
        as (out & w'' & n' & -> & Hn); [lia|].
      eexists _, _, _. split; [done|lia].
  - eexists _, _, _. split; [done|lia].
Qed.

(** X24. [search_officers] stops at the cap of 200 whatever the registry
    answers: with a positive page size, and [m] pages reaching 200 results,
    the call ends (returning or raising) after at least one and at most
    [m + 1] requests; 5 with the default page size of 50. *)
Theorem search_officers_stops_at_the_cap officer_name items_per_page (m : nat) w :
  0 < items_per_page ->
  200 <= Z.of_nat m * items_per_page ->
  exists out w' requests,
    CompaniesHouseClient.search_officers (counted request_json) base_url (S m)
      officer_name items_per_page (w, O) =
    Some (out, (w', requests)) /\
    (1 <= requests <= S m)%nat.
Proof.
  intros Hipp Hm.
  destruct (search_officers_loop_bounded officer_name items_per_page Hipp m 0 [] w O)
    as (out & w' & n' & Hrun & Hn); [lia|].
  exists out, w', n'. split; [exact Hrun|lia].
Qed.

Lemma search_officers_loop_pages officer_name items_per_page (m : nat) (results : list A) :
  0 < items_per_page ->
  200 <= Z.of_nat m * items_per_page ->
  (Z.of_nat m - 1) * items_per_page < 200 ->
  (forall p w,
     pa_q p = Some officer_name ->
     request_json
       {| rq_url := CompaniesHouseClient.search_url base_url; rq_params := Some p |} w =
     (Ok (serve_page results p), w)) ->
  forall (k j : nat) w,
    (j + k = m)%nat ->
    CompaniesHouseClient.search_officers_loop request_json base_url (S k) officer_name
      items_per_page (take (Z.to_nat (Z.of_nat j * items_per_page)) results)
      (Z.of_nat j * items_per_page) w =
    Some (Ok (take (Z.to_nat ((Z.of_nat m + 1) * items_per_page)) results), w).
Proof.
  intros Hipp Hm Hmin Hserver.
  induction k as [|k IH]; intros j w Hj;
    rewrite search_officers_loop_turn, Hserver by done; unfold serve_page; simpl;
    rewrite take_take_drop, length_take, length_drop.
  - assert ((Z.of_nat j * items_per_page >=? 200) = true) as ->
      by (apply Z.geb_le; assert (j = m) as -> by lia; lia).
    rewrite orb_true_r. do 3 f_equal. assert (j = m) as -> by lia.
    rewrite <- Z2Nat.inj_add by nia. f_equal. lia.
  - assert ((Z.of_nat j * items_per_page >=? 200) = false) as ->.
    { destruct (Z.geb_spec (Z.of_nat j * items_per_page) 200); [nia|done]. }
    rewrite orb_false_r.
    match goal with
    | |- context [?a >=? ?b] => destruct (Z.geb_spec a b) as [Hall|Hmore]
    end.
    + assert (0 <= Z.of_nat j * items_per_page) by nia.
      assert (Z.of_nat j * items_per_page + items_per_page <=
              (Z.of_nat m + 1) * items_per_page) by nia.
      rewrite !take_ge; [done|lia|lia].
    + replace (Z.of_nat j * items_per_page + items_per_page)
        with (Z.of_nat (S j) * items_per_page) by lia.
      replace (Z.to_nat (Z.of_nat j * items_per_page) + Z.to_nat items_per_page)%nat
        with (Z.to_nat (Z.of_nat (S j) * items_per_page))
        by (rewrite <- Z2Nat.inj_add by nia; f_equal; lia).
      apply IH. lia.
Qed.

(** X25. Against a registry that serves the pages of one result list,
    [search_officers] returns the first pages of the list in order, each
    result once, up to and including the page that starts at the first
    multiple of the page size at or above 200: the first 250 results with
    the default page size of 50, and all results when there are fewer. *)
Theorem search_officers_returns_the_first_pages officer_name items_per_page (m : nat)
    (results : list A) w :
  0 < items_per_page ->
  200 <= Z.of_nat m * items_per_page ->
  (Z.of_nat m - 1) * items_per_page < 200 ->
  (forall p w,
     pa_q p = Some officer_name ->
     request_json
       {| rq_url := CompaniesHouseClient.search_url base_url; rq_params := Some p |} w =
     (Ok (serve_page results p), w)) ->
  CompaniesHouseClient.search_officers request_json base_url (S m) officer_name
    items_per_page w =
  Some (Ok (take (Z.to_nat ((Z.of_nat m + 1) * items_per_page)) results), w).
Proof.
  intros Hipp Hm Hmin Hserver.
  apply (search_officers_loop_pages officer_name items_per_page m results Hipp Hm Hmin
           Hserver m O w).
  lia.
Qed.

End Paging.

Module SampleClient.

(** A registry that answers every request with the same page: two officers
    of three. *)
Definition short_page : Page Officer :=
  {| pg_items := Some [Sample.director "ALICE ARCHER" "2010-01-01";
                       Sample.director "ADAM BAKER" "2011-01-01"];
     pg_total_results := Some 3 |}.

Definition same_page_registry (r : Request) (w : unit) : result (Page Officer) * unit :=
  (Ok short_page, w).

Definition three_matches : list OfficerMatch :=
  [Sample.search_item "Adam BARKER" "barker"; Sample.search_item "adam baker" "adam";
   Sample.search_item "Adam BAKER" "adam2"].

(** A registry that serves the pages of [three_matches]. *)
Definition paging_registry (r : Request) (w : unit) : result (Page OfficerMatch) * unit :=
  match rq_params r with
  | Some p => (Ok (serve_page three_matches p), w)
  | None => (Raise (Exception "400 Client Error: Bad Request"), w)
  end.

End SampleClient.

Lemma get_officers_witness :
  exists (k fuel : nat),
    CompaniesHouseClient.get_officers SampleClient.same_page_registry "https://registry"
      fuel "AA000001" 100 tt =
    Some (Ok (concat (replicate k (default [] (pg_items SampleClient.short_page)))), tt) /\
    (1 <= k)%nat /\
    default 0 (pg_total_results SampleClient.short_page) <=
      (Z.of_nat k - 1) * 100 +
      Z.of_nat (length (default [] (pg_items SampleClient.short_page))) /\
    ((2 <= k)%nat ->
     (Z.of_nat k - 2) * 100 +
     Z.of_nat (length (default [] (pg_items SampleClient.short_page))) <
     default 0 (pg_total_results SampleClient.short_page)) /\
    (default 0 (pg_total_results SampleClient.short_page) <=
       Z.of_nat (length (default [] (pg_items SampleClient.short_page))) ->
     k = 1%nat) /\
    (Z.of_nat (length (default [] (pg_items SampleClient.short_page))) <
       default 0 (pg_total_results SampleClient.short_page) ->
     (2 <= k)%nat).
Proof.
  apply (get_officers_repeats_the_first_page SampleClient.same_page_registry
           "https://registry" "AA000001" 100 SampleClient.short_page tt).
  - reflexivity.
  - lia.
Defined.

Lemma search_officers_cap_witness :
  exists out w' requests,
    CompaniesHouseClient.search_officers (counted SampleClient.paging_registry)
      "https://registry" 5 "ADAM BAKER" 50 (tt, O) =
    Some (out, (w', requests)) /\
    (1 <= requests <= 5)%nat.
Proof.
  apply (search_officers_stops_at_the_cap SampleClient.paging_registry "https://registry"
           "ADAM BAKER" 50 4 tt); lia.
Defined.

Lemma search_officers_pages_witness :
  CompaniesHouseClient.search_officers SampleClient.paging_registry "https://registry" 5
    "ADAM BAKER" 50 tt =
  Some (Ok (take 250 SampleClient.three_matches), tt).
Proof.
  apply (search_officers_returns_the_first_pages SampleClient.paging_registry
           "https://registry" "ADAM BAKER" 50 4 SampleClient.three_matches tt);
    try lia.
  reflexivity.
Defined.

Lemma length_append_string x y :
  String.length (x +:+ y) = (String.length x + String.length y)%nat.
Proof.
  induction x as [|c x IH]; [done|]. rewrite append_cons. simpl. by rewrite IH.
Qed.

Lemma append_cancel_r a b s : a +:+ s = b +:+ s -> a = b.
Proof.
  revert b. induction a as [|c a IH]; intros [|c' b] Heq.
  - done.
  - apply (f_equal String.length) in Heq. rewrite !length_append_string in Heq.
    simpl in Heq. lia.
  - apply (f_equal String.length) in Heq. rewrite !length_append_string in Heq.
    simpl in Heq. lia.
  - rewrite !append_cons in Heq. injection Heq as -> Heq. f_equal. by apply IH.
Qed.

Lemma cache_file_inj a b :
  CompaniesHouseClient.cache_file a = CompaniesHouseClient.cache_file b -> a = b.
Proof.
  unfold CompaniesHouseClient.cache_file. intros Heq.
  apply (String.app_inj "profile_") in Heq. by apply append_cancel_r in Heq.
Qed.

(** X26. [get_company_profile] asks the registry at most once for a
    company: once a call has returned a profile, every later call for the
    same company number returns that profile from the cache, sends no
    request and changes nothing, whatever the registry would answer by
    then; the cache entries of other companies are left as they were; and
    a call that raises writes nothing to the cache. *)
Theorem profile_is_fetched_once {W P} (request_json : Request -> W -> result P * W)
    base_url company_number cache w :
  match CompaniesHouseClient.get_company_profile request_json base_url company_number
          (cache, w) with
  | (Ok data, (cache', w')) =>
      (forall w2,
         CompaniesHouseClient.get_company_profile request_json base_url company_number
           (cache', w2) = (Ok data, (cache', w2))) /\
      (forall other,
         other <> company_number ->
         cache' !! CompaniesHouseClient.cache_file other =
         cache !! CompaniesHouseClient.cache_file other)
  | (Raise e, (cache', w')) => cache' = cache
  end.
Proof.
  unfold CompaniesHouseClient.get_company_profile. simpl.
  destruct (cache !! CompaniesHouseClient.cache_file company_number) as [data|] eqn:Hhit.
  - split; [|done]. intros w2. simpl. by rewrite Hhit.
  - destruct (request_json _ w) as [[data|e] w']; [|done].
    split.
    + intros w2. simpl. by rewrite lookup_insert_eq.
    + intros other Hne. rewrite lookup_insert_ne; [done|].
      intros Heq%cache_file_inj. congruence.
Qed.


(** X27. The status the client reports is consistent: [remaining_requests]
    is at most [max_requests], [reset_time_seconds] is not negative, and it
    is 0 when all requests remain; [max_requests] and [period_seconds] are
    those of the limiter. *)
Theorem rate_limit_status_is_consistent rate_limiter clock1 clock2 :
  let status := (get_rate_limit_status rate_limiter clock1 clock2).2 in
  st_remaining_requests status <= st_max_requests status /\
  st_max_requests status = RateLimiter.max_requests rate_limiter /\
  st_period_seconds status = RateLimiter.period rate_limiter /\
  0 <= st_reset_time_seconds status /\
  (st_remaining_requests status = st_max_requests status ->
   st_reset_time_seconds status = 0).
Proof.
  unfold get_rate_limit_status, RateLimiterQueries.get_remaining_requests,
    RateLimiterQueries.get_reset_time. simpl.
  destruct (RateLimiter.prune clock1 _ _) as [|oldest rest]; simpl.
  - repeat split; lia.
  - repeat split; lia.
Qed.


(** X28. Against a client whose calls return or raise an exception derived
    from [Exception], on a console that accepts every line, the network
    stage of a batch records no [network_scan_error]: when the scan is asked
    for, [results['network']] is set to a snapshot, of at most 100
    companies, and [results['errors']] is left as it was. *)
Theorem network_stage_records_no_error {W} {U : StrUpper} (api_client : Facade W)
    network_depth active_only network_scanner company_numbers results :
  exists n after network_scanner',
    (forall fuel,
       (n < fuel)%nat ->
       network_stage (plain api_client) fuel true network_depth active_only network_scanner
         company_numbers results = Some (Returns after, network_scanner')) /\
    r_errors after = r_errors results /\
    exists network,
      r_network after = Some network /\
      (length (net_companies network) <= 100)%nat /\
      net_seed_companies network = company_numbers /\
      net_max_depth network = network_depth.
Proof.
  destruct (scan_network_plain api_client network_depth 100 active_only network_scanner
              company_numbers) as (n & Hplain).
  destruct (scan_network_run api_client network_depth 100 active_only network_scanner
              company_numbers) as (m & Hrun & _).
  rewrite Hrun in Hplain. unfold snapshot_after in Hplain.
  eexists n, _, _. split; [|split].
  - intros fuel Hfuel. unfold network_stage. by rewrite (Hplain fuel Hfuel).
  - done.
  - eexists. split; [done|].
    pose proof (scan_inv_run api_client network_depth 100 active_only m network_scanner
                  company_numbers) as Hinv.
    destruct (header_run api_client network_depth 100 active_only m network_scanner
                company_numbers) as [Hs Hm].
    pose proof (scan_inv_length _ _ Hinv) as Hlen. destruct Hinv as [_ _ Hcap _ _ _ _].
    simpl. split; [lia|done].
Qed.

(** On a console that is closed the first progress line fails with an
    exception derived from [Exception]: the stage records the error and
    leaves [results['network']] as it was. An interrupt goes through the
    stage. *)
Lemma network_stage_on_a_closed_console results :
  network_stage SampleConsole.closed_console_client 10 true 2 true (new_scanner tt)
    ["AA000001"%string] results =
  Some (Returns {| r_network := r_network results;
                   r_errors := r_errors results ++ ["network_scan_error"%string] |},
        new_scanner tt).
Proof. reflexivity. Qed.

Lemma network_stage_interrupted results :
  exists network_scanner',
    network_stage SampleConsole.interrupted_client 10 true 2 true (new_scanner tt)
      ["AA000001"%string] results =
    Some (Raises (OfBaseException KeyboardInterrupt), network_scanner').
Proof. eexists. vm_compute. reflexivity. Qed.

